(** * nmtpytorch/config.py: the hierarchical configuration system

    A shallow embedding of [nmtpytorch/config.py] (value coercion, override
    parsing, the [Options] loader with its validation passes, hierarchical
    lookup and the dict serialisation) together with the properties of the
    configuration system that are established over it.

    Conventions of the embedding.
    - A Python [str] is a Rocq [string]; case mapping and whitespace are the
      ASCII ones (characters above 127 have no case and are not blank).
    - Exceptions and [sys.exit] are explicit results ([outcome]).
    - Whatever the module obtains from outside itself (the environment, the
      file system, the hash order of sets, and the parts of the Python
      library that are only described on a fragment of their inputs) is
      collected in a [World] that every operation receives. *)

From Stdlib Require Import ZArith String Ascii List Lia Bool.
From Stdlib Require Import Floats.SpecFloat DecimalString Decimal.
From Stdlib Require DecimalPos DecimalFacts DecimalZ.
From stdpp Require Import base tactics option list gmap strings sorting.

Local Open Scope string_scope.
Local Open Scope Z_scope.
#[local] Set Warnings "-clear-no-such-hyp".

(** ** Results of running Python code *)

Inductive exn :=
| ValueError | KeyError | TypeError | NameError | SyntaxError
| AssertionError | AttributeError | OSError | RuntimeError
| ParserError (kind : string)       (* the exceptions of [configparser] *)
| OtherError (name : string).

Inductive outcome (A : Type) :=
| Return (a : A)
| Raise (e : exn)
| Exit (status : Z).                (* [sys.exit(status)] *)
Arguments Return {A} a.
Arguments Raise {A} e.
Arguments Exit {A} status.

Global Instance outcome_ret : MRet outcome := fun _ a => Return a.
Global Instance outcome_bind : MBind outcome := fun _ _ f m =>
  match m with
  | Return a => f a
  | Raise e => Raise e
  | Exit n => Exit n
  end.

Definition is_Return {A} (m : outcome A) : bool :=
  match m with Return _ => true | _ => false end.

Section Traverse.
Context {A B : Type} (f : A -> outcome B).
(** run [f] over a list from the left, stopping at the first failure *)
Fixpoint traverse (l : list A) : outcome (list B) :=
  match l with
  | [] => Return []
  | x :: r => y ← f x; ys ← traverse r; Return (y :: ys)
  end.
End Traverse.

Definition assert (b : bool) : outcome unit :=
  if b then Return tt else Raise AssertionError.

(** ** Python strings *)

Module Str.

Definition code (c : ascii) : nat := nat_of_ascii c.

Definition is_upper (c : ascii) : bool :=
  (Nat.leb 65 (code c) && Nat.leb (code c) 90)%bool.
Definition is_lower (c : ascii) : bool :=
  (Nat.leb 97 (code c) && Nat.leb (code c) 122)%bool.
Definition is_digit (c : ascii) : bool :=
  (Nat.leb 48 (code c) && Nat.leb (code c) 57)%bool.
Definition is_alpha (c : ascii) : bool := (is_upper c || is_lower c)%bool.
Definition is_ident_char (c : ascii) : bool :=
  (is_alpha c || is_digit c || Ascii.eqb c "_")%bool.
(** the blanks of [str.strip()] below 128 *)
Definition is_space (c : ascii) : bool :=
  (Nat.leb 9 (code c) && Nat.leb (code c) 13
   || Nat.leb 28 (code c) && Nat.leb (code c) 32)%bool.
Definition is_printable (c : ascii) : bool :=
  (Nat.leb 32 (code c) && Nat.leb (code c) 126)%bool.

Definition to_lower (c : ascii) : ascii :=
  if is_upper c then ascii_of_nat (code c + 32) else c.
Definition to_upper (c : ascii) : ascii :=
  if is_lower c then ascii_of_nat (code c - 32) else c.

Fixpoint smap (f : ascii -> ascii) (s : string) : string :=
  match s with
  | EmptyString => EmptyString
  | String c r => String (f c) (smap f r)
  end.

Fixpoint forallb (p : ascii -> bool) (s : string) : bool :=
  match s with
  | EmptyString => true
  | String c r => (p c && forallb p r)%bool
  end.

(** [s.lower()] *)
Definition lower (s : string) : string := smap to_lower s.

(** [s.capitalize()]: first character upper-cased, the rest lower-cased *)
Definition capitalize (s : string) : string :=
  match s with
  | EmptyString => EmptyString
  | String c r => String (to_upper c) (lower r)
  end.

(** [s.startswith(p)] *)
Definition startswith (s p : string) : bool := String.prefix p s.

(** [s.startswith((p1, p2, ...))] *)
Definition startswith_any (s : string) (ps : list string) : bool :=
  existsb (startswith s) ps.

(** [sub in s] *)
Fixpoint contains (sub s : string) : bool :=
  (String.prefix sub s ||
   match s with
   | EmptyString => false
   | String _ r => contains sub r
   end)%bool.

(** [s.count(c)] for a one-character [c] *)
Fixpoint count (c : ascii) (s : string) : nat :=
  match s with
  | EmptyString => O
  | String x r => if Ascii.eqb x c then S (count c r) else count c r
  end.

(** [s.split(c)] for a one-character separator *)
Fixpoint split (c : ascii) (s : string) : list string :=
  match s with
  | EmptyString => [EmptyString]
  | String x r =>
      if Ascii.eqb x c then EmptyString :: split c r
      else match split c r with
           | h :: t => String x h :: t
           | [] => [String x EmptyString]
           end
  end.

(** [s.split(c, 1)] *)
Fixpoint split1 (c : ascii) (s : string) : list string :=
  match s with
  | EmptyString => [EmptyString]
  | String x r =>
      if Ascii.eqb x c then [EmptyString; r]
      else match split1 c r with
           | h :: t => String x h :: t
           | [] => [String x EmptyString]
           end
  end.

(** [s.replace(old, new)] for a non-empty [old]: occurrences are replaced
    from the left and do not overlap; [skip] counts the characters of an
    occurrence that are still to be dropped. *)
Fixpoint replace_from (old new : string) (skip : nat) (s : string) : string :=
  match s with
  | EmptyString => EmptyString
  | String c r =>
      match skip with
      | S k => replace_from old new k r
      | O =>
          if String.prefix old s
          then new ++ replace_from old new (Nat.pred (String.length old)) r
          else String c (replace_from old new O r)
      end
  end.
Definition replace (old new s : string) : string := replace_from old new O s.

Fixpoint lstrip (s : string) : string :=
  match s with
  | String c r => if is_space c then lstrip r else s
  | EmptyString => EmptyString
  end.

Fixpoint rstrip (s : string) : string :=
  match s with
  | EmptyString => EmptyString
  | String c r =>
      match rstrip r with
      | EmptyString => if is_space c then EmptyString else String c EmptyString
      | r' => String c r'
      end
  end.

(** [s.strip()] *)
Definition strip (s : string) : string := rstrip (lstrip s).

Fixpoint drop (n : nat) (s : string) : string :=
  match n, s with
  | O, _ => s
  | S k, String _ r => drop k r
  | S _, EmptyString => EmptyString
  end.

Definition last_or (d : string) (l : list string) : string := List.last l d.

(** [s < t] on strings (code-point order) *)
Fixpoint ltb (s t : string) : bool :=
  match s, t with
  | _, EmptyString => false
  | EmptyString, String _ _ => true
  | String a r, String b q =>
      if Nat.ltb (code a) (code b) then true
      else if Nat.ltb (code b) (code a) then false
      else ltb r q
  end.

End Str.

(** ** Python floats

    A [float] is an IEEE-754 binary64 number, here a [spec_float] at
    precision 53.  Reading a decimal literal rounds to the nearest double
    (ties to even); [repr] prints the shortest decimal that reads back to
    the same double. *)

Module PyFloat.

Definition prec : Z := 53.
Definition emax : Z := 1024.

(** the double nearest to [p / q] *)
Definition of_ratio (p q : positive) : spec_float :=
  SFdiv prec emax (S754_finite false p 0) (S754_finite false q 0).

(** the double nearest to [d * 10 ^ e], for [0 <= d] *)
Definition of_decimal (d e : Z) : spec_float :=
  match d with
  | Zpos p =>
      if 0 <=? e then of_ratio (p * Z.to_pos (10 ^ e)) 1
      else of_ratio p (Z.to_pos (10 ^ (- e)))
  | _ => S754_zero false
  end.

(** [float(n)] *)
Definition of_Z (n : Z) : spec_float := binary_normalize prec emax n 0 false.

Definition mul (x y : spec_float) : spec_float := SFmul prec emax x y.
Definition div (x y : spec_float) : spec_float := SFdiv prec emax x y.
(** [x >= y] *)
Definition geb (x y : spec_float) : bool := SFleb y x.
(** [x > y] *)
Definition gtb (x y : spec_float) : bool := SFltb y x.

Definition same (x y : spec_float) : bool :=
  match x, y with
  | S754_zero a, S754_zero b => Bool.eqb a b
  | S754_infinity a, S754_infinity b => Bool.eqb a b
  | S754_nan, S754_nan => true
  | S754_finite a m e, S754_finite b n f =>
      (Bool.eqb a b && Pos.eqb m n && Z.eqb e f)%bool
  | _, _ => false
  end.

(** [m * 2 ^ e] written exactly as [n * 10 ^ (- j)] *)
Definition exact_decimal (m : positive) (e : Z) : Z * Z :=
  if 0 <=? e then (Zpos m * 2 ^ e, 0) else (Zpos m * 5 ^ (- e), - e).

Definition digits (n : Z) : string := NilEmpty.string_of_uint (N.to_uint (Z.to_N n)).
Definition ndigits (n : Z) : Z := Z.of_nat (String.length (digits n)).

(** The shortest decimal [(d, e)] (value [d * 10 ^ e], at most 17 digits)
    that reads back to [x]; with [k] digits the two neighbours of [x] are
    tried and the nearer one that reads back is taken. *)
Fixpoint shortest (fuel : nat) (k : Z) (x : spec_float) (n len j : Z) : Z * Z :=
  match fuel with
  | O => (n, - j)
  | S fuel' =>
      if len <=? k then (n, - j)
      else
        let s := len - k in
        let lo := n / 10 ^ s in
        let r := n mod 10 ^ s in
        let hi := lo + 1 in
        let e := s - j in
        match same (of_decimal lo e) x, same (of_decimal hi e) x with
        | true, true =>
            if 2 * r <? 10 ^ s then (lo, e)
            else if 10 ^ s <? 2 * r then (hi, e)
            else (if Z.even lo then lo else hi, e)
        | true, false => (lo, e)
        | false, true => (hi, e)
        | false, false => shortest fuel' (k + 1) x n len j
        end
  end.

Fixpoint strip_zeros (s : string) : string :=
  match s with
  | EmptyString => EmptyString
  | String c r =>
      match strip_zeros r with
      | EmptyString => if Ascii.eqb c "0" then EmptyString else String c EmptyString
      | r' => String c r'
      end
  end.

Fixpoint zeros (n : nat) : string :=
  match n with O => EmptyString | S k => String "0" (zeros k) end.

Definition take (n : nat) (s : string) : string := String.substring 0 n s.

(** the layout of [repr]: exponent notation when the decimal point falls
    before the fourth leading zero or after the sixteenth digit *)
Definition layout (d e : Z) : string :=
  let full := digits d in
  let ds := strip_zeros full in
  let nd := Z.of_nat (String.length ds) in
  let decpt := Z.of_nat (String.length full) + e in
  if (decpt <=? -4) || (16 <? decpt) then
    let x := decpt - 1 in
    let xs := digits (Z.abs x) in
    take 1 ds
    ++ (if 1 <? nd then "." ++ Str.drop 1 ds else "")
    ++ "e" ++ (if x <? 0 then "-" else "+")
    ++ (if Nat.ltb (String.length xs) 2 then zeros (2 - String.length xs) else "")
    ++ xs
  else if decpt <=? 0 then "0." ++ zeros (Z.to_nat (- decpt)) ++ ds
  else if nd <=? decpt then ds ++ zeros (Z.to_nat (decpt - nd)) ++ ".0"
  else take (Z.to_nat decpt) ds ++ "." ++ Str.drop (Z.to_nat decpt) ds.

(** [repr(x)], which is also [str(x)] *)
Definition repr (x : spec_float) : string :=
  match x with
  | S754_zero s => if s then "-0.0" else "0.0"
  | S754_infinity s => if s then "-inf" else "inf"
  | S754_nan => "nan"
  | S754_finite s m e =>
      let '(n, j) := exact_decimal m e in
      let '(d, e10) := shortest 17 1 (S754_finite false m e) n (ndigits n) j in
      (if s then "-" else "") ++ layout d e10
  end.

(** *** Number literals *)

Fixpoint digits_value (acc : Z) (s : string) : option Z :=
  match s with
  | EmptyString => Some acc
  | String c r =>
      if Str.is_digit c
      then digits_value (10 * acc + Z.of_nat (Str.code c - 48)) r
      else None
  end.

(** a possibly empty run of decimal digits *)
Definition digit_run (s : string) : option Z := digits_value 0 s.

(** a non-empty run of decimal digits *)
Definition digit_part (s : string) : option Z :=
  match s with EmptyString => None | _ => digits_value 0 s end.

Definition signed_digit_part (s : string) : option Z :=
  match s with
  | String "+" r => digit_part r
  | String "-" r => Z.opp <$> digit_part r
  | _ => digit_part s
  end.

(** [floatnumber] of the Python grammar, without digit-group underscores:
    [digits.digits], [digits.], [.digits], each with an optional exponent,
    or [digits] with an exponent. *)
Definition float_literal (s : string) : option spec_float :=
  match Str.split "e" (Str.lower s) with
  | [mant] =>
      match Str.split "." mant with
      | [i; f] =>
          if (String.eqb i "" && String.eqb f "")%bool then None
          else
            _ ← digit_run i;
            d ← digit_run (i ++ f);
            Some (of_decimal d (- Z.of_nat (String.length f)))
      | _ => None
      end
  | [mant; ex] =>
      x ← signed_digit_part ex;
      match Str.split "." mant with
      | [i] => d ← digit_part i; Some (of_decimal d x)
      | [i; f] =>
          if (String.eqb i "" && String.eqb f "")%bool then None
          else
            _ ← digit_run i;
            d ← digit_run (i ++ f);
            Some (of_decimal d (x - Z.of_nat (String.length f)))
      | _ => None
      end
  | _ => None
  end.

(** [decinteger] of the Python grammar, without underscores: no leading
    zero unless the number is zero. *)
Definition int_literal (s : string) : option Z :=
  match s with
  | String "0" r => if Str.forallb (Ascii.eqb "0") r then Some 0 else None
  | _ => digit_part s
  end.

(** a float written in Python source text *)
Definition lit (s : string) : spec_float := default S754_nan (float_literal s).

End PyFloat.

(** ** Python dictionaries with string keys

    Insertion-ordered: assigning to an existing key keeps its position. *)

Module Dict.

Abbreviation t V := (list (string * V)) (only parsing).

Section Ops.
Context {V : Type}.

(** [d.get(k)]; [d[k]] is the same with [KeyError] for [None] *)
Fixpoint get (d : t V) (k : string) : option V :=
  match d with
  | [] => None
  | (k', v) :: r => if String.eqb k' k then Some v else get r k
  end.

(** [d[k] = v] *)
Fixpoint set (d : t V) (k : string) (v : V) : t V :=
  match d with
  | [] => [(k, v)]
  | (k', v') :: r =>
      if String.eqb k' k then (k', v) :: r else (k', v') :: set r k v
  end.

(** [k in d] *)
Definition mem (d : t V) (k : string) : bool :=
  match get d k with Some _ => true | None => false end.

Definition keys (d : t V) : list string := map fst d.

(** [d.update(e)] *)
Definition update (d e : t V) : t V :=
  fold_left (fun acc kv => set acc (fst kv) (snd kv)) e d.

(** [{k: v for k, v in l}] *)
Definition of_items (l : list (string * V)) : t V := update [] l.
End Ops.

End Dict.

(** ** Values *)

#[warnings="-register-all"]
Inductive value :=
| VNone
| VBool (b : bool)
| VInt (n : Z)
| VFloat (x : spec_float)
| VStr (s : string)
| VPath (p : string)                (* a [pathlib.Path], by its text *)
| VList (l : list value)
| VTuple (l : list value)
| VSet (l : list value)
| VDict (l : list (value * value))
| VObject (descr : string).         (* any other object; opaque: not iterable *)

(** What [_parse_value] is handed: a [str], or the [Path] that
    [resolve_path] made of one. *)
Inductive token :=
| Text (s : string)
| PathObj (p : string).

(** [str(value)] *)
Definition token_str (t : token) : string :=
  match t with Text s => s | PathObj p => p end.

Definition token_value (t : token) : value :=
  match t with Text s => VStr s | PathObj p => VPath p end.

(** ** The configuration parser's store

    What a [ConfigParser] holds: the [DEFAULT] section and the named
    sections in order of creation, every value as text. *)

Record parser := {
  defaults : Dict.t string;
  psections : Dict.t (Dict.t string);
}.

(** The section headers of a configuration text in order of appearance,
    each with its [option = value] lines. *)
Definition ini_doc : Type := list (string * list (string * string)).

(** ** The world outside the module *)

Record World := {
  (** [os.environ] *)
  environ : string -> option string;
  (** [open(filename).read()] *)
  read_text : string -> outcome string;
  (** [str(pathlib.Path(text).expanduser().resolve())] *)
  fs_resolve : string -> outcome string;
  (** rank of a string in the iteration order of a [set] of strings *)
  hash_rank : string -> Z;
  (** [ast.literal_eval(text)] outside the fragment of [literal_fragment];
      [None] when it raises *)
  literal_beyond : string -> option value;
  (** [eval(text.capitalize(), {}, {})] outside the fragment of
      [eval_fragment] *)
  eval_beyond : string -> outcome value;
  (** the sections and options of a configuration text outside the fragment
      of [ini_fragment] *)
  ini_beyond : string -> outcome ini_doc;
  (** [ExtendedInterpolation.before_get] on a value that contains a [$] *)
  interpolate_beyond : parser -> string -> string -> string -> outcome string;
  (** [get_close_matches(word, names, n=1)] for a [word] of 200 characters
      or more, where [difflib] discards popular characters *)
  close_matches_beyond : string -> list string -> list string;
}.

(** ** 4.1 Value coercion *)

Definition is_identifier (s : string) : bool :=
  match s with
  | EmptyString => false
  | String c r =>
      ((Str.is_alpha c || Ascii.eqb c "_") && Str.forallb Str.is_ident_char r)%bool
  end.

Definition keyword_value (s : string) : option value :=
  if String.eqb s "False" then Some (VBool false)
  else if String.eqb s "True" then Some (VBool true)
  else if String.eqb s "None" then Some VNone
  else None.

Definition unsigned_number (s : string) : option value :=
  match PyFloat.int_literal s with
  | Some n => Some (VInt n)
  | None => VFloat <$> PyFloat.float_literal s
  end.

Definition negate (v : value) : value :=
  match v with
  | VInt n => VInt (- n)
  | VFloat x => VFloat (SFopp x)
  | _ => v
  end.

Definition plain_char (q c : ascii) : bool :=
  (Str.is_printable c && negb (Ascii.eqb c q) && negb (Ascii.eqb c "\"))%bool.

(** a string literal in one pair of quotes, without escapes or prefix *)
Definition quoted (s : string) : option string :=
  match s with
  | String q r =>
      if (Ascii.eqb q "'" || Nat.eqb (Str.code q) 34)%bool then
        let body := String.substring 0 (Nat.pred (String.length r)) r in
        if (String.eqb r (body ++ String q "") && Str.forallb (plain_char q) body)%bool
        then Some body else None
      else None
  | EmptyString => None
  end.

(** [ast.literal_eval] on the texts whose reading is settled here: the empty
    text and a lone identifier (rejected unless it is [True], [False] or
    [None]), a decimal integer or float with at most one sign, and a plain
    quoted string.  The inner [None] is a rejection (some exception); the
    outer [None] leaves the text to [literal_beyond]. *)
Definition literal_fragment (s : string) : option (option value) :=
  if String.eqb s "" then Some None
  else if is_identifier s then Some (keyword_value s)
  else if Nat.ltb 4300 (String.length s) then None
  else
    match unsigned_number s, s with
    | Some v, _ => Some (Some v)
    | None, String "-" r => (fun v => Some (negate v)) <$> unsigned_number r
    | None, String "+" r => Some <$> unsigned_number r
    | None, _ => Some <$> (VStr <$> quoted s)
    end.

(** [ast.literal_eval(value)]; a [Path] is not a literal *)
Definition literal_eval (w : World) (t : token) : option value :=
  match t with
  | Text s =>
      match literal_fragment s with
      | Some r => r
      | None => literal_beyond w s
      end
  | PathObj _ => None
  end.

Definition keywords : list string := ["False"; "True"; "None"].

Definition is_blank (c : ascii) : bool :=
  (Ascii.eqb c " " || Nat.eqb (Str.code c) 9)%bool.

Fixpoint skip_blanks (s : string) : string :=
  match s with
  | String c r => if is_blank c then skip_blanks r else s
  | EmptyString => EmptyString
  end.

(** blanks, then possibly a comment, up to the end *)
Definition only_trailer (s : string) : bool :=
  match skip_blanks s with
  | EmptyString => true
  | String c r => (Ascii.eqb c "#" && Str.forallb Str.is_printable r)%bool
  end.

Definition keyword_then_trailer (s : string) : option value :=
  match filter (fun k => (Str.startswith s k && only_trailer (Str.drop (String.length k) s))%bool) keywords with
  | k :: _ => keyword_value k
  | [] => None
  end.

(** [eval(s, {}, {})] on the texts whose evaluation is settled here: an
    identifier that starts with [True], [False] or [None] (the constant
    itself, and otherwise a name bound nowhere), and such a constant followed
    by blanks and a comment.  [None] leaves the text to [eval_beyond]. *)
Definition eval_fragment (s : string) : option (outcome value) :=
  if (is_identifier s && Str.startswith_any s keywords)%bool then
    Some (match keyword_value s with
          | Some v => Return v
          | None => Raise NameError
          end)
  else Return <$> keyword_then_trailer s.

(** [eval(text.capitalize(), {}, {})] *)
Definition eval_capitalized (w : World) (text : string) : outcome value :=
  match eval_fragment (Str.capitalize text) with
  | Some r => r
  | None => eval_beyond w text
  end.

(** [_parse_value(value)] *)
Definition _parse_value (w : World) (raw : token) : outcome value :=
  (* Check for boolean or None *)
  if Str.startswith_any (Str.capitalize (token_str raw)) keywords then
    eval_capitalized w (token_str raw)
  else
    (* Detect strings, floats and ints *)
    match literal_eval w raw with
    | Some result => Return result
    | None => Return (token_value raw)        (* If this fails, this is a string *)
    end.

Definition path_prefixes : list string := ["~"; "/"; "../"; "./"].

(** [resolve_path(value)] *)
Fixpoint resolve_path (w : World) (v : value) : outcome value :=
  match v with
  | VList l => l' ← traverse (resolve_path w) l; Return (VList l')
  | VDict kv =>
      kv' ← traverse (fun e => x ← resolve_path w (snd e); Return (fst e, x)) kv;
      Return (VDict kv')
  | VStr s =>
      if Str.startswith_any s path_prefixes
      then p ← fs_resolve w s; Return (VPath p)
      else Return v
  | _ => Return v
  end.

(** [resolve_path] on the text of an override *)
Definition resolve_token (w : World) (s : string) : outcome token :=
  if Str.startswith_any s path_prefixes
  then p ← fs_resolve w s; Return (PathObj p)
  else Return (Text s).

(** ** The defaults of the [train] section *)

Inductive scalar :=
| SInt (n : Z)
| SBool (b : bool)
| SFloat (x : spec_float)
| SStr (s : string).

Definition scalar_value (d : scalar) : value :=
  match d with
  | SInt n => VInt n
  | SBool b => VBool b
  | SFloat x => VFloat x
  | SStr s => VStr s
  end.

(** [str(d)] *)
Definition py_str (d : scalar) : string :=
  match d with
  | SInt n => NilZero.string_of_int (Z.to_int n)
  | SBool b => if b then "True" else "False"
  | SFloat x => PyFloat.repr x
  | SStr s => s
  end.

Definition TRAIN_DEFAULTS : Dict.t scalar := [
  ("num_workers", SInt 0);
  ("pin_memory", SBool false);
  ("seed", SInt 0);
  ("gclip", SFloat (PyFloat.lit "5."));
  ("l2_reg", SFloat (PyFloat.lit "0."));
  ("patience", SInt 20);
  ("optimizer", SStr "adam");
  ("lr", SFloat (PyFloat.lit "0.0004"));
  ("lr_decay", SBool false);
  ("lr_decay_revert", SBool false);
  ("lr_decay_factor", SFloat (PyFloat.lit "0.1"));
  ("lr_decay_patience", SInt 10);
  ("lr_decay_min", SFloat (PyFloat.lit "0.000001"));
  ("model_type", SStr "");
  ("momentum", SFloat (PyFloat.lit "0.0"));
  ("nesterov", SBool false);
  ("disp_freq", SInt 30);
  ("batch_size", SInt 32);
  ("max_epochs", SInt 100);
  ("max_iterations", SInt 1000000);          (* int(1e6) *)
  ("eval_metrics", SStr "loss");
  ("eval_filters", SStr "");
  ("eval_beam", SInt 6);
  ("eval_batch_size", SInt 16);
  ("eval_freq", SInt 3000);
  ("eval_max_len", SInt 200);
  ("eval_start", SInt 1);
  ("eval_zero", SBool false);
  ("save_best_metrics", SBool true);
  ("save_path", SStr "");
  ("save_optim_state", SBool false);
  ("checkpoint_freq", SInt 5000);
  ("n_checkpoints", SInt 5);
  ("tensorboard_dir", SStr "");
  ("pretrained_file", SStr "");
  ("freeze_layers", SStr "");
  ("handle_oom", SBool false)
].

(** [expand_env_vars(data)] *)
Definition expand_env_vars (w : World) (data : string) : string :=
  fold_left
    (fun data key =>
       let var := "$" ++ key in
       if Str.contains var data then
         match environ w key with
         | Some val => Str.replace var val data
         | None => data
         end
       else data)
    ["HOME"; "USER"; "LOCAL"; "SCRATCH"] data.

(** ** [configparser.ConfigParser(interpolation=ExtendedInterpolation())] *)

Module ConfigParser.

Definition DEFAULTSECT : string := "DEFAULT".

Definition empty : parser := {| defaults := []; psections := [] |}.

(** [optionxform] *)
Definition optionxform (o : string) : string := Str.lower o.

(** [parser.sections()] *)
Definition sections (p : parser) : list string := Dict.keys (psections p).

Definition set_option (p : parser) (section key val : string) : parser :=
  if String.eqb section DEFAULTSECT then
    {| defaults := Dict.set (defaults p) key val; psections := psections p |}
  else
    {| defaults := defaults p;
       psections := Dict.set (psections p) section
                      (Dict.set (default [] (Dict.get (psections p) section)) key val) |}.

(** length of a [${...}] reference at the head of [s]: the regular
    expression [\$\{([^}]+)\}] *)
Fixpoint ref_body (s : string) : option nat :=
  match s with
  | EmptyString => None
  | String c r => if Ascii.eqb c "}" then Some O else S <$> ref_body r
  end.
Definition ref_length (s : string) : option nat :=
  match s with
  | String "$" (String "{" r) =>
      match ref_body r with
      | Some (S n) => Some (S n + 3)%nat
      | _ => None
      end
  | _ => None
  end.

Fixpoint drop_refs (skip : nat) (s : string) : string :=
  match s with
  | EmptyString => EmptyString
  | String c r =>
      match skip with
      | S k => drop_refs k r
      | O =>
          match ref_length s with
          | Some n => drop_refs (Nat.pred n) r
          | None => String c (drop_refs O r)
          end
      end
  end.

(** [ExtendedInterpolation.before_set]: a value keeps a [$] only doubled
    or in a reference *)
Definition before_set (val : string) : outcome string :=
  if Str.contains "$" (drop_refs O (Str.replace "$$" "" val))
  then Raise ValueError else Return val.

(** one section of [read_dict]; [seen] is the options already added to it *)
Fixpoint read_dict_keys (p : parser) (section : string) (seen : list string)
    (keys : list (string * scalar)) : outcome parser :=
  match keys with
  | [] => Return p
  | (key, val) :: rest =>
      let key := optionxform key in
      if bool_decide (key ∈ seen)
      then Raise (ParserError "DuplicateOptionError")
      else
        text ← (if String.eqb (py_str val) "" then Return "" else before_set (py_str val));
        read_dict_keys (set_option p section key text) section (key :: seen) rest
  end.

Definition add_section_if_new (p : parser) (section : string) : parser :=
  if (String.eqb section DEFAULTSECT || Dict.mem (psections p) section)%bool then p
  else {| defaults := defaults p; psections := Dict.set (psections p) section [] |}.

(** [parser.read_dict(dictionary)] *)
Fixpoint read_dict (p : parser) (dictionary : Dict.t (Dict.t scalar)) : outcome parser :=
  match dictionary with
  | [] => Return p
  | (section, keys) :: rest =>
      p' ← read_dict_keys (add_section_if_new p section) section [] keys;
      read_dict p' rest
  end.

(** *** Reading a configuration text *)

Definition is_delimiter (c : ascii) : bool := (Ascii.eqb c "=" || Ascii.eqb c ":")%bool.

(** the text before and after the first [=] or [:] *)
Fixpoint split_option (s : string) : option (string * string) :=
  match s with
  | EmptyString => None
  | String c r =>
      if is_delimiter c then Some (EmptyString, r)
      else '(o, v) ← split_option r; Some (String c o, v)
  end.

Definition header_name (v : string) : option string :=
  match v with
  | String "[" r =>
      let name := String.substring 0 (Nat.pred (String.length r)) r in
      if (String.eqb r (name ++ "]") && negb (String.eqb name "")
          && Nat.eqb (Str.count "]" name) 0)%bool
      then Some name else None
  | _ => None
  end.

(** the lines of a text after its first section header, newest first *)
Fixpoint ini_lines (acc : ini_doc) (lines : list string) : option ini_doc :=
  match lines with
  | [] => Some acc
  | line :: rest =>
      let v := Str.strip line in
      if (String.eqb v "" || Str.startswith v "#" || Str.startswith v ";")%bool
      then ini_lines acc rest
      else if negb (String.eqb (Str.lstrip line) line) then None
      else if Str.startswith v "[" then
        name ← header_name v; ini_lines ((name, []) :: acc) rest
      else
        match acc, split_option v with
        | (name, opts) :: acc', Some (o, x) =>
            if String.eqb (Str.rstrip o) "" then None
            else ini_lines ((name, (opts ++ [(Str.rstrip o, Str.strip x)])%list) :: acc') rest
        | _, _ => None
        end
  end.

(** The texts whose reading is settled here: printable lines without
    indentation, each blank, a comment ([#], [;]), a header [[name]], or
    [option = value] / [option: value] under a header.  [None] leaves the
    text to [ini_beyond]. *)
Definition ini_fragment (data : string) : option ini_doc :=
  if Str.forallb (fun c => (Str.is_printable c || Nat.eqb (Str.code c) 10)%bool) data
  then (fun doc => List.rev doc) <$> ini_lines [] (Str.split (ascii_of_nat 10) data)
  else None.

Definition ini_events (w : World) (data : string) : outcome ini_doc :=
  match ini_fragment data with
  | Some doc => Return doc
  | None => ini_beyond w data
  end.

Fixpoint read_options (p : parser) (section : string) (seen : list string)
    (opts : list (string * string)) : outcome (parser * list string) :=
  match opts with
  | [] => Return (p, seen)
  | (o, val) :: rest =>
      let o := optionxform o in
      if bool_decide (o ∈ seen)
      then Raise (ParserError "DuplicateOptionError")
      else read_options (set_option p section o val) section (o :: seen) rest
  end.

(** [_read]: [added] are the sections met so far in this text, [seen] the
    options met so far in [DEFAULT] *)
Fixpoint read_events (p : parser) (added : list string) (seen : list string)
    (doc : ini_doc) : outcome parser :=
  match doc with
  | [] => Return p
  | (name, opts) :: rest =>
      if String.eqb name DEFAULTSECT then
        '(p', seen') ← read_options p name seen opts;
        read_events p' added seen' rest
      else if bool_decide (name ∈ added)
      then Raise (ParserError "DuplicateSectionError")
      else
        '(p', _) ← read_options (add_section_if_new p name) name [] opts;
        read_events p' (name :: added) seen rest
  end.

(** [parser.read_string(data)] *)
Definition read_string (w : World) (p : parser) (data : string) : outcome parser :=
  doc ← ini_events w data;
  read_events p [] [] doc.

(** [ExtendedInterpolation.before_get] *)
Definition before_get (w : World) (p : parser) (section option val : string)
  : outcome string :=
  if Str.contains "$" val then interpolate_beyond w p section option val
  else Return val.

(** [parser.items(section)]: the options of [DEFAULT] first, then the
    section's own, a section's value replacing the default's in place *)
Definition items (w : World) (p : parser) (section : string)
  : outcome (list (string * string)) :=
  match Dict.get (psections p) section with
  | None => Raise (ParserError "NoSectionError")
  | Some own =>
      traverse (fun e => val ← before_get w p section (fst e) (snd e); Return (fst e, val))
           (Dict.update (defaults p) own)
  end.

End ConfigParser.

(** ** [difflib.get_close_matches] *)

Module Difflib.

Fixpoint common_prefix (a b : list ascii) : nat :=
  match a, b with
  | x :: a', y :: b' => if Ascii.eqb x y then S (common_prefix a' b') else O
  | _, _ => O
  end.

(** the longest block starting at the head of [a] and somewhere in [b],
    the leftmost on ties; [j] is the position of [b] in the whole *)
Fixpoint best_in_b (a b : list ascii) (j : nat) (best : nat * nat) : nat * nat :=
  match b with
  | [] => best
  | _ :: b' =>
      let k := common_prefix a b in
      best_in_b a b' (S j) (if Nat.ltb (snd best) k then (j, k) else best)
  end.

Fixpoint longest_from (a b : list ascii) (i : nat) (best : nat * nat * nat)
  : nat * nat * nat :=
  match a with
  | [] => best
  | _ :: a' =>
      let '(j, k) := best_in_b a b O (O, O) in
      longest_from a' b (S i) (if Nat.ltb (snd best) k then (i, j, k) else best)
  end.

(** [SequenceMatcher.find_longest_match] without junk: [(i, j, k)] with
    [a[i:i+k] == b[j:j+k]], [k] maximal, then [i] minimal, then [j] *)
Definition find_longest_match (a b : list ascii) : nat * nat * nat :=
  longest_from a b O (O, O, O).

(** total size of [get_matching_blocks()] *)
Fixpoint matches (fuel : nat) (a b : list ascii) : nat :=
  match fuel with
  | O => O
  | S fuel' =>
      let '(i, j, k) := find_longest_match a b in
      match k with
      | O => O
      | _ => (k + matches fuel' (take i a) (take j b)
                + matches fuel' (drop (i + k) a) (drop (j + k) b))%nat
      end
  end.

(** [_calculate_ratio(matches, length)] *)
Definition calculate_ratio (m len : nat) : spec_float :=
  match len with
  | O => PyFloat.lit "1.0"
  | _ => PyFloat.div (PyFloat.mul (PyFloat.lit "2.0") (PyFloat.of_Z (Z.of_nat m)))
                     (PyFloat.of_Z (Z.of_nat len))
  end.

Definition ratio (a b : list ascii) : spec_float :=
  calculate_ratio (matches (S (length a)) a b) (length a + length b).

Fixpoint remove_one (c : ascii) (l : list ascii) : option (list ascii) :=
  match l with
  | [] => None
  | x :: r => if Ascii.eqb x c then Some r else cons x <$> remove_one c r
  end.

(** how many elements of [a] find a partner of their own in [avail] *)
Fixpoint shared (a avail : list ascii) : nat :=
  match a with
  | [] => O
  | c :: a' =>
      match remove_one c avail with
      | Some rest => S (shared a' rest)
      | None => shared a' avail
      end
  end.

Definition quick_ratio (a b : list ascii) : spec_float :=
  calculate_ratio (shared a b) (length a + length b).

Definition real_quick_ratio (a b : list ascii) : spec_float :=
  calculate_ratio (Nat.min (length a) (length b)) (length a + length b).

Definition cutoff : spec_float := PyFloat.lit "0.6".

(** [(s, x) > (t, y)] on pairs of a score and a word *)
Definition pair_gtb (p q : spec_float * string) : bool :=
  if SFeqb (fst p) (fst q) then Str.ltb (snd q) (snd p)
  else PyFloat.gtb (fst p) (fst q).

(** [max(result)]: the first of the greatest *)
Definition best (result : list (spec_float * string)) : option (spec_float * string) :=
  match result with
  | [] => None
  | p :: r => Some (fold_left (fun m q => if pair_gtb q m then q else m) r p)
  end.

(** the possibilities that pass the three tests, with their scores *)
Definition scored (word : string) (possibilities : list string)
  : list (spec_float * string) :=
  let b := list_ascii_of_string word in
  flat_map
    (fun x =>
       let a := list_ascii_of_string x in
       if (PyFloat.geb (real_quick_ratio a b) cutoff
           && PyFloat.geb (quick_ratio a b) cutoff
           && PyFloat.geb (ratio a b) cutoff)%bool
       then [(ratio a b, x)] else [])
    possibilities.

(** [get_close_matches(word, possibilities, n=1)] *)
Definition get_close_matches (w : World) (word : string) (possibilities : list string)
  : list string :=
  if Nat.leb 200 (String.length word) then close_matches_beyond w word possibilities
  else match best (scored word possibilities) with
       | Some (_, x) => [x]
       | None => []
       end.

End Difflib.

(** ** Sets of strings

    A [set] of strings iterates in an order fixed by the hashes of its
    elements, which the module does not control: the elements come out
    sorted by the rank the world gives them. *)

Definition rank_le (w : World) (a b : string) : Prop := hash_rank w a ≤ hash_rank w b.

Global Instance rank_le_dec w a b : Decision (rank_le w a b) := Z_le_dec _ _.

(** iterating over [set(l)] *)
Definition set_iter (w : World) (l : list string) : list string :=
  merge_sort (rank_le w) (remove_dups l).

(** ** class Options *)

Module Options.

(** An instance made by [__init__].  [overrides] holds the parsed
    overrides; without any it is Python's empty list, here the empty
    mapping (only membership is ever asked of it). *)
Record t := {
  filename : string;
  _parser : parser;
  overrides : Dict.t (Dict.t value);
  _psections : Dict.t (Dict.t value);
}.

(** the two unpackings of [parse_overrides]:
    [section, keyvalue = opt.split('.', 1)] and
    [key, value = keyvalue.split(':')] *)
Definition split_override (opt : string) : outcome (string * string * string) :=
  match Str.split1 "." opt with
  | [section; keyvalue] =>
      match Str.split ":" keyvalue with
      | [key; value] => Return (section, key, value)
      | _ => Raise ValueError
      end
  | _ => Raise ValueError
  end.

(** [overrides[section][key] = value] on a [defaultdict(dict)] *)
Definition set2 (overrides : Dict.t (Dict.t value)) (section key : string) (v : value)
  : Dict.t (Dict.t value) :=
  Dict.set overrides section (Dict.set (default [] (Dict.get overrides section)) key v).

Fixpoint parse_overrides_into (w : World) (overrides : Dict.t (Dict.t value))
    (override_list : list string) : outcome (Dict.t (Dict.t value)) :=
  match override_list with
  | [] => Return overrides
  | opt :: rest =>
      '(section, key, text) ← split_override opt;
      tok ← resolve_token w text;
      v ← _parse_value w tok;
      parse_overrides_into w (set2 overrides section key v) rest
  end.

(** [Options.parse_overrides(override_list)] *)
Definition parse_overrides (w : World) (override_list : list string)
  : outcome (Dict.t (Dict.t value)) :=
  parse_overrides_into w [] override_list.

(** *** [__getitem__] *)

(** what a lookup hands back: a stored section, or the sections below a
    parent name *)
Inductive found :=
| Section (opts : Dict.t value)
| Children (subs : Dict.t (Dict.t value)).

(** [{k.split('.')[-1]: v for k, v in psections.items()
      if k.startswith('{}.'.format(key))}] *)
Definition children (psections : Dict.t (Dict.t value)) (key : string)
  : Dict.t (Dict.t value) :=
  Dict.of_items
    (map (fun kv => (Str.last_or "" (Str.split "." (fst kv)), snd kv))
         (filter (fun kv => Str.startswith (fst kv) (key ++ ".")) psections)).

Definition getitem (psections : Dict.t (Dict.t value)) (key : string) : found :=
  match Dict.get psections key with
  | Some opts => Section opts
  | None => Children (children psections key)      (* A parent section may be requested *)
  end.

(** [self[key]], also [self.key] for a name that is not an attribute *)
Definition __getitem__ (self : t) (key : string) : found :=
  getitem (_psections self) key.

(** [list(x.keys())] *)
Definition found_keys (x : found) : list string :=
  match x with
  | Section opts => Dict.keys opts
  | Children subs => Dict.keys subs
  end.

(** *** [__init__] *)

Fixpoint remove_first (x : string) (l : list string) : list string :=
  match l with
  | [] => []
  | y :: r => if String.eqb y x then r else y :: remove_first x r
  end.

(** the loop over the two required sections *)
Fixpoint require_sections (required avail : list string) : outcome (list string) :=
  match required with
  | [] => Return avail
  | section :: rest =>
      _ ← assert (bool_decide (section ∈ avail));
      require_sections rest (remove_first section avail)
  end.

(** [max(l)] of a list of numbers *)
Definition py_max (l : list nat) : outcome nat :=
  match l with
  | [] => Raise ValueError
  | x :: r => Return (fold_left Nat.max r x)
  end.

(** Verify section names: "train" and "model" *)
Definition check_sections (names : list string) : outcome unit :=
  avail ← require_sections ["train"; "model"] names;
  _ ← assert (forallb (fun s => Str.startswith s "tasks.") avail);
  max_nest_level ← py_max (map (Str.count ".") names);
  assert (Nat.ltb max_nest_level 2).

(** the options of one section: coerced and path-resolved values, then
    the overrides of that section *)
Definition section_opts (w : World) (p : parser) (ovs : Dict.t (Dict.t value))
    (section : string) : outcome (Dict.t value) :=
  its ← ConfigParser.items w p section;
  vals ← traverse (fun kv =>
                 v ← _parse_value w (Text (snd kv));
                 v' ← resolve_path w v;
                 Return (fst kv, v')) its;
  let opts := Dict.of_items vals in
  Return match Dict.get ovs section with
         | Some ov => Dict.update opts ov
         | None => opts
         end.

(** [__init__] up to the parsed overrides: the parser after the defaults
    and the file, and the overrides *)
Definition read_config (w : World) (fname : string) (override_list : option (list string))
  : outcome (parser * Dict.t (Dict.t value)) :=
  text ← read_text w fname;
  let data := expand_env_vars w (Str.strip text) in
  (* Read the defaults first *)
  p0 ← ConfigParser.read_dict ConfigParser.empty [("train", TRAIN_DEFAULTS)];
  (* Read the config *)
  p ← ConfigParser.read_string w p0 data;
  ovs ← match override_list with
        | Some l => parse_overrides w l
        | None => Return []
        end;
  Return (p, ovs).

(** Keep the parsed sections separately *)
Definition parsed_sections (w : World) (p : parser) (ovs : Dict.t (Dict.t value))
  : outcome (Dict.t (Dict.t value)) :=
  secs ← traverse (fun section => opts ← section_opts w p ovs section; Return (section, opts))
              (ConfigParser.sections p);
  Return (Dict.of_items secs).

(** [__init__] up to the stored sections *)
Definition construct (w : World) (fname : string) (override_list : option (list string))
  : outcome t :=
  '(p, ovs) ← read_config w fname override_list;
  _ ← check_sections (ConfigParser.sections p);
  ps ← parsed_sections w p ovs;
  Return {| filename := fname; _parser := p; overrides := ovs; _psections := ps |}.

Definition diagnostic (w : World) (fname key : string) : string :=
  let msg := fname ++ ":train: Unknown option '" ++ key ++ "'." in
  match Difflib.get_close_matches w key (Dict.keys TRAIN_DEFAULTS) with
  | m :: _ => msg ++ "  Did you mean '" ++ m ++ "' ?"
  | [] => msg
  end.

(** [set(train_keys).difference(set(TRAIN_DEFAULTS))], as iterated *)
Definition invalid_keys (w : World) (self : t) : list string :=
  set_iter w (filter (fun k => negb (Dict.mem TRAIN_DEFAULTS k))
                     (found_keys (__getitem__ self "train"))).

(** Sanity check for [train]: the lines printed, and how the check ends *)
Definition sanity_check (w : World) (self : t) : list string * outcome unit :=
  let train_keys := found_keys (__getitem__ self "train") in
  if negb (Nat.eqb (length train_keys) (length (remove_dups train_keys)))
  then ([], Raise AssertionError)
  else
    let invalid := invalid_keys w self in
    (map (diagnostic w (filename self)) invalid,
     match invalid with
     | [] => Return tt
     | _ => Exit 1
     end).

(** [Options(filename, overrides)]: what is printed, and the result *)
Definition __init__ (w : World) (fname : string) (override_list : option (list string))
  : list string * outcome t :=
  match construct w fname override_list with
  | Return self =>
      let '(out, r) := sanity_check w self in
      (out, _ ← r; Return self)
  | Raise e => ([], Raise e)
  | Exit n => ([], Exit n)
  end.

End Options.

(** ** Serialised configurations in the store

    [from_dict] works on dictionaries that its caller still holds, so they
    live in a store of mutable cells.  An entry of a cell is a reference to
    another cell (a dictionary one level down) or a value; the values of
    options are never updated in place by the module and are kept as plain
    trees.  A dictionary that the module indexes or assigns into (an entry
    of the serialised mapping) is always held by reference. *)

Abbreviation loc := positive (only parsing).

Inductive hval :=
| HRef (l : loc)
| HVal (v : value).

Abbreviation cell := (list (string * hval)) (only parsing).

Definition alloc (σ : gmap loc cell) (c : cell) : loc * gmap loc cell :=
  let l := fresh (dom σ) in (l, <[l := c]> σ).

Module Serial.

(** [copy.deepcopy(opts)] into a new cell *)
Definition copy_section (σ : gmap loc cell) (opts : Dict.t value) : loc * gmap loc cell :=
  alloc σ (map (fun kv => (fst kv, HVal (snd kv))) opts).

Fixpoint copy_sections (σ : gmap loc cell) (dict_ : cell)
    (psections : Dict.t (Dict.t value)) : cell * gmap loc cell :=
  match psections with
  | [] => (dict_, σ)
  | (section, opts) :: rest =>
      let '(l, σ') := copy_section σ opts in
      copy_sections σ' (Dict.set dict_ section (HRef l)) rest
  end.

(** [self.to_dict()] for an instance made by [__init__]: the location of
    the new dictionary *)
Definition to_dict (σ : gmap loc cell) (self : Options.t) : loc * gmap loc cell :=
  let dict_ := [("filename", HVal (VStr (Options.filename self)));
                ("sections", HVal (VList (map VStr (ConfigParser.sections (Options._parser self)))))] in
  let '(dict_, σ') := copy_sections σ dict_ (Options._psections self) in
  alloc σ' dict_.

(** [target[key] = v] where [target] is what a lookup in a cell gave *)
Definition setitem (σ : gmap loc cell) (target : option hval) (key : string) (v : value)
  : gmap loc cell * outcome unit :=
  match target with
  | None => (σ, Raise KeyError)
  | Some (HVal _) => (σ, Raise TypeError)
  | Some (HRef l) =>
      match σ !! l with
      | Some c => (<[l := Dict.set c key (HVal v)]> σ, Return tt)
      | None => (σ, Raise KeyError)
      end
  end.

(** the overrides as the two loops meet them *)
Definition assignments (ovs : Dict.t (Dict.t value)) : list (string * string * value) :=
  flat_map (fun so => map (fun kv => (fst so, fst kv, snd kv)) (snd so)) ovs.

(** [obj.__dict__[section][key] = value] for each override *)
Fixpoint apply_overrides (σ : gmap loc cell) (attrs : cell)
    (todo : list (string * string * value)) : gmap loc cell * outcome unit :=
  match todo with
  | [] => (σ, Return tt)
  | (section, key, v) :: rest =>
      match setitem σ (Dict.get attrs section) key v with
      | (σ', Return _) => apply_overrides σ' attrs rest
      | r => r
      end
  end.

(** [for section in x] *)
Definition iterate (σ : gmap loc cell) (x : hval) : outcome (list value) :=
  match x with
  | HRef l =>
      match σ !! l with
      | Some c => Return (map VStr (Dict.keys c))
      | None => Raise KeyError
      end
  | HVal (VList l) | HVal (VTuple l) | HVal (VSet l) => Return l
  | HVal (VDict kv) => Return (map fst kv)
  | HVal (VStr s) => Return (map (fun c => VStr (String c EmptyString)) (list_ascii_of_string s))
  | HVal _ => Raise TypeError
  end.

(** [attrs[section]] for a [section] that is any value *)
Definition lookup_name (attrs : cell) (section : value) : outcome (string * hval) :=
  match section with
  | VStr s =>
      match Dict.get attrs s with
      | Some x => Return (s, x)
      | None => Raise KeyError
      end
  | VList _ | VSet _ | VDict _ => Raise TypeError
  | _ => Raise KeyError
  end.

(** [Options.from_dict(dict_, override_list)]: the store afterwards, and
    the location of the new instance's [__dict__] *)
Definition from_dict (w : World) (σ : gmap loc cell) (dict_ : loc)
    (override_list : option (list string)) : gmap loc cell * outcome loc :=
  match σ !! dict_ with
  | None => (σ, Raise KeyError)               (* no dictionary there: does not occur *)
  | Some d =>
      (* obj.__dict__.update(dict_) *)
      let attrs := Dict.update [] d in
      (* Test time overrides are possible as well *)
      let '(σ1, r) :=
        match override_list with
        | None => (σ, Return tt)
        | Some l =>
            match Options.parse_overrides w l with
            | Return ovs => apply_overrides σ attrs (assignments ovs)
            | Raise e => (σ, Raise e)
            | Exit n => (σ, Exit n)
            end
        end in
      let made :=
        _ ← r;
        names ← match σ1 !! dict_ ≫= (fun d' => Dict.get d' "sections") with
                | Some x => iterate σ1 x
                | None => Raise KeyError
                end;
        entries ← traverse (lookup_name attrs) names;
        Return (Dict.of_items entries) in
      match made with
      | Return ps =>
          let '(lps, σ2) := alloc σ1 ps in
          let '(lobj, σ3) := alloc σ2 (Dict.set attrs "_psections" (HRef lps)) in
          (σ3, Return lobj)
      | Raise e => (σ1, Raise e)
      | Exit n => (σ1, Exit n)
      end
  end.

(** the options stored in the cell that [x] refers to *)
Definition read_section (σ : gmap loc cell) (x : hval) : option (Dict.t value) :=
  match x with
  | HRef l =>
      c ← σ !! l;
      mapM (fun kv => match snd kv with
                      | HVal v => Some (fst kv, v)
                      | HRef _ => None
                      end) c
  | HVal _ => None
  end.

(** [obj._psections], read out of the store *)
Definition psections_of (σ : gmap loc cell) (obj : loc) : option (Dict.t (Dict.t value)) :=
  attrs ← σ !! obj;
  ps ← Dict.get attrs "_psections";
  match ps with
  | HRef l =>
      c ← σ !! l;
      mapM (fun sx => opts ← read_section σ (snd sx); Some (fst sx, opts)) c
  | HVal _ => None
  end.

End Serial.

(** ** Attributes of an instance made by [from_dict]

    Such an instance has the attributes that [from_dict] gave it, in its
    [__dict__] in the store; for any other name that the class does not
    define, [__getattr__] answers with [self[name]]. *)

Module Instance.

(** what a lookup hands back: an entry of a dictionary of the store, or the
    dictionary that [__getitem__] builds for a parent section *)
Inductive attr :=
| Stored (x : hval)
| Built (d : cell).

(** [self[key]], the sections being the dictionary [psections] *)
Definition __getitem__ (psections : cell) (key : string) : attr :=
  match Dict.get psections key with
  | Some x => Stored x
  | None =>
      (* A parent section may be requested *)
      Built (Dict.of_items
               (map (fun kv => (Str.last_or "" (Str.split "." (fst kv)), snd kv))
                    (filter (fun kv => Str.startswith (fst kv) (key ++ ".")) psections)))
  end.

(** [obj.name] for a [name] that the class does not define.  Without the
    attribute [_psections] the lookup of [self._psections] inside
    [__getitem__] would call [__getattr__] again, without end; both
    constructors set it to a dictionary. *)
Definition getattr (σ : gmap loc cell) (obj : loc) (name : string) : outcome attr :=
  match σ !! obj with
  | None => Raise KeyError                      (* no instance there: does not occur *)
  | Some attrs =>
      match Dict.get attrs name with
      | Some x => Return (Stored x)
      | None =>
          (* __getattr__ *)
          match Dict.get attrs "_psections" with
          | Some (HRef l) =>
              match σ !! l with
              | Some psections => Return (__getitem__ psections name)
              | None => Raise KeyError          (* no dictionary there: does not occur *)
              end
          | Some (HVal _) => Raise TypeError    (* not a dictionary: does not occur *)
          | None => Raise (OtherError "RecursionError")
          end
      end
  end.

(** [x.sections()]: a dictionary and the values that a configuration
    holds have no attribute [sections]; what an object of another class
    answers is [other]'s *)
Definition call_sections (other : string -> outcome value) (x : attr) : outcome value :=
  match x with
  | Stored (HVal (VObject descr)) => other descr
  | _ => Raise AttributeError
  end.

(** the first statement of [to_dict], for an instance in the store:
    [dict_ = {'filename': self.filename, 'sections': self._parser.sections()}] *)
Definition to_dict_head (other : string -> outcome value) (σ : gmap loc cell) (obj : loc)
  : outcome (attr * value) :=
  filename ← getattr σ obj "filename";
  parser ← getattr σ obj "_parser";
  sections ← call_sections other parser;
  Return (filename, sections).

End Instance.

(** * nmtpytorch/datasets/__init__.py: the selector of dataset classes *)

Module Datasets.

(** the classes that the module imports and [get_dataset] can hand out *)
Inductive dataset_class :=
| NumpyDataset | KeyedNPZDataset | NumpySequenceDataset | KaldiDataset
| ImageFolderDataset | TextDataset | LabelDataset | ShelveDataset
| MSVDJSONDataset | MSVDNumpyDataset | VatexJSONDataset
| COCOJSONDataset | COCOJSONLabelDataset.

(** the dictionary that [get_dataset] indexes *)
Definition table : Dict.t dataset_class := [
  ("numpy", NumpyDataset);
  ("keyednpz", KeyedNPZDataset);
  ("numpysequence", NumpySequenceDataset);
  ("kaldi", KaldiDataset);
  ("imagefolder", ImageFolderDataset);
  ("text", TextDataset);
  ("label", LabelDataset);
  ("shelve", ShelveDataset);
  ("msvdjson", MSVDJSONDataset);
  ("msvdnumpy", MSVDNumpyDataset);
  ("vatexjson", VatexJSONDataset);
  ("cocojson", COCOJSONDataset);
  ("cocojsonlabel", COCOJSONLabelDataset)
].

(** [get_dataset(type_)] *)
Definition get_dataset (type_ : string) : outcome dataset_class :=
  match Dict.get table (Str.lower type_) with
  | Some cls => Return cls
  | None => Raise KeyError
  end.

End Datasets.

(** * nmtpytorch/datasets/coco_json.py: captions from a COCO-style file

    What [json.load] returns: [None], a [bool], an [int], a [float], a
    [str], a [list], or a [dict] whose keys are strings ([JObj] holds the
    dictionary as it was built, no key twice). *)

#[warnings="-register-all"]
Inductive json :=
| JNull
| JBool (b : bool)
| JInt (n : Z)
| JFloat (x : spec_float)
| JStr (s : string)
| JArr (l : list json)
| JObj (d : list (string * json)).

Module COCO.

(** What the class obtains from outside itself: the file system, the JSON
    reader, and the vocabulary that it is handed ([Vocabulary] is not part
    of these sources; its [sent_to_idxs] gives a list of word indices). *)
Record Env := {
  (** [Path(fname).exists()] *)
  path_exists : string -> bool;
  (** [json.load(open(Path(fname)))] *)
  json_load : string -> outcome json;
  (** [vocab.sent_to_idxs(caption, bos, eos)] *)
  sent_to_idxs : json -> bool -> bool -> outcome (list Z);
}.

(** [x[key]] for a string [key] *)
Definition subscript (x : json) (key : string) : outcome json :=
  match x with
  | JObj d =>
      match Dict.get d key with
      | Some v => Return v
      | None => Raise KeyError
      end
  | _ => Raise TypeError
  end.

(** [len(x)] *)
Definition len (x : json) : outcome nat :=
  match x with
  | JArr l => Return (length l)
  | JObj d => Return (length d)
  | JStr s => Return (String.length s)
  | _ => Raise TypeError
  end.

(** the elements that [enumerate(x)] goes through *)
Definition elements (x : json) : outcome (list json) :=
  match x with
  | JArr l => Return l
  | JObj d => Return (map JStr (Dict.keys d))
  | JStr s => Return (map (fun c => JStr (String c EmptyString)) (list_ascii_of_string s))
  | _ => Raise TypeError
  end.

(** A key of [next_image_ids], up to the equality of dictionary keys:
    [True == 1 == 1.0], so numbers are kept by their value, a float that is
    no integer as the float itself (floats in canonical form; the one
    [nan] that [json] hands out equals itself as a key). *)
Inductive hkey :=
| KNone
| KNum (n : Z)
| KFloat (x : spec_float)
| KStr (s : string).

Global Instance spec_float_eq_dec : EqDecision spec_float.
Proof. solve_decision. Defined.
Global Instance hkey_eq_dec : EqDecision hkey.
Proof. solve_decision. Defined.

(** the integer that a float is equal to, if any *)
Definition integral (x : spec_float) : option Z :=
  match x with
  | S754_zero _ => Some 0
  | S754_finite s m e =>
      let sign := if s then -1 else 1 in
      if 0 <=? e then Some (sign * (Zpos m * 2 ^ e))
      else if (Zpos m mod 2 ^ (- e)) =? 0 then Some (sign * (Zpos m / 2 ^ (- e)))
      else None
  | _ => None
  end.

(** [str(n)] for an [int] *)
Definition str_int (n : Z) : string := NilZero.string_of_int (Z.to_int n).

(** an image id as a key of [next_image_ids] and as [format] writes it;
    a list or a dictionary is not hashable *)
Definition image_key (image_id : json) : outcome (hkey * string) :=
  match image_id with
  | JNull => Return (KNone, "None")
  | JBool b => Return (KNum (if b then 1 else 0), if b then "True" else "False")
  | JInt n => Return (KNum n, str_int n)
  | JFloat x => Return (match integral x with Some n => KNum n | None => KFloat x end,
                        PyFloat.repr x)
  | JStr s => Return (KStr s, s)
  | JArr _ | JObj _ => Raise TypeError
  end.

(** [next_image_ids[key]] on a [defaultdict(int)] *)
Fixpoint counter (ids : list (hkey * Z)) (key : hkey) : Z :=
  match ids with
  | [] => 0
  | (k, n) :: rest => if decide (k = key) then n else counter rest key
  end.

(** [next_image_ids[key] = n] *)
Fixpoint set_counter (ids : list (hkey * Z)) (key : hkey) (n : Z) : list (hkey * Z) :=
  match ids with
  | [] => [(key, n)]
  | (k, m) :: rest =>
      if decide (k = key) then (k, n) :: rest else (k, m) :: set_counter rest key n
  end.

(** what the loop of [__init__] updates *)
Record state := {
  st_data : Dict.t (list Z);
  st_lengths : list nat;
  st_ids : list (hkey * Z);
}.

(** '{}@@{}'.format(image_id, n) *)
Definition cap_key (id_text : string) (n : Z) : string := id_text ++ "@@" ++ str_int n.

(** the loop over the annotations: Split into words *)
Fixpoint load (env : Env) (bos eos : bool) (annotations : list json) (st : state)
  : outcome state :=
  match annotations with
  | [] => Return st
  | elem :: rest =>
      (* Unpack *)
      image_id ← subscript elem "image_id";
      caption ← subscript elem "caption";
      '(key, id_text) ← image_key image_id;
      let n := counter (st_ids st) key + 1 in
      (* Map to word indices and insert *)
      caption ← sent_to_idxs env caption bos eos;
      load env bos eos rest
        {| st_data := Dict.set (st_data st) (cap_key id_text n) caption;
           (* Store the length *)
           st_lengths := (st_lengths st ++ [length caption])%list;
           st_ids := set_counter (st_ids st) key n |}
  end.

(** [a <= b] on strings *)
Definition str_le (a b : string) : Prop := Str.ltb b a = false.

Global Instance str_le_dec a b : Decision (str_le a b).
Proof. unfold str_le. apply _. Defined.

(** [sorted(l)] for a list of strings *)
Definition sorted (l : list string) : list string := merge_sort str_le l.

(** an instance of [COCOJSONDataset] (the vocabulary is in the [Env]) *)
Record t := {
  path : string;
  bos : bool;
  eos : bool;
  data : Dict.t (list Z);
  lengths : list nat;
  size : nat;
  keys : list string;
}.

(** [COCOJSONDataset(fname, vocab, bos, eos)] *)
Definition __init__ (env : Env) (fname : string) (bos eos : bool) : outcome t :=
  if negb (path_exists env fname) then Raise RuntimeError
  else
    jdata ← json_load env fname;
    annotations ← subscript jdata "annotations";
    _ ← subscript jdata "images";
    (* Number of captions = dataset size *)
    size ← len annotations;
    elems ← elements annotations;
    st ← load env bos eos elems {| st_data := []; st_lengths := []; st_ids := [] |};
    Return {| path := fname; bos := bos; eos := eos;
              data := st_data st; lengths := st_lengths st; size := size;
              keys := sorted (Dict.keys (st_data st)) |}.

(** [l[idx]] for an integer [idx]: a negative index counts from the end *)
Definition index {A} (l : list A) (idx : Z) : outcome A :=
  let i := if idx <? 0 then idx + Z.of_nat (length l) else idx in
  if i <? 0 then Raise (OtherError "IndexError")
  else match l !! Z.to_nat i with
       | Some x => Return x
       | None => Raise (OtherError "IndexError")
       end.

(** [self[idx]] *)
Definition __getitem__ (self : t) (idx : Z) : outcome (list Z) :=
  key ← index (keys self) idx;
  match Dict.get (data self) key with
  | Some caption => Return caption
  | None => Raise KeyError
  end.

(** [len(self)] *)
Definition __len__ (self : t) : nat := size self.

(** [s.split(sep)[0]] for a non-empty [sep]: what comes before the first
    occurrence of [sep] *)
Fixpoint before_first (sep s : string) : string :=
  if String.prefix sep s then EmptyString
  else match s with
       | EmptyString => EmptyString
       | String c r => String c (before_first sep r)
       end.

(** [self.sample_to_dict(idx, cap)]: the dictionary with its two entries
    [image_id] and [caption] *)
Definition sample_to_dict {A} (self : t) (idx : Z) (cap : A) : outcome (string * A) :=
  key ← index (keys self) idx;
  let orig_id := before_first "@@" key in
  Return (orig_id, cap).

End COCO.

(** * [Options.__repr__]

    What [__repr__] needs of Python's formatting.  [str] and [format] are
    described on the values that a configuration usually holds; the rest
    (the text of a container or of an object of another class, and whether
    such an object accepts a format specification) is the [Printer]'s. *)

Module Repr.

Record Printer := {
  (** [str(v)] for a list, a tuple, a set, a dictionary or another object *)
  str_beyond : value -> string;
  (** [format(v, '>22')] for an object of another class *)
  format_beyond : value -> outcome string;
}.

(** [' ' * n] and ['-' * n] *)
Fixpoint repeat_char (c : ascii) (n : nat) : string :=
  match n with
  | O => EmptyString
  | S k => String c (repeat_char c k)
  end.

(** [s.rjust(width)], which is also ['{:>width}'.format(s)] for a [str] *)
Definition rjust (width : nat) (s : string) : string :=
  repeat_char " " (width - String.length s) ++ s.

(** ['{}'.format(v)] *)
Definition str_value (pr : Printer) (v : value) : string :=
  match v with
  | VNone => "None"
  | VBool b => if b then "True" else "False"
  | VInt n => py_str (SInt n)
  | VFloat x => PyFloat.repr x
  | VStr s => s
  | VPath p => p
  | _ => str_beyond pr v
  end.

(** ['{:>22}'.format(v)]: strings and numbers are right-aligned (a [bool]
    is formatted as the integer it is); [None], a path and the containers
    do not accept a format specification *)
Definition format_right (pr : Printer) (width : nat) (v : value) : outcome string :=
  match v with
  | VStr s => Return (rjust width s)
  | VInt n => Return (rjust width (py_str (SInt n)))
  | VBool b => Return (rjust width (if b then "1" else "0"))
  | VFloat x => Return (rjust width (PyFloat.repr x))
  | VObject _ => format_beyond pr v
  | VNone | VPath _ | VList _ | VTuple _ | VSet _ | VDict _ => Raise TypeError
  end.

Definition newline : string := String (ascii_of_nat 10) EmptyString.

Definition concat (l : list string) : string := fold_right String.append EmptyString l.

(** the lines of one option *)
Definition option_lines (pr : Printer) (key : string) (v : value) : outcome string :=
  match v with
  | VList l =>
      lines ← traverse (fun elem => s ← format_right pr 22 elem; Return (s ++ newline)) l;
      Return (rjust 20 key ++ ":" ++ newline ++ concat lines)
  | VDict kv =>
      lines ← traverse (fun e => s ← format_right pr 22 (fst e);
                                 Return (s ++ ":" ++ str_value pr (snd e) ++ newline)) kv;
      Return (rjust 20 key ++ ":" ++ newline ++ concat lines)
  | _ => Return (rjust 20 key ++ ":" ++ str_value pr v ++ newline)
  end.

(** the header of a section and the lines of its options *)
Definition section_block (pr : Printer) (section : string) (opts : Dict.t value)
  : outcome string :=
  lines ← traverse (fun kv => option_lines pr (fst kv) (snd kv)) opts;
  let rule := repeat_char "-" (String.length section + 2) in
  Return (rule ++ newline ++ "[" ++ section ++ "]" ++ newline ++ rule ++ newline
          ++ concat lines).

(** [repr(self)] *)
Definition __repr__ (pr : Printer) (self : Options.t) : outcome string :=
  blocks ← traverse (fun so => section_block pr (fst so) (snd so)) (Options._psections self);
  Return (concat blocks ++ repeat_char "-" 70 ++ newline).

End Repr.

(** ** A world for the examples

    One user with a handful of configuration files and a serialised
    configuration.  The examples stay within the
    described fragments of the library, so what this world answers beyond
    them is never asked. *)

Module Example.

Definition conf : string :=
"[train]
batch_size = 64
lr = 0.001

[model]
enc_dim = 256

[tasks.a]
direction = en
[tasks.b]
direction = de
".

Definition conf_foo : string :=
"[train]
foo=1
[model]".

Definition conf_known : string :=
"[train]
batch_size=1
[model]".

Definition conf_other : string :=
"[train]
foo=1
[model]
[other]".

Definition conf_typo : string :=
"[train]
lr_decya = plateau
[model]".

Definition files : Dict.t string :=
  [("exp.conf", conf); ("foo.conf", conf_foo); ("known.conf", conf_known);
   ("other.conf", conf_other); ("typo.conf", conf_typo)].

Definition world : World := {|
  environ := fun k => if String.eqb k "HOME" then Some "/home/user" else None;
  read_text := fun f => match Dict.get files f with
                        | Some text => Return text
                        | None => Raise OSError
                        end;
  fs_resolve := fun s => if Str.startswith s "~/"
                         then Return ("/home/user/" ++ Str.drop 2 s)
                         else Return s;
  hash_rank := fun s => Z.of_nat (String.length s);
  literal_beyond := fun _ => None;
  eval_beyond := fun _ => Raise SyntaxError;
  ini_beyond := fun _ => Raise (ParserError "ParsingError");
  interpolate_beyond := fun _ _ _ _ => Raise (ParserError "InterpolationError");
  close_matches_beyond := fun _ _ => [];
|}.

(** a serialised configuration in the store: the dictionary at 3 with its
    two section dictionaries at 1 and 2 *)
Definition serialised : gmap positive (list (string * hval)) :=
  <[1%positive := [("batch_size", HVal (VInt 64)); ("seed", HVal (VInt 0))]]>
  (<[2%positive := [("enc_dim", HVal (VInt 256))]]>
  (<[3%positive := [("filename", HVal (VStr "exp.conf"));
                    ("sections", HVal (VList [VStr "train"; VStr "model"]));
                    ("train", HRef 1); ("model", HRef 2)]]> ∅)).

End Example.

(** ** More cases for the examples *)

Module Cases.

Definition conf_twice : string :=
"[train]
seed = 1
Seed = 2
[model]".

Definition conf_default : string :=
"[DEFAULT]
root = data
[train]
[model]".

Definition conf_paths : string :=
"[train]
[model]
feats = ['/data/a', '/data/b']".

Definition files : Dict.t string :=
  [("twice.conf", conf_twice); ("default.conf", conf_default); ("paths.conf", conf_paths)].

(** the world of the examples, with these files *)
Definition world : World := {|
  environ := environ Example.world;
  read_text := fun f => match Dict.get files f with
                        | Some text => Return text
                        | None => Raise OSError
                        end;
  fs_resolve := fs_resolve Example.world;
  hash_rank := hash_rank Example.world;
  literal_beyond := fun s => if String.eqb s "['/data/a', '/data/b']"
                            then Some (VList [VStr "/data/a"; VStr "/data/b"])
                            else None;
  eval_beyond := eval_beyond Example.world;
  ini_beyond := ini_beyond Example.world;
  interpolate_beyond := interpolate_beyond Example.world;
  close_matches_beyond := close_matches_beyond Example.world;
|}.

(** a COCO-style file with three captions of two images *)
Definition captions : json :=
  JObj [("images", JArr []);
        ("annotations",
         JArr [JObj [("image_id", JInt 9); ("id", JInt 1); ("caption", JStr "a cat")];
               JObj [("image_id", JInt 10); ("id", JInt 2); ("caption", JStr "dogs")];
               JObj [("image_id", JInt 9); ("id", JInt 3); ("caption", JStr "cat")]])].

(** one file, and a vocabulary that numbers the characters of a caption,
    with 1 for [<bos>] and 2 for [<eos>] *)
Definition coco_env : COCO.Env := {|
  COCO.path_exists := fun f => String.eqb f "caps.json";
  COCO.json_load := fun f => if String.eqb f "caps.json" then Return captions else Raise OSError;
  COCO.sent_to_idxs := fun caption bos eos =>
    match caption with
    | JStr s =>
        Return ((if bos then [1] else [])
                ++ map (fun c => Z.of_nat (Str.code c)) (list_ascii_of_string s)
                ++ (if eos then [2] else []))%list
    | _ => Raise AttributeError
    end;
|}.

(** a printer for the examples, which print no container and no object *)
Definition printer : Repr.Printer := {|
  Repr.str_beyond := fun _ => "...";
  Repr.format_beyond := fun _ => Raise TypeError;
|}.

End Cases.

(** * The vocabulary of the properties *)

(** [d[section][key]], when both are there *)
Definition get2 {V} (d : Dict.t (Dict.t V)) (section key : string) : option V :=
  Dict.get d section ≫= fun opts => Dict.get opts key.

(** a two-level mapping is a dictionary of dictionaries: no key twice *)
Definition wf2 {V} (d : Dict.t (Dict.t V)) : Prop :=
  NoDup (Dict.keys d) ∧ Forall (fun so => NoDup (Dict.keys (snd so))) d.

(** [coerce_override w text]: the value an override text stands for *)
Definition coerce_override (w : World) (text : string) : outcome value :=
  tok ← resolve_token w text; _parse_value w tok.

(** the parser's store holds dictionaries *)
Definition wf_parser (p : parser) : Prop :=
  NoDup (Dict.keys (defaults p)) ∧ wf2 (psections p).

(** the text gives [section] an option that the parser stores as [key] *)
Definition doc_defines (doc : ini_doc) (section key : string) : Prop :=
  ∃ opts o x, (section, opts) ∈ doc ∧ (o, x) ∈ opts ∧ ConfigParser.optionxform o = key.

(** the parser after [read_dict({'train': TRAIN_DEFAULTS})] *)
Definition defaults_parser : parser :=
  {| defaults := [];
     psections := [("train", map (fun kd => (fst kd, py_str (snd kd))) TRAIN_DEFAULTS)] |}.

(** the section names that the validation lets through *)
Definition good_name (s : string) : Prop :=
  s = "train" ∨ s = "model"
  ∨ (Str.startswith s "tasks." = true ∧ (Str.count "." s ≤ 1)%nat).

(** the sections and options read from the file *)
Definition file_doc (w : World) (fname : string) : outcome ini_doc :=
  text ← read_text w fname;
  ConfigParser.ini_events w (expand_env_vars w (Str.strip text)).

(** the value that the file (or the defaults) gives an option, before the
    overrides: interpolated, coerced, path-resolved *)
Definition file_value (w : World) (p : parser) (section key text : string) : outcome value :=
  text' ← ConfigParser.before_get w p section key text;
  v ← _parse_value w (Text text');
  resolve_path w v.

(** whether the text read from a file gives [section] an option [key] *)
Definition defines (doc : ini_doc) (section key : string) : bool :=
  existsb (fun so =>
             (String.eqb (fst so) section
              && existsb (fun ox => String.eqb (ConfigParser.optionxform (fst ox)) key) (snd so))%bool)
          doc.

(** whether an override list has an entry for [section.key] *)
Definition mentions (l : list string) (section key : string) : bool :=
  existsb (fun e => match Options.split_override e with
                    | Return (s, k, _) => (String.eqb s section && String.eqb k key)%bool
                    | _ => false
                    end) l.

(** the keys of a section that the defaults table does not have *)
Definition unknown_keys (opts : Dict.t value) : list string :=
  filter (fun k => negb (Dict.mem TRAIN_DEFAULTS k)) (Dict.keys opts).

(** [opt] reads [section.key:text]: no dot in the section, no colon in the
    key or in the text *)
Definition well_shaped (opt section key text : string) : Prop :=
  opt = section ++ "." ++ key ++ ":" ++ text
  ∧ Str.count "." section = 0%nat
  ∧ Str.count ":" key = 0%nat
  ∧ Str.count ":" text = 0%nat.

(** [strip_prefix p s]: what follows [p] in [s], when [s] starts with [p] *)
Fixpoint strip_prefix (p s : string) : option string :=
  match p, s with
  | EmptyString, _ => Some s
  | String a p', String b s' => if Ascii.eqb a b then strip_prefix p' s' else None
  | String _ _, EmptyString => None
  end.

(** the sections below [key], under the names they have below it *)
Definition child_sections (ps : Dict.t (Dict.t value)) (key : string) : Dict.t (Dict.t value) :=
  omap (fun so => (fun suffix => (suffix, snd so)) <$> strip_prefix (key ++ ".") (fst so)) ps.

(** a section's options as a cell holds them *)
Definition boxed (opts : Dict.t value) : cell := map (fun kv => (fst kv, HVal (snd kv))) opts.

(** [sx] is the entry that refers to a copy of the section [so] *)
Definition copy_of (σ : gmap loc cell) (so : string * Dict.t value) (sx : string * hval) : Prop :=
  fst sx = fst so ∧ ∃ l, snd sx = HRef l ∧ σ !! l = Some (boxed (snd so)).

(** the cells that the entries of [dc] refer to *)
Definition cell_refs (dc : cell) : list loc :=
  omap (fun kv => match snd kv with HRef l => Some l | HVal _ => None end) dc.

(** the section and key that an assignment writes *)
Definition slot_of (t : string * string * value) : string * string := (t.1.1, t.1.2).

(** one round of [expand_env_vars]: the variable [key] *)
Definition expand_var (w : World) (data key : string) : string :=
  let var := "$" ++ key in
  if Str.contains var data then
    match environ w key with
    | Some val => Str.replace var val data
    | None => data
    end
  else data.

(** the variables that [expand_env_vars] knows, in the order of its loop *)
Definition env_keys : list string := ["HOME"; "USER"; "LOCAL"; "SCRATCH"].

(** every option name in the parser's store is in lower case *)
Definition lower_case_keys (p : parser) : Prop :=
  Forall (fun k => Str.lower k = k) (Dict.keys (defaults p))
  ∧ Forall (fun so => Forall (fun k => Str.lower k = k) (Dict.keys (snd so))) (psections p).

(** the text read from a file repeats nothing: no section header but
    [[DEFAULT]] twice, and in no section the same option name twice *)
Definition repeats_nothing (doc : ini_doc) : Prop :=
  NoDup (filter (fun name => name ≠ ConfigParser.DEFAULTSECT) (map fst doc))
  ∧ ∀ name opts, (name, opts) ∈ doc →
      NoDup (map (fun ox => ConfigParser.optionxform (fst ox)) opts).

(** [elem] is an annotation that the loop of [COCOJSONDataset] accepts: a
    dictionary with a hashable [image_id] and a [caption] that the
    vocabulary encodes as [enc] *)
Definition annotation (env : COCO.Env) (bos eos : bool) (elem : json) (enc : list Z) : Prop :=
  ∃ image_id caption kt,
    COCO.subscript elem "image_id" = Return image_id
    ∧ COCO.subscript elem "caption" = Return caption
    ∧ COCO.image_key image_id = Return kt
    ∧ COCO.sent_to_idxs env caption bos eos = Return enc.

(** ... and whose [image_id] is the integer [ie.1], [ie.2] being the
    encoded caption *)
Definition int_annotation (env : COCO.Env) (bos eos : bool) (elem : json) (ie : Z * list Z)
  : Prop :=
  ∃ d caption,
    elem = JObj d
    ∧ Dict.get d "image_id" = Some (JInt ie.1)
    ∧ Dict.get d "caption" = Some caption
    ∧ COCO.sent_to_idxs env caption bos eos = Return ie.2.

(** how many of [ids] are [i] *)
Definition occurrences (i : Z) (ids : list Z) : Z :=
  Z.of_nat (length (filter (fun j => j = i) ids)).

(** the captions of a file under the keys [id@@k], [k] counting the
    captions of the image [id] from 1 in the order of the file; [seen] are
    the ids met before *)
Fixpoint numbered_from (seen : list Z) (anns : list (Z * list Z)) : list (string * list Z) :=
  match anns with
  | [] => []
  | (i, enc) :: rest =>
      (COCO.cap_key (COCO.str_int i) (occurrences i seen + 1), enc)
      :: numbered_from (seen ++ [i]) rest
  end.

Definition numbered (anns : list (Z * list Z)) : list (string * list Z) :=
  numbered_from [] anns.

(** the annotations that the constructor goes through *)
Definition annotations_of (env : COCO.Env) (fname : string) : outcome (list json) :=
  jdata ← COCO.json_load env fname;
  annotations ← COCO.subscript jdata "annotations";
  COCO.elements annotations.

(** the values that accept the format specification [>22] *)
Definition formattable (v : value) : bool :=
  match v with
  | VStr _ | VInt _ | VFloat _ | VBool _ => true
  | _ => false
  end.

Definition is_object (v : value) : bool :=
  match v with VObject _ => true | _ => false end.

(** the values that [__repr__] aligns in an option: the elements of a
    list, the keys of a dictionary *)
Definition aligned (v : value) : list value :=
  match v with
  | VList l => l
  | VDict kv => map fst kv
  | _ => []
  end.

(** all values that [__repr__] aligns in a configuration *)
Definition aligned_values (ps : Dict.t (Dict.t value)) : list value :=
  flat_map (fun so => flat_map (fun kv => aligned (snd kv)) (snd so)) ps.

(** * Properties *)

(** ** Dictionaries *)

Section DictFacts.
Context {V : Type}.
Implicit Types (d e : Dict.t V) (k : string) (v : V).

Lemma dict_get_set_eq d k v : Dict.get (Dict.set d k v) k = Some v.
Proof.
  induction d as [|[k' v'] d IH]; simpl.
  - by rewrite String.eqb_refl.
  - destruct (String.eqb_spec k' k) as [->|Hne]; simpl.
    + by rewrite String.eqb_refl.
    + by destruct (String.eqb_spec k' k).
Qed.

Lemma dict_get_set_ne d k k' v :
  k ≠ k' → Dict.get (Dict.set d k v) k' = Dict.get d k'.
Proof.
  intros Hne. induction d as [|[k0 v0] d IH]; simpl.
  - by destruct (String.eqb_spec k k').
  - destruct (String.eqb_spec k0 k) as [->|Hk]; simpl.
    + by destruct (String.eqb_spec k k').
    + by rewrite IH.
Qed.

Lemma dict_get_None d k : Dict.get d k = None ↔ k ∉ Dict.keys d.
Proof.
  unfold Dict.keys. induction d as [|[k' v'] d IH]; simpl.
  - split; [intros _; apply not_elem_of_nil | done].
  - rewrite not_elem_of_cons, <- IH.
    destruct (String.eqb_spec k' k) as [->|Hne]; [split; [done|intros []; congruence]|].
    split; [by intros Hg | by intros []].
Qed.

Lemma dict_get_Some_keys d k v : Dict.get d k = Some v → k ∈ Dict.keys d.
Proof.
  intros H. destruct (decide (k ∈ Dict.keys d)) as [|Hn]; [done|].
  apply dict_get_None in Hn. congruence.
Qed.

Lemma dict_get_Some_elem d k v : Dict.get d k = Some v → (k, v) ∈ d.
Proof.
  induction d as [|[k' v'] d IH]; simpl; [done|].
  destruct (String.eqb_spec k' k) as [->|Hne].
  - intros [= ->]. left.
  - intros H. right. by apply IH.
Qed.

Lemma dict_elem_get d k v :
  NoDup (Dict.keys d) → (k, v) ∈ d → Dict.get d k = Some v.
Proof.
  unfold Dict.keys. induction d as [|[k' v'] d IH]; simpl.
  - intros _ H. by apply elem_of_nil in H.
  - intros Hnd H. apply NoDup_cons in Hnd as [Hk Hnd].
    apply elem_of_cons in H as [[= <- <-]|H].
    + by rewrite String.eqb_refl.
    + destruct (String.eqb_spec k' k) as [->|Hne]; [|by apply IH].
      exfalso. apply Hk. apply list_elem_of_In, in_map_iff.
      exists (k, v). split; [done|]. by apply list_elem_of_In.
Qed.

Lemma dict_mem_true d k : Dict.mem d k = true ↔ k ∈ Dict.keys d.
Proof.
  unfold Dict.mem. destruct (Dict.get d k) eqn:E.
  - split; [intros _; by eapply dict_get_Some_keys | done].
  - split; [done|]. intros H. by apply dict_get_None in E.
Qed.

Lemma dict_set_fresh d k v : k ∉ Dict.keys d → Dict.set d k v = (d ++ [(k, v)])%list.
Proof.
  unfold Dict.keys. induction d as [|[k' v'] d IH]; simpl; [done|].
  intros H. apply not_elem_of_cons in H as [Hne H].
  destruct (String.eqb_spec k' k) as [->|_]; [done|]. by rewrite IH.
Qed.

Lemma dict_keys_set_in d k v : k ∈ Dict.keys d → Dict.keys (Dict.set d k v) = Dict.keys d.
Proof.
  unfold Dict.keys. induction d as [|[k' v'] d IH]; simpl.
  - intros H. by apply elem_of_nil in H.
  - intros H. destruct (String.eqb_spec k' k) as [->|Hne]; simpl; [done|].
    f_equal. apply IH. apply elem_of_cons in H as [->|H]; done.
Qed.

Lemma dict_keys_set d k v :
  Dict.keys (Dict.set d k v)
  = if Dict.mem d k then Dict.keys d else (Dict.keys d ++ [k])%list.
Proof.
  destruct (Dict.mem d k) eqn:E.
  - apply dict_keys_set_in. by apply dict_mem_true.
  - rewrite dict_set_fresh.
    + unfold Dict.keys. by rewrite map_app.
    + intros H. apply dict_mem_true in H. congruence.
Qed.

Lemma dict_NoDup_set d k v : NoDup (Dict.keys d) → NoDup (Dict.keys (Dict.set d k v)).
Proof.
  intros H. rewrite dict_keys_set. destruct (Dict.mem d k) eqn:E; [done|].
  apply NoDup_app. split_and!; [done| |apply NoDup_singleton].
  intros x Hx Hk. apply list_elem_of_singleton in Hk as ->.
  apply dict_mem_true in Hx. congruence.
Qed.

Lemma dict_NoDup_update d e : NoDup (Dict.keys d) → NoDup (Dict.keys (Dict.update d e)).
Proof.
  unfold Dict.update. revert d. induction e as [|[k v] e IH]; simpl; [done|].
  intros d H. apply IH. by apply dict_NoDup_set.
Qed.

Lemma dict_NoDup_of_items (l : list (string * V)) : NoDup (Dict.keys (Dict.of_items l)).
Proof. apply dict_NoDup_update. constructor. Qed.

Lemma dict_get_update d e k :
  NoDup (Dict.keys e) →
  Dict.get (Dict.update d e) k
  = match Dict.get e k with Some v => Some v | None => Dict.get d k end.
Proof.
  unfold Dict.update, Dict.keys. revert d.
  induction e as [|[k0 v0] e IH]; simpl; [done|].
  intros d Hnd. apply NoDup_cons in Hnd as [Hk Hnd]. rewrite IH by done.
  destruct (String.eqb_spec k0 k) as [->|Hne].
  - apply dict_get_None in Hk. rewrite Hk. apply dict_get_set_eq.
  - by rewrite dict_get_set_ne.
Qed.

Lemma dict_update_fresh d e :
  NoDup (Dict.keys e) → (∀ k, k ∈ Dict.keys e → k ∉ Dict.keys d) →
  Dict.update d e = (d ++ e)%list.
Proof.
  unfold Dict.update, Dict.keys. revert d.
  induction e as [|[k0 v0] e IH]; simpl; intros d Hnd Hfr.
  - by rewrite app_nil_r.
  - apply NoDup_cons in Hnd as [Hk Hnd].
    rewrite dict_set_fresh by (apply Hfr; left).
    rewrite IH; [by rewrite <- app_assoc|done|].
    intros k Hin. rewrite map_app. simpl. intros Hd.
    apply elem_of_app in Hd as [Hd|Hd].
    + by apply (Hfr k); [right|].
    + apply list_elem_of_singleton in Hd as ->. done.
Qed.

Lemma dict_of_items_id (l : list (string * V)) :
  NoDup (Dict.keys l) → Dict.of_items l = l.
Proof.
  intros H. unfold Dict.of_items. rewrite dict_update_fresh; [done..|].
  intros k _. apply not_elem_of_nil.
Qed.

Lemma dict_keys_update_in d e :
  (∀ k, k ∈ Dict.keys e → k ∈ Dict.keys d) →
  Dict.keys (Dict.update d e) = Dict.keys d.
Proof.
  unfold Dict.update. revert d. induction e as [|[k v] e IH]; simpl; [done|].
  intros d H. rewrite IH.
  - apply dict_keys_set_in, H. left.
  - intros k' Hk'. rewrite dict_keys_set_in by (apply H; left).
    apply H. by right.
Qed.

Lemma dict_keys_update_sub d e k :
  k ∈ Dict.keys d → k ∈ Dict.keys (Dict.update d e).
Proof.
  unfold Dict.update. revert d. induction e as [|[k0 v0] e IH]; simpl; [done|].
  intros d H. apply IH. rewrite dict_keys_set.
  destruct (Dict.mem d k0); [done|]. apply elem_of_app. by left.
Qed.

End DictFacts.

(** ** Results *)

Lemma bind_Return {A B} (m : outcome A) (f : A → outcome B) (b : B) :
  m ≫= f = Return b ↔ ∃ a, m = Return a ∧ f a = Return b.
Proof.
  destruct m as [a|e|n]; simpl; split; try (intros [a' [? ?]]); eauto; try done.
  by simplify_eq.
Qed.

Ltac bind_inv H :=
  let a := fresh "a" in
  let Ha := fresh "H" a in
  apply bind_Return in H as (a & Ha & H).

Lemma traverse_Return {A B} (f : A → outcome B) l l' :
  traverse f l = Return l' → Forall2 (fun x y => f x = Return y) l l'.
Proof.
  revert l'. induction l as [|x l IH]; simpl; intros l' H.
  - injection H as <-. constructor.
  - bind_inv H. bind_inv H. injection H as <-. constructor; auto.
Qed.

Lemma traverse_Forall2 {A B} (f : A → outcome B) l l' :
  Forall2 (fun x y => f x = Return y) l l' → traverse f l = Return l'.
Proof. induction 1 as [|x y l l' H _ IH]; simpl; [done|]. by rewrite H, IH. Qed.

Lemma traverse_keys {A B} (f : string * A → outcome (string * B)) l l' :
  (∀ x y, f x = Return y → y.1 = x.1) →
  traverse f l = Return l' → Dict.keys l' = Dict.keys l.
Proof.
  intros Hf H. apply traverse_Return in H. unfold Dict.keys.
  induction H as [|x y l l' Hxy _ IH]; simpl; [done|].
  f_equal; [by eapply Hf | done].
Qed.

(** ** Overrides *)

Lemma get2_set2_eq ovs s k v : get2 (Options.set2 ovs s k v) s k = Some v.
Proof.
  unfold get2, Options.set2. rewrite dict_get_set_eq. simpl.
  apply dict_get_set_eq.
Qed.

Lemma get2_set2_ne ovs s k v s' k' :
  (s, k) ≠ (s', k') → get2 (Options.set2 ovs s k v) s' k' = get2 ovs s' k'.
Proof.
  intros Hne. unfold get2, Options.set2.
  destruct (decide (s = s')) as [<-|Hs].
  - rewrite dict_get_set_eq. simpl.
    assert (k ≠ k') by congruence. rewrite dict_get_set_ne by done.
    by destruct (Dict.get ovs s).
  - by rewrite dict_get_set_ne.
Qed.

Lemma dict_Forall_set {V} (P : V → Prop) (d : Dict.t V) k v :
  Forall (fun kv => P (snd kv)) d → P v → Forall (fun kv => P (snd kv)) (Dict.set d k v).
Proof.
  intros Hd Hv. induction Hd as [|[k' v'] d Hx Hd IH]; simpl.
  - by repeat constructor.
  - destruct (String.eqb k' k); constructor; auto.
Qed.

Lemma dict_Forall_get {V} (P : V → Prop) (d : Dict.t V) k v :
  Forall (fun kv => P (snd kv)) d → Dict.get d k = Some v → P v.
Proof.
  intros Hd Hg. apply dict_get_Some_elem in Hg.
  rewrite Forall_forall in Hd. by apply (Hd (k, v)).
Qed.

Lemma wf2_set2 ovs s k (v : value) : wf2 ovs → wf2 (Options.set2 ovs s k v).
Proof.
  intros [Hk Hv]. split.
  - by apply dict_NoDup_set.
  - apply (dict_Forall_set (fun o => NoDup (Dict.keys o))); [done|].
    apply dict_NoDup_set. destruct (Dict.get ovs s) eqn:E; simpl.
    + by eapply (dict_Forall_get (fun o => NoDup (Dict.keys o))).
    + constructor.
Qed.

Lemma parse_overrides_into_wf w acc l ovs :
  Options.parse_overrides_into w acc l = Return ovs → wf2 acc → wf2 ovs.
Proof.
  revert acc. induction l as [|e l IH]; simpl; intros acc H Hwf.
  - by injection H as <-.
  - bind_inv H. destruct a as [[s k] text]. bind_inv H. bind_inv H.
    eapply IH; [done|]. by apply wf2_set2.
Qed.

Lemma parse_overrides_wf w l ovs : Options.parse_overrides w l = Return ovs → wf2 ovs.
Proof.
  intros H. eapply parse_overrides_into_wf; [done|]. split; constructor.
Qed.

(** an entry that does not split into [(s, k, _)] leaves that slot alone *)
Lemma parse_overrides_into_other w acc l ovs s k :
  Options.parse_overrides_into w acc l = Return ovs →
  (∀ e text, e ∈ l → Options.split_override e ≠ Return (s, k, text)) →
  get2 ovs s k = get2 acc s k.
Proof.
  revert acc. induction l as [|e l IH]; simpl; intros acc H Hno.
  - by injection H as <-.
  - bind_inv H. destruct a as [[s' k'] text]. bind_inv H. bind_inv H.
    rewrite (IH _ H) by (intros; apply Hno; by right).
    apply get2_set2_ne. intros [= -> ->]. by eapply Hno; [left|].
Qed.

(** the last entry for a slot decides it *)
Lemma parse_overrides_into_last w acc before e after ovs s k text :
  Options.parse_overrides_into w acc (before ++ e :: after) = Return ovs →
  Options.split_override e = Return (s, k, text) →
  (∀ e' text', e' ∈ after → Options.split_override e' ≠ Return (s, k, text')) →
  ∃ v, coerce_override w text = Return v ∧ get2 ovs s k = Some v.
Proof.
  revert acc. induction before as [|b before IH]; simpl; intros acc H He Hno.
  - rewrite He in H. simpl in H. bind_inv H. bind_inv H.
    exists a0. split.
    + unfold coerce_override. by rewrite Ha.
    + rewrite (parse_overrides_into_other _ _ _ _ _ _ H Hno). apply get2_set2_eq.
  - bind_inv H. destruct a as [[s' k'] text']. bind_inv H. bind_inv H. eauto.
Qed.

(** ** The parser's store *)

Lemma set_option_psections p s k x :
  s ≠ ConfigParser.DEFAULTSECT →
  psections (ConfigParser.set_option p s k x)
  = Dict.set (psections p) s (Dict.set (default [] (Dict.get (psections p) s)) k x).
Proof.
  intros Hs. unfold ConfigParser.set_option.
  by destruct (String.eqb_spec s ConfigParser.DEFAULTSECT).
Qed.

Lemma set_option_default_psections p k x :
  psections (ConfigParser.set_option p ConfigParser.DEFAULTSECT k x) = psections p.
Proof. done. Qed.

Lemma wf2_set_text (d : Dict.t (Dict.t string)) s k x :
  wf2 d → wf2 (Dict.set d s (Dict.set (default [] (Dict.get d s)) k x)).
Proof.
  intros [Hk Hv]. split.
  - by apply dict_NoDup_set.
  - apply (dict_Forall_set (fun o => NoDup (Dict.keys o))); [done|].
    apply dict_NoDup_set. destruct (Dict.get d s) eqn:E; simpl.
    + by eapply (dict_Forall_get (fun o => NoDup (Dict.keys o))).
    + constructor.
Qed.

Lemma set_option_wf p s k x : wf_parser p → wf_parser (ConfigParser.set_option p s k x).
Proof.
  intros [Hd Hs]. unfold ConfigParser.set_option.
  destruct (String.eqb s ConfigParser.DEFAULTSECT); split; simpl; try done.
  - by apply dict_NoDup_set.
  - by apply wf2_set_text.
Qed.

Lemma add_section_wf p s : wf_parser p → wf_parser (ConfigParser.add_section_if_new p s).
Proof.
  intros [Hd [Hk Hv]]. unfold ConfigParser.add_section_if_new.
  destruct (_ || _)%bool; [done|]. split; [done|]. split; simpl.
  - by apply dict_NoDup_set.
  - apply (dict_Forall_set (fun o => NoDup (Dict.keys o))); [done|constructor].
Qed.

Lemma set_option_sections p s k x s' :
  s' ∈ ConfigParser.sections p → s' ∈ ConfigParser.sections (ConfigParser.set_option p s k x).
Proof.
  unfold ConfigParser.sections, ConfigParser.set_option.
  destruct (String.eqb s ConfigParser.DEFAULTSECT); simpl; [done|].
  intros H. rewrite dict_keys_set. destruct (Dict.mem _ s); [done|].
  apply elem_of_app. by left.
Qed.

Lemma add_section_sections p s s' :
  s' ∈ ConfigParser.sections p → s' ∈ ConfigParser.sections (ConfigParser.add_section_if_new p s).
Proof.
  unfold ConfigParser.sections, ConfigParser.add_section_if_new.
  destruct (_ || _)%bool; simpl; [done|].
  intros H. rewrite dict_keys_set. destruct (Dict.mem _ s); [done|].
  apply elem_of_app. by left.
Qed.

Lemma add_section_get2 p s s' k :
  get2 (psections (ConfigParser.add_section_if_new p s)) s' k = get2 (psections p) s' k.
Proof.
  unfold ConfigParser.add_section_if_new.
  destruct (String.eqb s ConfigParser.DEFAULTSECT); simpl; [done|].
  destruct (Dict.mem (psections p) s) eqn:E; simpl; [done|].
  unfold get2. destruct (decide (s = s')) as [<-|Hne].
  - rewrite dict_get_set_eq. unfold Dict.mem in E.
    by destruct (Dict.get (psections p) s).
  - by rewrite dict_get_set_ne.
Qed.

Lemma set_option_get2_ne p s k x s' k' :
  (s, k) ≠ (s', k') →
  get2 (psections (ConfigParser.set_option p s k x)) s' k' = get2 (psections p) s' k'.
Proof.
  intros Hne. unfold ConfigParser.set_option.
  destruct (String.eqb s ConfigParser.DEFAULTSECT); simpl; [done|].
  unfold get2. destruct (decide (s = s')) as [<-|Hs].
  - rewrite dict_get_set_eq. simpl.
    assert (k ≠ k') by congruence. rewrite dict_get_set_ne by done.
    by destruct (Dict.get (psections p) s).
  - by rewrite dict_get_set_ne.
Qed.

Lemma set_option_get2_eq p s k x :
  s ≠ ConfigParser.DEFAULTSECT →
  get2 (psections (ConfigParser.set_option p s k x)) s k = Some x.
Proof.
  intros Hs. rewrite set_option_psections by done.
  unfold get2. rewrite dict_get_set_eq. simpl. apply dict_get_set_eq.
Qed.

(** what [read_options] guarantees: the store stays well formed, sections
    are kept, and a slot is changed only by an option of that name *)
Lemma read_options_spec p s seen opts p' seen' :
  ConfigParser.read_options p s seen opts = Return (p', seen') →
  (wf_parser p → wf_parser p')
  ∧ (∀ s', s' ∈ ConfigParser.sections p → s' ∈ ConfigParser.sections p')
  ∧ (∀ s' k', (s' ≠ s ∨ ∀ o x, (o, x) ∈ opts → ConfigParser.optionxform o ≠ k') →
       get2 (psections p') s' k' = get2 (psections p) s' k').
Proof.
  revert p seen. induction opts as [|[o x] opts IH]; simpl; intros p seen H.
  - injection H as <- <-. done.
  - case_bool_decide; [done|]. apply IH in H as (Hwf & Hsec & Hget).
    split_and!.
    + intros Hp. by apply Hwf, set_option_wf.
    + intros s' Hs'. by apply Hsec, set_option_sections.
    + intros s' k' Hc. rewrite Hget.
      * apply set_option_get2_ne. intros [= Hs Hk].
        destruct Hc as [Hc|Hc]; [done|]. by eapply (Hc o x); [left|].
      * destruct Hc as [Hc|Hc]; [by left|right]. intros o' x' Hin. apply (Hc o' x'). by right.
Qed.

Lemma read_events_spec p added seen doc p' :
  ConfigParser.read_events p added seen doc = Return p' →
  (wf_parser p → wf_parser p')
  ∧ (∀ s', s' ∈ ConfigParser.sections p → s' ∈ ConfigParser.sections p')
  ∧ (∀ s' k', ¬ doc_defines doc s' k' →
       get2 (psections p') s' k' = get2 (psections p) s' k').
Proof.
  revert p added seen. induction doc as [|[name opts] doc IH]; simpl; intros p added seen H.
  - injection H as <-. done.
  - assert (Hsub : ∀ s' k', ¬ doc_defines ((name, opts) :: doc) s' k' →
              ¬ doc_defines doc s' k'
              ∧ (s' ≠ name ∨ ∀ o x, (o, x) ∈ opts → ConfigParser.optionxform o ≠ k')).
    { intros s' k' Hno. split.
      - intros (opts' & o & x & Hin & Ho & Hk). apply Hno.
        exists opts', o, x. split_and!; [by right|done..].
      - destruct (decide (s' = name)) as [->|]; [right|by left].
        intros o x Ho Hk. apply Hno. exists opts, o, x. split_and!; [left|done..]. }
    destruct (String.eqb name ConfigParser.DEFAULTSECT).
    + bind_inv H. destruct a as [p1 seen1].
      apply read_options_spec in Ha as (Hwf1 & Hsec1 & Hget1).
      apply IH in H as (Hwf & Hsec & Hget). split_and!; [auto..|].
      intros s' k' Hno. apply Hsub in Hno as [Hd Ho].
      rewrite Hget by done. by apply Hget1.
    + case_bool_decide; [done|]. bind_inv H. destruct a as [p1 seen1].
      apply read_options_spec in Ha as (Hwf1 & Hsec1 & Hget1).
      apply IH in H as (Hwf & Hsec & Hget). split_and!.
      * intros Hp. by apply Hwf, Hwf1, add_section_wf.
      * intros s' Hs'. by apply Hsec, Hsec1, add_section_sections.
      * intros s' k' Hno. apply Hsub in Hno as [Hd Ho].
        rewrite Hget by done. rewrite Hget1 by done. apply add_section_get2.
Qed.

Lemma read_dict_defaults :
  ConfigParser.read_dict ConfigParser.empty [("train", TRAIN_DEFAULTS)] = Return defaults_parser.
Proof. vm_compute. reflexivity. Qed.

Lemma defaults_parser_wf : wf_parser defaults_parser.
Proof.
  split; [constructor|]. split.
  - apply NoDup_singleton.
  - constructor; [|constructor]. simpl. apply (bool_decide_unpack _). vm_compute. exact I.
Qed.

(** ** Section names *)

Lemma remove_first_elem x y (l : list string) :
  NoDup l → x ∈ Options.remove_first y l ↔ x ∈ l ∧ x ≠ y.
Proof.
  induction l as [|z l IH]; simpl; intros Hnd.
  - split; [intros H; by apply elem_of_nil in H | intros [H _]; by apply elem_of_nil in H].
  - apply NoDup_cons in Hnd as [Hz Hnd].
    destruct (String.eqb_spec z y) as [->|Hne].
    + rewrite elem_of_cons. split; [|naive_solver].
      intros H. split; [by right|]. by intros ->.
    + rewrite !elem_of_cons, IH by done. naive_solver.
Qed.

Lemma fold_max_lt (r : list nat) (x n : nat) :
  (fold_left Nat.max r x < n)%nat ↔ (x < n)%nat ∧ Forall (fun y => (y < n)%nat) r.
Proof.
  revert x. induction r as [|y r IH]; simpl; intros x.
  - split; [by intros ?; split | by intros []].
  - rewrite IH, Forall_cons.
    split; [intros [? ?]|intros [? [? ?]]]; split_and!; try done; lia.
Qed.

Lemma check_sections_spec (names : list string) :
  NoDup names →
  Options.check_sections names = Return tt
  ↔ "train" ∈ names ∧ "model" ∈ names ∧ ∀ s, s ∈ names → good_name s.
Proof.
  intros Hnd. unfold Options.check_sections. simpl.
  destruct (decide ("train" ∈ names)) as [Ht|Ht].
  2:{ rewrite (bool_decide_eq_false_2 _ Ht). simpl. split; [done|]. by intros [? _]. }
  rewrite (bool_decide_eq_true_2 _ Ht). simpl.
  case_bool_decide as Hm; simpl.
  2:{ split; [done|]. intros (_ & Hmod & _). exfalso. apply Hm.
      apply remove_first_elem; done. }
  set (avail := Options.remove_first "model" (Options.remove_first "train" names)).
  assert (Hav : ∀ s, s ∈ avail ↔ s ∈ names ∧ s ≠ "train" ∧ s ≠ "model").
  { intros s. unfold avail. rewrite remove_first_elem.
    - rewrite remove_first_elem by done. naive_solver.
    - clear -Hnd. induction Hnd as [|z l Hz Hnd IH]; simpl; [constructor|].
      destruct (String.eqb z "train"); [done|]. constructor; [|done].
      intros Hin. apply Hz. revert Hin. clear.
      induction l as [|y l IH]; simpl; [done|].
      destruct (String.eqb y "train"); [by right|].
      rewrite !elem_of_cons. naive_solver. }
  destruct (forallb _ avail) eqn:Hall; simpl.
  - rewrite forallb_forall in Hall.
    destruct names as [|n0 names]; [by apply elem_of_nil in Ht|].
    simpl. unfold assert. destruct (Nat.ltb_spec (fold_left Nat.max (map (Str.count ".") names) (Str.count "." n0)) 2) as [Hlt|Hge].
    + split; [intros _|done]. split_and!; [done| |].
      { apply remove_first_elem in Hm; [by destruct Hm|done]. }
      apply fold_max_lt in Hlt as [H0 Hr].
      assert (Hcnt : ∀ s, s ∈ n0 :: names → (Str.count "." s < 2)%nat).
      { intros s Hs. apply elem_of_cons in Hs as [->|Hs]; [done|].
        rewrite Forall_forall in Hr. apply Hr.
        apply list_elem_of_In, in_map_iff. exists s. split; [done|].
        by apply list_elem_of_In. }
      intros s Hs. destruct (decide (s = "train")); [by left|].
      destruct (decide (s = "model")); [by right; left|]. right; right.
      split; [|specialize (Hcnt s Hs); lia].
      apply (Hall s), list_elem_of_In, Hav. done.
    + split; [done|]. intros (_ & _ & Hgood). exfalso.
      assert (fold_left Nat.max (map (Str.count ".") names) (Str.count "." n0) < 2)%nat; [|lia].
      apply fold_max_lt. split.
      * destruct (Hgood n0) as [->|[->|[_ ?]]]; [left|simpl; lia|simpl; lia|lia].
      * apply Forall_forall. intros c Hc.
        apply list_elem_of_In, in_map_iff in Hc as (s & <- & Hs).
        apply list_elem_of_In in Hs.
        destruct (Hgood s) as [->|[->|[_ ?]]]; [by right|simpl; lia|simpl; lia|lia].
  - split; [done|]. intros (_ & _ & Hgood). exfalso.
    apply not_true_iff_false in Hall. apply Hall.
    apply forallb_forall. intros s Hs. apply list_elem_of_In, Hav in Hs as (Hs & H1 & H2).
    destruct (Hgood s Hs) as [?|[?|[? _]]]; done.
Qed.

Lemma check_sections_fail (names : list string) :
  "train" ∈ names →
  Options.check_sections names ≠ Return tt →
  Options.check_sections names = Raise AssertionError.
Proof.
  intros Ht. unfold Options.check_sections. simpl.
  rewrite (bool_decide_eq_true_2 _ Ht). simpl.
  case_bool_decide; simpl; [|done].
  destruct (forallb _ _); simpl; [|done].
  destruct names as [|n0 names]; [by apply elem_of_nil in Ht|]. simpl.
  unfold assert. destruct (Nat.ltb _ 2); [|done]. by destruct 1.
Qed.

(** ** From the file to the stored sections *)

Lemma read_config_inv w fname ovl p ovs :
  Options.read_config w fname ovl = Return (p, ovs) →
  ∃ doc, file_doc w fname = Return doc
    ∧ ConfigParser.read_events defaults_parser [] [] doc = Return p
    ∧ match ovl with
      | Some l => Options.parse_overrides w l = Return ovs
      | None => ovs = []
      end.
Proof.
  unfold Options.read_config, file_doc. intros H.
  bind_inv H. rewrite read_dict_defaults in H. simpl in H.
  unfold ConfigParser.read_string in H. bind_inv H. bind_inv Ha0.
  rewrite Ha. simpl. exists a1. bind_inv H. injection H as <- <-.
  split; [done|]. split; [done|]. by destruct ovl; [|injection Ha2 as <-].
Qed.

Lemma read_config_facts w fname ovl p ovs :
  Options.read_config w fname ovl = Return (p, ovs) →
  wf_parser p ∧ wf2 ovs ∧ "train" ∈ ConfigParser.sections p.
Proof.
  intros H. apply read_config_inv in H as (doc & _ & Hev & Hov).
  apply read_events_spec in Hev as (Hwf & Hsec & _). split_and!.
  - apply Hwf, defaults_parser_wf.
  - destruct ovl; [by eapply parse_overrides_wf|subst; split; constructor].
  - apply Hsec. left.
Qed.

Lemma traverse_dict_get {A B} (f : string * A → outcome (string * B)) l l' k x :
  (∀ e y, f e = Return y → y.1 = e.1) →
  traverse f l = Return l' → Dict.get l k = Some x →
  ∃ y, f (k, x) = Return (k, y) ∧ Dict.get l' k = Some y.
Proof.
  intros Hf H. apply traverse_Return in H.
  induction H as [|[k0 x0] [k1 y1] l l' Hxy _ IH]; simpl; [done|].
  pose proof (Hf _ _ Hxy) as Hk. simpl in Hk. subst k1.
  destruct (String.eqb_spec k0 k) as [->|Hne]; [|done].
  intros [= ->]. eauto.
Qed.

Lemma parsed_sections_spec w p ovs ps :
  Options.parsed_sections w p ovs = Return ps → wf_parser p →
  Dict.keys ps = ConfigParser.sections p
  ∧ ∀ s, s ∈ ConfigParser.sections p →
      ∃ opts, Options.section_opts w p ovs s = Return opts ∧ Dict.get ps s = Some opts.
Proof.
  unfold Options.parsed_sections. intros H (_ & Hnd & _).
  bind_inv H. injection H as <-. apply traverse_Return in Ha.
  assert (Hkeys : Dict.keys a = ConfigParser.sections p).
  { unfold Dict.keys. induction Ha as [|s y l l' Hy _ IH]; simpl; [done|].
    bind_inv Hy. injection Hy as <-. simpl. by f_equal. }
  fold (ConfigParser.sections p) in Hnd.
  rewrite dict_of_items_id by (by rewrite Hkeys). split; [done|].
  intros s Hs. rewrite <- Hkeys in Hnd. clear Hkeys.
  induction Ha as [|s0 y l l' Hy _ IH]; [by apply elem_of_nil in Hs|].
  bind_inv Hy. injection Hy as <-. simpl in *.
  apply NoDup_cons in Hnd as [Hfresh Hnd].
  destruct (String.eqb_spec s0 s) as [->|Hne]; [eauto|].
  apply elem_of_cons in Hs as [->|Hs]; [done|]. by apply IH.
Qed.

Lemma section_opts_spec w p ovs s opts :
  Options.section_opts w p ovs s = Return opts → wf_parser p → wf2 ovs →
  NoDup (Dict.keys opts)
  ∧ (∀ k v, get2 ovs s k = Some v → Dict.get opts k = Some v)
  ∧ (∀ k x, get2 ovs s k = None → get2 (psections p) s k = Some x →
       ∃ v, file_value w p s k x = Return v ∧ Dict.get opts k = Some v).
Proof.
  unfold Options.section_opts, ConfigParser.items. intros H (Hd & Hpk & Hpv) (Hok & Hov).
  bind_inv H. bind_inv H. injection H as <-.
  destruct (Dict.get (psections p) s) as [own|] eqn:Eown; [|done].
  assert (Hown : NoDup (Dict.keys own))
    by (by eapply (dict_Forall_get (fun o => NoDup (Dict.keys o)))).
  assert (Hbase : NoDup (Dict.keys (Dict.of_items a0))) by apply dict_NoDup_of_items.
  assert (Hov' : ∀ ov, Dict.get ovs s = Some ov → NoDup (Dict.keys ov)).
  { intros ov E. by eapply (dict_Forall_get (fun o => NoDup (Dict.keys o))). }
  split_and!.
  - destruct (Dict.get ovs s); [by apply dict_NoDup_update|done].
  - unfold get2. intros k v Hg. destruct (Dict.get ovs s) as [ov|] eqn:E; [|done].
    simpl in Hg. rewrite dict_get_update by auto. by rewrite Hg.
  - unfold get2. rewrite Eown. simpl. intros k x Hno Hx.
    assert (Hits : Dict.get (Dict.update (defaults p) own) k = Some x).
    { rewrite dict_get_update by done. by rewrite Hx. }
    assert (Hf1 : ∀ (e : string * string) y,
               (ConfigParser.before_get w p s e.1 e.2 ≫= λ val, Return (e.1, val)) = Return y
               → y.1 = e.1).
    { intros e y Hy. bind_inv Hy. by injection Hy as <-. }
    assert (Hf2 : ∀ (e : string * string) y,
               (_parse_value w (Text e.2) ≫= λ v, resolve_path w v ≫= λ v', Return (e.1, v'))
               = Return y → y.1 = e.1).
    { intros e y Hy. bind_inv Hy. bind_inv Hy. by injection Hy as <-. }
    destruct (traverse_dict_get _ _ _ _ _ Hf1 Ha Hits) as (text' & Hbg & Hits').
    bind_inv Hbg. injection Hbg as <-. simpl in *.
    assert (Hka : NoDup (Dict.keys a0)).
    { rewrite (traverse_keys _ _ _ Hf2 Ha0), (traverse_keys _ _ _ Hf1 Ha).
      by apply dict_NoDup_update. }
    destruct (traverse_dict_get _ _ _ _ _ Hf2 Ha0 Hits') as (v & Hv & Hvals).
    exists v. split.
    + unfold file_value. rewrite Ha1. simpl. simpl in Hv.
      bind_inv Hv. bind_inv Hv. injection Hv as <-. by rewrite Ha2.
    + rewrite dict_of_items_id by done.
      destruct (Dict.get ovs s) as [ov|] eqn:E; [|done].
      simpl in Hno. rewrite dict_get_update by auto. by rewrite Hno.
Qed.

Lemma construct_inv w fname ovl self :
  Options.construct w fname ovl = Return self →
  ∃ p ovs, Options.read_config w fname ovl = Return (p, ovs)
    ∧ Options.check_sections (ConfigParser.sections p) = Return tt
    ∧ Options.parsed_sections w p ovs = Return (Options._psections self)
    ∧ Options._parser self = p ∧ Options.filename self = fname.
Proof.
  unfold Options.construct. intros H. bind_inv H. destruct a as [p ovs].
  bind_inv H. bind_inv H. injection H as <-. destruct a. by exists p, ovs.
Qed.

Lemma init_Return w fname ovl out self :
  Options.__init__ w fname ovl = (out, Return self) →
  Options.construct w fname ovl = Return self.
Proof.
  unfold Options.__init__. destruct (Options.construct w fname ovl) as [s|e|n]; [|done..].
  destruct (Options.sanity_check w s) as [o r]. intros [= _ H].
  bind_inv H. by injection H as <-.
Qed.

(** what a loaded configuration stores for its sections *)
Lemma loaded_section w fname ovl out self s :
  Options.__init__ w fname ovl = (out, Return self) →
  s ∈ ConfigParser.sections (Options._parser self) →
  ∃ ovs opts,
    match ovl with
    | Some l => Options.parse_overrides w l = Return ovs
    | None => ovs = []
    end
    ∧ wf2 ovs ∧ wf_parser (Options._parser self)
    ∧ Options.section_opts w (Options._parser self) ovs s = Return opts
    ∧ Options.__getitem__ self s = Options.Section opts.
Proof.
  intros H Hs. apply init_Return, construct_inv in H as (p & ovs & Hrc & _ & Hps & <- & _).
  pose proof (read_config_facts _ _ _ _ _ Hrc) as (Hwf & Hovs & _).
  apply read_config_inv in Hrc as (_ & _ & _ & Hov).
  apply parsed_sections_spec in Hps as [_ Hget]; [|done].
  destruct (Hget s Hs) as (opts & Hopts & Hg).
  exists ovs, opts. split_and!; try done.
  unfold Options.__getitem__, Options.getitem. by rewrite Hg.
Qed.

Lemma loaded_has_train w fname ovl out self :
  Options.__init__ w fname ovl = (out, Return self) →
  "train" ∈ ConfigParser.sections (Options._parser self).
Proof.
  intros H. apply init_Return, construct_inv in H as (p & ovs & Hrc & _ & _ & <- & _).
  by apply read_config_facts in Hrc as (_ & _ & ?).
Qed.

(** ** Precedence of overrides, file and defaults *)

(** C1 — When the override list holds an entry for a key of [train] (for
    example "train.batch_size:128") the loaded configuration exposes, for
    that key, the coerced value of the override (of the last such entry):
    the overrides are applied after the defaults and the file's values, so
    it does not matter what the file or the defaults table say about the
    key. *)
Theorem C1_override_wins w fname before e after out self key text :
  Options.__init__ w fname (Some (before ++ e :: after)%list) = (out, Return self) →
  Options.split_override e = Return ("train", key, text) →
  (∀ e' text', e' ∈ after → Options.split_override e' ≠ Return ("train", key, text')) →
  ∃ v opts,
    coerce_override w text = Return v
    ∧ Options.__getitem__ self "train" = Options.Section opts
    ∧ Dict.get opts key = Some v.
Proof.
  intros H He Hlast.
  destruct (loaded_section _ _ _ _ _ "train" H (loaded_has_train _ _ _ _ _ H))
    as (ovs & opts & Hov & Hwf2 & Hwf & Hopts & Hget).
  destruct (parse_overrides_into_last _ _ _ _ _ _ _ _ _ Hov He Hlast) as (v & Hv & Hg2).
  exists v, opts. split_and!; [done..|].
  by apply (section_opts_spec _ _ _ _ _ Hopts Hwf Hwf2).
Qed.

Lemma C1_override_wins_witness :
  ∃ out self opts,
    Options.__init__ Example.world "exp.conf" (Some ["train.batch_size:128"])
    = (out, Return self)
    ∧ Options.__getitem__ self "train" = Options.Section opts
    ∧ Dict.get opts "batch_size" = Some (VInt 128).
Proof.
  eexists _, _.
  assert (Hlast : ∀ e' text', e' ∈ @nil string →
            Options.split_override e' ≠ Return ("train", "batch_size", text')).
  { intros e' text' Hin. apply elem_of_nil in Hin. destruct Hin. }
  assert (Hs : Options.split_override "train.batch_size:128"
               = Return ("train", "batch_size", "128")) by (vm_compute; reflexivity).
  assert (Hload : Options.__init__ Example.world "exp.conf" (Some ["train.batch_size:128"])
                  = (_, Return _)) by (vm_compute; reflexivity).
  pose proof (C1_override_wins Example.world "exp.conf" [] "train.batch_size:128" []
                _ _ "batch_size" "128" Hload Hs Hlast) as X.
  destruct X as (v & opts & Hv & Hsec & Hget).
  exists opts. split; [exact Hload|]. split; [exact Hsec|].
  vm_compute in Hv. injection Hv as <-. exact Hget.
Defined.

Lemma defines_false doc s k : defines doc s k = false → ¬ doc_defines doc s k.
Proof.
  intros H (opts & o & x & Hin & Ho & Hk).
  apply not_true_iff_false in H. apply H. unfold defines.
  apply existsb_exists. exists (s, opts). split; [by apply list_elem_of_In|].
  simpl. rewrite String.eqb_refl. simpl.
  apply existsb_exists. exists (o, x). split; [by apply list_elem_of_In|].
  simpl. by apply String.eqb_eq.
Qed.

Lemma mentions_false l s k e text :
  mentions l s k = false → e ∈ l → Options.split_override e ≠ Return (s, k, text).
Proof.
  intros H Hin He. apply not_true_iff_false in H. apply H. unfold mentions.
  apply existsb_exists. exists e. split; [by apply list_elem_of_In|].
  rewrite He. by rewrite !String.eqb_refl.
Qed.

Lemma loaded_inv w fname ovl out self :
  Options.__init__ w fname ovl = (out, Return self) →
  ∃ doc ovs,
    file_doc w fname = Return doc
    ∧ ConfigParser.read_events defaults_parser [] [] doc = Return (Options._parser self)
    ∧ match ovl with
      | Some l => Options.parse_overrides w l = Return ovs
      | None => ovs = []
      end
    ∧ wf2 ovs ∧ wf_parser (Options._parser self)
    ∧ Options.check_sections (ConfigParser.sections (Options._parser self)) = Return tt
    ∧ Options.parsed_sections w (Options._parser self) ovs = Return (Options._psections self).
Proof.
  intros H. apply init_Return, construct_inv in H as (p & ovs & Hrc & Hck & Hps & <- & _).
  pose proof (read_config_facts _ _ _ _ _ Hrc) as (Hwf & Hovs & _).
  apply read_config_inv in Hrc as (doc & Hdoc & Hev & Hov).
  by exists doc, ovs.
Qed.

Lemma dict_get_map {A B} (f : A → B) (d : Dict.t A) k :
  Dict.get (map (fun kv => (fst kv, f (snd kv))) d) k = f <$> Dict.get d k.
Proof.
  induction d as [|[k' v] d IH]; simpl; [done|]. by destruct (String.eqb k' k).
Qed.

Lemma get2_singleton {V} (s : string) (m : Dict.t V) k :
  get2 [(s, m)] s k = Dict.get m k.
Proof. unfold get2. cbn [Dict.get fst snd]. by rewrite String.eqb_refl. Qed.

Lemma defaults_parser_get2 k :
  get2 (psections defaults_parser) "train" k = py_str <$> Dict.get TRAIN_DEFAULTS k.
Proof.
  change (psections defaults_parser)
    with [("train", map (fun kd => (fst kd, py_str (snd kd))) TRAIN_DEFAULTS)].
  etrans; [apply get2_singleton | apply dict_get_map].
Qed.

(** every default survives its trip through text *)
Lemma defaults_round_trip w p section key :
  Forall (fun kd => file_value w p section key (py_str (snd kd)) = Return (scalar_value (snd kd)))
         TRAIN_DEFAULTS.
Proof. repeat constructor; vm_compute; reflexivity. Qed.

(** C5 — For every key [k] of the defaults table with default [d]: when
    the [[train]] section of the file does not give [k] and no override
    names it, the loaded configuration maps [k] in [train] to [d], the
    default having gone through [str] and back through the coercion of
    file values. *)
Theorem C5_default_when_omitted w fname ovl out self k d doc :
  Options.__init__ w fname ovl = (out, Return self) →
  Dict.get TRAIN_DEFAULTS k = Some d →
  file_doc w fname = Return doc →
  defines doc "train" k = false →
  mentions (default [] ovl) "train" k = false →
  ∃ opts,
    Options.__getitem__ self "train" = Options.Section opts
    ∧ Dict.get opts k = Some (scalar_value d).
Proof.
  intros H Hd Hdoc Hfile Hov.
  destruct (loaded_inv _ _ _ _ _ H) as (doc' & ovs & Hdoc' & Hev & Hparse & Hwf2 & Hwf & _ & Hps).
  rewrite Hdoc in Hdoc'. injection Hdoc' as <-.
  apply parsed_sections_spec in Hps as [_ Hget]; [|done].
  destruct (Hget "train" (loaded_has_train _ _ _ _ _ H)) as (opts & Hopts & Hg).
  exists opts. split; [unfold Options.__getitem__, Options.getitem; by rewrite Hg|].
  apply section_opts_spec in Hopts as (_ & _ & Hfilev); [|done..].
  destruct (Hfilev k (py_str d)) as (v & Hv & Hk).
  - destruct ovl as [l|]; [|by subst].
    rewrite (parse_overrides_into_other _ _ _ _ _ _ Hparse); [done|].
    intros e text He. by eapply mentions_false.
  - apply read_events_spec in Hev as (_ & _ & Hkeep).
    rewrite Hkeep by (by apply defines_false).
    rewrite defaults_parser_get2. by rewrite Hd.
  - pose proof (defaults_round_trip w (Options._parser self) "train" k) as Hall.
    rewrite Forall_forall in Hall. apply dict_get_Some_elem in Hd.
    specialize (Hall _ Hd). cbn [snd] in Hall. rewrite Hall in Hv. by injection Hv as <-.
Qed.

Lemma C5_default_when_omitted_witness :
  ∃ out self opts,
    Options.__init__ Example.world "exp.conf" (Some ["train.batch_size:128"])
    = (out, Return self)
    ∧ Options.__getitem__ self "train" = Options.Section opts
    ∧ Dict.get opts "lr_decay_min" = Some (VFloat (PyFloat.lit "0.000001")).
Proof.
  eexists _, _.
  assert (Hd : Dict.get TRAIN_DEFAULTS "lr_decay_min" = Some (SFloat (PyFloat.lit "0.000001")))
    by reflexivity.
  assert (Hdoc : file_doc Example.world "exp.conf" = Return _) by (vm_compute; reflexivity).
  assert (Hload : Options.__init__ Example.world "exp.conf" (Some ["train.batch_size:128"])
                  = (_, Return _)) by (vm_compute; reflexivity).
  pose proof (C5_default_when_omitted Example.world "exp.conf" _ _ _ "lr_decay_min" _ _
                Hload Hd Hdoc eq_refl eq_refl) as X.
  destruct X as (opts & Hsec & Hget).
  exists opts. split; [exact Hload|]. split; [exact Hsec|exact Hget].
Defined.

(** ** The check of the [train] keys *)

Lemma str_app_cons (x : ascii) (a b : string) : String x a ++ b = String x (a ++ b).
Proof. reflexivity. Qed.

Lemma str_app_nil_l (a : string) : "" ++ a = a.
Proof. reflexivity. Qed.

Lemma str_app_assoc (a b c : string) : (a ++ b) ++ c = a ++ (b ++ c).
Proof.
  induction a as [|x a IH]; [reflexivity|].
  by rewrite !str_app_cons, IH.
Qed.

Lemma str_app_nil_r (a : string) : a ++ "" = a.
Proof. induction a as [|x a IH]; [reflexivity|]. by rewrite str_app_cons, IH. Qed.

Lemma remove_dups_id (l : list string) : NoDup l → remove_dups l = l.
Proof.
  induction 1 as [|x l Hx _ IH]; simpl; [done|].
  destruct (decide_rel elem_of x l); [done|]. by rewrite IH.
Qed.

Lemma set_iter_Permutation w (l : list string) : NoDup l → set_iter w l ≡ₚ l.
Proof.
  intros H. unfold set_iter. rewrite merge_sort_Permutation. by rewrite remove_dups_id.
Qed.

Lemma constructed_train w fname ovl self :
  Options.construct w fname ovl = Return self →
  ∃ opts, Options.__getitem__ self "train" = Options.Section opts
    ∧ NoDup (Dict.keys opts) ∧ Options.filename self = fname.
Proof.
  intros H. apply construct_inv in H as (p & ovs & Hrc & _ & Hps & <- & Hf).
  pose proof (read_config_facts _ _ _ _ _ Hrc) as (Hwf & Hovs & Ht).
  apply parsed_sections_spec in Hps as [_ Hget]; [|done].
  destruct (Hget "train" Ht) as (opts & Hopts & Hg).
  exists opts. split_and!; [|by eapply section_opts_spec|done].
  unfold Options.__getitem__, Options.getitem. by rewrite Hg.
Qed.

(** how [__init__] ends once the sections are stored *)
Lemma init_after_construct w fname ovl self :
  Options.construct w fname ovl = Return self →
  ∃ opts,
    Options.__getitem__ self "train" = Options.Section opts
    ∧ NoDup (Dict.keys opts)
    ∧ Options.__init__ w fname ovl
      = (map (Options.diagnostic w fname) (set_iter w (unknown_keys opts)),
         match set_iter w (unknown_keys opts) with [] => Return self | _ => Exit 1 end).
Proof.
  intros H. destruct (constructed_train _ _ _ _ H) as (opts & Hget & Hnd & Hf).
  exists opts. split; [done|]. split; [done|].
  unfold Options.__init__. rewrite H. unfold Options.sanity_check, Options.invalid_keys.
  rewrite Hget, Hf. cbn [Options.found_keys].
  rewrite (remove_dups_id _ Hnd), Nat.eqb_refl. cbn [negb].
  fold (unknown_keys opts). by destruct (set_iter w (unknown_keys opts)).
Qed.

Lemma set_iter_unknown w opts :
  NoDup (Dict.keys opts) → set_iter w (unknown_keys opts) ≡ₚ unknown_keys opts.
Proof. intros H. apply set_iter_Permutation. by apply NoDup_filter. Qed.

(** C6 — Once the sections are stored, the check of [[train]] prints one
    diagnostic for every key of [train] that the defaults table does not
    have (in the order in which the set of these keys iterates), each naming
    the file and the key and ending with the closest known key when
    [get_close_matches] finds one; the process exits with status 1 exactly
    when there is such a key, after all diagnostics, and without any the
    check prints nothing and the load returns the instance. *)
Theorem C6_unknown_keys_reported w fname ovl self :
  Options.construct w fname ovl = Return self →
  ∃ opts,
    Options.__getitem__ self "train" = Options.Section opts
    ∧ (Options.__init__ w fname ovl).1
        ≡ₚ map (Options.diagnostic w fname) (unknown_keys opts)
    ∧ (Options.__init__ w fname ovl).2
        = match unknown_keys opts with [] => Return self | _ => Exit 1 end
    ∧ ∀ k, ∃ hint,
        Options.diagnostic w fname k
        = fname ++ ":train: Unknown option '" ++ k ++ "'." ++ hint
        ∧ hint = match Difflib.get_close_matches w k (Dict.keys TRAIN_DEFAULTS) with
                 | m :: _ => "  Did you mean '" ++ m ++ "' ?"
                 | [] => ""
                 end.
Proof.
  intros H. destruct (init_after_construct _ _ _ _ H) as (opts & Hget & Hnd & ->).
  exists opts. split; [done|].
  pose proof (set_iter_unknown w opts Hnd) as Hperm.
  split_and!.
  - cbn [fst]. by rewrite Hperm.
  - cbn [snd]. destruct (set_iter w (unknown_keys opts)) as [|x l] eqn:E.
    + apply Permutation_nil_l in Hperm. by rewrite <- Hperm.
    + destruct (unknown_keys opts); [by apply Permutation_nil_r in Hperm|done].
  - intros k. unfold Options.diagnostic.
    destruct (Difflib.get_close_matches w k (Dict.keys TRAIN_DEFAULTS)) as [|m ms].
    + exists "". split; [|done]. by rewrite !str_app_nil_r.
    + eexists. split; [|done]. by rewrite !str_app_assoc.
Qed.

Lemma C6_unknown_keys_reported_witness :
  ∃ self,
    Options.construct Example.world "typo.conf" None = Return self
    ∧ (Options.__init__ Example.world "typo.conf" None).1
        ≡ₚ ["typo.conf:train: Unknown option 'lr_decya'.  Did you mean 'lr_decay' ?"]
    ∧ (Options.__init__ Example.world "typo.conf" None).2 = Exit 1.
Proof.
  eexists.
  assert (Hc : Options.construct Example.world "typo.conf" None = Return _)
    by (vm_compute; reflexivity).
  pose proof (C6_unknown_keys_reported Example.world "typo.conf" None _ Hc) as X.
  destruct X as (opts & Hget & Hout & Hres & _).
  vm_compute in Hget. injection Hget as <-.
  split; [exact Hc|]. split.
  - etransitivity; [exact Hout|]. vm_compute. reflexivity.
  - etransitivity; [exact Hres|]. vm_compute. reflexivity.
Defined.

(** ** Validation of the section names *)

(** C7 (as amended) — Section-name validation asks for [[model]] (and
    [[train]], which the defaults always provide) and lets every other
    section through only if its name starts with "tasks." and has at most
    one dot, so [tasks.*] sections are optional; a load whose section names
    fail it, such as one with an extra section [[other]], ends in
    [AssertionError].  Passing it does not make the load succeed: a key of
    the file's [[train]] that the defaults table lacks, such as [foo], makes
    a load that stores its sections exit with status 1. *)
Theorem C7_section_names w fname ovl p ovs :
  Options.read_config w fname ovl = Return (p, ovs) →
  let names := ConfigParser.sections p in
  (Options.check_sections names = Return tt
     ↔ "model" ∈ names ∧ ∀ s, s ∈ names → good_name s)
  ∧ (Options.check_sections names ≠ Return tt →
       Options.__init__ w fname ovl = ([], Raise AssertionError))
  ∧ (∀ self k,
       Options.construct w fname ovl = Return self →
       is_Some (get2 (psections p) "train" k) →
       Dict.mem TRAIN_DEFAULTS k = false →
       (Options.__init__ w fname ovl).2 = Exit 1).
Proof.
  intros Hrc names.
  pose proof (read_config_facts _ _ _ _ _ Hrc) as (Hwf & Hovs & Ht).
  split_and!.
  - rewrite check_sections_spec by apply Hwf. unfold names. naive_solver.
  - intros Hbad. apply check_sections_fail in Hbad; [|done].
    unfold Options.__init__, Options.construct. rewrite Hrc. simpl.
    fold names. by rewrite Hbad.
  - intros self k Hc [x Hx] Hk.
    destruct (init_after_construct _ _ _ _ Hc) as (opts & Hget & Hnd & ->).
    cbn [snd].
    assert (Hin : k ∈ unknown_keys opts).
    { apply construct_inv in Hc as (p' & ovs' & Hrc' & _ & Hps & Hp' & _).
      rewrite Hrc in Hrc'. injection Hrc' as <- <-.
      apply parsed_sections_spec in Hps as [_ Hsec]; [|done].
      destruct (Hsec "train" Ht) as (opts' & Hopts & Hg).
      unfold Options.__getitem__, Options.getitem in Hget. rewrite Hg in Hget.
      injection Hget as ->.
      apply section_opts_spec in Hopts as (_ & Hov & Hfile); [|done..].
      apply list_elem_of_filter. split; [by rewrite Hk|].
      destruct (get2 ovs "train" k) as [v|] eqn:E.
      - eapply dict_get_Some_keys. by apply Hov.
      - destruct (Hfile k x E Hx) as (v & _ & Hv). by eapply dict_get_Some_keys. }
    rewrite <- (set_iter_unknown w opts Hnd) in Hin.
    destruct (set_iter w (unknown_keys opts)); [by apply elem_of_nil in Hin|done].
Qed.

Lemma C7_section_names_witness :
  Options.__init__ Example.world "other.conf" None = ([], Raise AssertionError)
  ∧ (Options.__init__ Example.world "foo.conf" None).2 = Exit 1.
Proof.
  split.
  - assert (Hrc : Options.read_config Example.world "other.conf" None = Return (_, _))
      by (vm_compute; reflexivity).
    pose proof (C7_section_names Example.world "other.conf" None _ _ Hrc) as X.
    destruct X as (_ & Hbad & _). apply Hbad. vm_compute. discriminate.
  - assert (Hrc : Options.read_config Example.world "foo.conf" None = Return (_, _))
      by (vm_compute; reflexivity).
    assert (Hc : Options.construct Example.world "foo.conf" None = Return _)
      by (vm_compute; reflexivity).
    pose proof (C7_section_names Example.world "foo.conf" None _ _ Hrc) as X.
    destruct X as (_ & _ & Hexit).
    apply (Hexit _ "foo" Hc); [|reflexivity]. eexists. vm_compute. reflexivity.
Defined.

(** C7 (as stated) fails: the file with [[train]], [foo=1] and [[model]]
    does not load; it prints the diagnostic for [foo] and exits. *)
Lemma C7_counterexample :
  Options.__init__ Example.world "foo.conf" None
  = (["foo.conf:train: Unknown option 'foo'."], Exit 1)
  ∧ ¬ ∃ self, (Options.__init__ Example.world "foo.conf" None).2 = Return self.
Proof.
  assert (H : Options.__init__ Example.world "foo.conf" None
              = (["foo.conf:train: Unknown option 'foo'."], Exit 1))
    by (vm_compute; reflexivity).
  split; [exact H|]. rewrite H. intros [self Hs]. discriminate Hs.
Qed.

(** ** Tokens that start like a boolean or [None] *)

(** C2 (fails on the code) — [_parse_value] does raise: the token "Falsey"
    capitalises to a text that starts with "False", so it is handed to
    [eval] outside the [try], and evaluating the unbound name [Falsey]
    raises [NameError], in every world. *)
Theorem C2_parse_value_can_raise w :
  Str.startswith (Str.capitalize "Falsey") "False" = true
  ∧ _parse_value w (Text "Falsey") = Raise NameError.
Proof. split; vm_compute; reflexivity. Qed.

(** C3 (fails on the code) — the check for a boolean or [None] is a prefix
    check: "Nonetheless" is not the whole token "None" and still never
    reaches the literal parse or the string fallback (it raises
    [NameError]), and "true # on", whose capitalisation only starts with
    "True", is coerced to the boolean [True]. *)
Theorem C3_prefix_not_whole_token w :
  Str.capitalize "Nonetheless" ≠ "None"
  ∧ _parse_value w (Text "Nonetheless") = Raise NameError
  ∧ Str.capitalize "true # on" ≠ "True"
  ∧ _parse_value w (Text "true # on") = Return (VBool true).
Proof. split_and!; vm_compute; (reflexivity || discriminate). Qed.

(** ** The shape of an override *)

Lemma split1_none c s : Str.count c s = 0%nat → Str.split1 c s = [s].
Proof.
  induction s as [|x s IH]; simpl; [done|].
  destruct (Ascii.eqb x c); [done|]. intros H. by rewrite IH.
Qed.

Lemma split1_app c a b :
  Str.count c a = 0%nat → Str.split1 c (a ++ String c b) = [a; b].
Proof.
  induction a as [|x a IH]; simpl.
  - intros _. by rewrite Ascii.eqb_refl.
  - destruct (Ascii.eqb x c); [done|]. intros H. by rewrite IH.
Qed.

Lemma split1_cases c s :
  (Str.count c s = 0%nat ∧ Str.split1 c s = [s])
  ∨ (∃ a b, s = a ++ String c b ∧ Str.count c a = 0%nat ∧ Str.split1 c s = [a; b]).
Proof.
  induction s as [|x s IH]; simpl; [by left|].
  destruct (Ascii.eqb_spec x c) as [->|Hne].
  - right. by exists "", s.
  - destruct IH as [[H0 ->]|(a & b & -> & Ha & ->)]; [by left|].
    right. exists (String x a), b. split_and!; [done| |done].
    simpl. by destruct (Ascii.eqb_spec x c).
Qed.

Lemma split_length c s : length (Str.split c s) = S (Str.count c s).
Proof.
  induction s as [|x s IH]; simpl; [done|].
  destruct (Ascii.eqb x c); simpl; [by rewrite IH|].
  destruct (Str.split c s); simpl in *; [done|lia].
Qed.

Lemma split_none c s : Str.count c s = 0%nat → Str.split c s = [s].
Proof.
  induction s as [|x s IH]; simpl; [done|].
  destruct (Ascii.eqb x c); [done|]. intros H. by rewrite IH.
Qed.

Lemma split_app c a b :
  Str.count c a = 0%nat → Str.split c (a ++ String c b) = a :: Str.split c b.
Proof.
  induction a as [|x a IH]; simpl.
  - intros _. by rewrite Ascii.eqb_refl.
  - destruct (Ascii.eqb x c); [done|]. intros H. by rewrite IH.
Qed.

Lemma split_two c s a b :
  Str.split c s = [a; b] →
  s = a ++ String c b ∧ Str.count c a = 0%nat ∧ Str.count c b = 0%nat.
Proof.
  revert a. induction s as [|x s IH]; simpl; intros a; [done|].
  destruct (Ascii.eqb_spec x c) as [->|Hne].
  - intros [= <- Hs]. pose proof (split_length c s) as Hl. rewrite Hs in Hl.
    simpl in Hl. assert (Hc : Str.count c s = 0%nat) by lia.
    rewrite (split_none _ _ Hc) in Hs. by injection Hs as ->.
  - destruct (Str.split c s) as [|h t] eqn:E; [done|].
    intros [= <- ->]. destruct (IH h eq_refl) as (-> & Hh & Hb).
    split_and!; [done| |done]. simpl. by destruct (Ascii.eqb_spec x c).
Qed.

Lemma split_override_shape opt section key text :
  Options.split_override opt = Return (section, key, text)
  ↔ well_shaped opt section key text.
Proof.
  unfold Options.split_override, well_shaped. split.
  - destruct (split1_cases "." opt) as [[_ ->]|(a & b & -> & Ha & ->)]; [done|].
    destruct (Str.split ":" b) as [|k [|v [|? ?]]] eqn:E; try done.
    intros [= <- <- <-]. apply split_two in E as (-> & Hk & Hv). done.
  - intros (-> & Hs & Hk & Ht).
    change (section ++ "." ++ key ++ ":" ++ text)
      with (section ++ String "." (key ++ String ":" text)).
    rewrite split1_app by done. rewrite split_app by done.
    by rewrite split_none.
Qed.

Lemma split_override_fail opt :
  (∀ section key text, ¬ well_shaped opt section key text) →
  Options.split_override opt = Raise ValueError.
Proof.
  intros H. destruct (Options.split_override opt) as [[[s k] t]|e|n] eqn:E.
  - by apply split_override_shape, H in E.
  - unfold Options.split_override in E.
    destruct (Str.split1 "." opt) as [|? [|? [|? ?]]]; try by injection E as <-.
    destruct (Str.split ":" _) as [|? [|? [|? ?]]]; try done; by injection E as <-.
  - unfold Options.split_override in E.
    destruct (Str.split1 "." opt) as [|? [|? [|? ?]]]; try done.
    destruct (Str.split ":" _) as [|? [|? [|? ?]]]; done.
Qed.

(** C4 (as amended) — An override entry is accepted by the two splits of
    [parse_overrides] exactly when it reads [section.key:value] where the
    section (the text before the first dot) has no dot and neither the key
    nor the value has a colon; further dots belong to the key or the value,
    and a colon before the first dot belongs to the section.  Any other
    entry raises [ValueError] at once and makes the whole list fail; an
    accepted single entry yields the coerced value under its section and
    key. *)
Theorem C4_override_shape w opt :
  ((∃ section key text, Options.split_override opt = Return (section, key, text))
     ↔ ∃ section key text, well_shaped opt section key text)
  ∧ ((∀ section key text, ¬ well_shaped opt section key text) →
       Options.split_override opt = Raise ValueError
       ∧ ∀ l, opt ∈ l → is_Return (Options.parse_overrides w l) = false)
  ∧ (∀ section key text, well_shaped opt section key text →
       Options.parse_overrides w [opt]
       = (coerce_override w text ≫= fun v => Return [(section, [(key, v)])])).
Proof.
  split_and!.
  - split; intros (s & k & t & H); exists s, k, t; by apply split_override_shape.
  - intros Hbad. pose proof (split_override_fail _ Hbad) as Hfail. split; [done|].
    intros l Hin. unfold Options.parse_overrides. generalize (@nil (string * Dict.t value)).
    induction l as [|e l IH]; [by apply elem_of_nil in Hin|].
    intros acc. simpl. apply elem_of_cons in Hin as [<-|Hin].
    + by rewrite Hfail.
    + destruct (Options.split_override e) as [[[s k] t]|?|?]; simpl; [|done..].
      destruct (resolve_token w t); simpl; [|done..].
      destruct (_parse_value w a); simpl; [|done..]. by apply IH.
  - intros s k t Hshape. apply split_override_shape in Hshape.
    unfold Options.parse_overrides, coerce_override. simpl. rewrite Hshape. simpl.
    destruct (resolve_token w t); simpl; [|done..].
    by destruct (_parse_value w a).
Qed.

(** C4 (as stated) fails: "train.lr:0.5" has two dots and is accepted. *)
Lemma C4_counterexample :
  Str.count "." "train.lr:0.5" = 2%nat
  ∧ Options.parse_overrides Example.world ["train.lr:0.5"]
    = Return [("train", [("lr", VFloat (PyFloat.lit "0.5"))])]
  ∧ ¬ (is_Return (Options.parse_overrides Example.world ["train.lr:0.5"]) = true
       ↔ Str.count "." "train.lr:0.5" = 1%nat ∧ Str.count ":" "train.lr:0.5" = 1%nat).
Proof.
  split_and!; [reflexivity | vm_compute; reflexivity |].
  intros [H _]. specialize (H ltac:(vm_compute; reflexivity)). destruct H as [H _].
  vm_compute in H. discriminate H.
Qed.

(** ** Hierarchical lookup *)

Lemma strip_prefix_Some p s r : strip_prefix p s = Some r ↔ s = p ++ r.
Proof.
  revert s. induction p as [|a p IH]; intros s; simpl.
  - split; [by intros [= ->] | by intros ->].
  - destruct s as [|b s]; [done|].
    destruct (Ascii.eqb_spec a b) as [->|Hne].
    + rewrite IH. split; [by intros ->|by intros [= ->]].
    + split; [done|]. by intros [= <- _].
Qed.

Lemma startswith_strip s p :
  Str.startswith s p = true ↔ is_Some (strip_prefix p s).
Proof.
  unfold Str.startswith. revert s. induction p as [|a p IH]; intros s.
  - destruct s; simpl; (split; [by eexists|done]).
  - destruct s as [|b s]; simpl; [split; [done|by intros [? ?]]|].
    destruct (ascii_dec a b) as [->|Hne].
    + by rewrite Ascii.eqb_refl.
    + destruct (Ascii.eqb_spec a b); [done|]. split; [done|by intros [? ?]].
Qed.

Lemma count_app c a b : Str.count c (a ++ b) = (Str.count c a + Str.count c b)%nat.
Proof.
  induction a as [|x a IH]; simpl; [done|]. destruct (Ascii.eqb x c); lia.
Qed.

(** below a parent, a name with at most one dot ends in its last component *)
Lemma last_component key suffix :
  (Str.count "." (key ++ "." ++ suffix) ≤ 1)%nat →
  Str.last_or "" (Str.split "." (key ++ "." ++ suffix)) = suffix.
Proof.
  change (key ++ "." ++ suffix) with (key ++ String "." suffix).
  rewrite count_app. simpl. intros H.
  rewrite split_app, split_none by lia. done.
Qed.

Lemma child_sections_keys_elem ps key suffix :
  suffix ∈ Dict.keys (child_sections ps key) → key ++ "." ++ suffix ∈ Dict.keys ps.
Proof.
  unfold Dict.keys, child_sections. induction ps as [|[name opts] ps IH]; simpl.
  - intros H. by apply elem_of_nil in H.
  - destruct (strip_prefix (key ++ ".") name) as [r|] eqn:E; simpl.
    + apply strip_prefix_Some in E. rewrite str_app_assoc in E.
      intros H. apply elem_of_cons in H as [->|H]; [subst; left|right; auto].
    + intros H. right. auto.
Qed.

Lemma child_sections_NoDup ps key :
  NoDup (Dict.keys ps) → NoDup (Dict.keys (child_sections ps key)).
Proof.
  unfold Dict.keys at 1. induction ps as [|[name opts] ps IH]; simpl; [constructor|].
  intros Hnd. apply NoDup_cons in Hnd as [Hname Hnd].
  unfold child_sections. simpl.
  destruct (strip_prefix (key ++ ".") name) as [r|] eqn:E; simpl; [|by apply IH].
  apply NoDup_cons. split; [|by apply IH].
  intros Hin. apply child_sections_keys_elem in Hin.
  apply strip_prefix_Some in E. rewrite str_app_assoc in E. by subst.
Qed.

Lemma children_spec ps key :
  NoDup (Dict.keys ps) →
  Forall (fun so => (Str.count "." (fst so) ≤ 1)%nat) ps →
  Options.children ps key = child_sections ps key.
Proof.
  intros Hnd Hdots. unfold Options.children.
  assert (Heq : map (fun kv => (Str.last_or "" (Str.split "." (fst kv)), snd kv))
                    (filter (fun kv => Str.startswith (fst kv) (key ++ ".")) ps)
                = child_sections ps key).
  { clear Hnd. unfold child_sections.
    induction Hdots as [|[name opts] ps Hname _ IH]; [done|].
    rewrite (filter_cons (fun kv : string * Dict.t value =>
                            Is_true (Str.startswith kv.1 (key ++ ".")))).
    simpl in *.
    destruct (strip_prefix (key ++ ".") name) as [r|] eqn:E; simpl.
    - rewrite decide_True by (apply Is_true_true, startswith_strip; by eexists).
      simpl. f_equal; [|exact IH]. f_equal.
      apply strip_prefix_Some in E. rewrite str_app_assoc in E. subst name.
      by apply last_component.
    - rewrite decide_False; [exact IH|].
      intros H. apply Is_true_true, startswith_strip in H as [? ?]. congruence. }
  rewrite Heq. apply dict_of_items_id. by apply child_sections_NoDup.
Qed.

Lemma child_sections_get ps key suffix :
  NoDup (Dict.keys ps) →
  Dict.get (child_sections ps key) suffix = Dict.get ps (key ++ "." ++ suffix).
Proof.
  unfold Dict.keys. induction ps as [|[name opts] ps IH]; simpl; [done|].
  intros Hnd. apply NoDup_cons in Hnd as [Hname Hnd].
  unfold child_sections. simpl.
  destruct (strip_prefix (key ++ ".") name) as [r|] eqn:E; simpl.
  - apply strip_prefix_Some in E. rewrite str_app_assoc in E. subst name.
    destruct (String.eqb_spec r suffix) as [->|Hne].
    + by rewrite String.eqb_refl.
    + destruct (String.eqb_spec (key ++ "." ++ r) (key ++ "." ++ suffix)) as [Heq|_].
      * exfalso. apply Hne. apply (inj (String.app key)) in Heq.
        by apply (inj (String.app ".")) in Heq.
      * by apply IH.
  - destruct (String.eqb_spec name (key ++ "." ++ suffix)) as [->|_]; [|by apply IH].
    exfalso. assert (is_Some (strip_prefix (key ++ ".") (key ++ "." ++ suffix))) as [? ?];
      [|congruence].
    exists suffix. apply strip_prefix_Some. by rewrite str_app_assoc.
Qed.

Lemma loaded_names w fname ovl out self :
  Options.__init__ w fname ovl = (out, Return self) →
  NoDup (Dict.keys (Options._psections self))
  ∧ Forall (fun so => (Str.count "." (fst so) ≤ 1)%nat) (Options._psections self)
  ∧ ∀ s, s ∈ Dict.keys (Options._psections self) → good_name s.
Proof.
  intros H. destruct (loaded_inv _ _ _ _ _ H) as (doc & ovs & _ & _ & _ & _ & Hwf & Hck & Hps).
  apply parsed_sections_spec in Hps as [Hkeys _]; [|done].
  apply check_sections_spec in Hck as (_ & _ & Hgood); [|apply Hwf].
  rewrite Hkeys. split_and!; [apply Hwf| |done].
  apply Forall_forall. intros [name opts] Hin. simpl.
  assert (Hn : name ∈ ConfigParser.sections (Options._parser self)).
  { rewrite <- Hkeys. apply list_elem_of_In, in_map_iff. exists (name, opts).
    split; [done|]. by apply list_elem_of_In. }
  destruct (Hgood _ Hn) as [->|[->|[_ ?]]]; [simpl; lia..|done].
Qed.

(** C9 — For a loaded configuration and a name that is not a stored
    section, the lookup returns the sections stored below that name, each
    under its child suffix: a suffix maps to a section's mapping exactly
    when the section [name.suffix] is stored with that mapping (for "tasks"
    with sections [tasks.a] and [tasks.b]: [a] and [b]); when no stored
    section starts with the name and a dot, the result is the empty
    mapping, and nothing is raised. *)
Theorem C9_parent_lookup w fname ovl out self key :
  Options.__init__ w fname ovl = (out, Return self) →
  Dict.get (Options._psections self) key = None →
  ∃ subs,
    Options.__getitem__ self key = Options.Children subs
    ∧ subs = child_sections (Options._psections self) key
    ∧ NoDup (Dict.keys subs)
    ∧ (∀ suffix, Dict.get subs suffix
                 = Dict.get (Options._psections self) (key ++ "." ++ suffix))
    ∧ ((∀ name, name ∈ Dict.keys (Options._psections self) →
                Str.startswith name (key ++ ".") = false) → subs = []).
Proof.
  intros H Hmiss. destruct (loaded_names _ _ _ _ _ H) as (Hnd & Hdots & _).
  exists (child_sections (Options._psections self) key). split_and!.
  - unfold Options.__getitem__, Options.getitem. rewrite Hmiss.
    by rewrite children_spec.
  - done.
  - by apply child_sections_NoDup.
  - intros suffix. by apply child_sections_get.
  - intros Hnone. unfold child_sections.
    revert Hnone. generalize (Options._psections self). clear.
    intros ps. induction ps as [|[name opts] ps IH]; [done|]. simpl. intros Hnone.
    destruct (strip_prefix (key ++ ".") name) as [r|] eqn:E.
    + exfalso. assert (Str.startswith name (key ++ ".") = true) as Hs
        by (apply startswith_strip; by eexists).
      rewrite Hnone in Hs; [done|left].
    + simpl. apply IH. intros n Hn. apply Hnone. by right.
Qed.

Lemma C9_parent_lookup_witness :
  ∃ out self,
    Options.__init__ Example.world "exp.conf" None = (out, Return self)
    ∧ Options.__getitem__ self "tasks"
      = Options.Children [("a", [("direction", VStr "en")]);
                          ("b", [("direction", VStr "de")])]
    ∧ Options.__getitem__ self "nothing" = Options.Children [].
Proof.
  eexists _, _.
  assert (Hload : Options.__init__ Example.world "exp.conf" None = (_, Return _))
    by (vm_compute; reflexivity).
  split; [exact Hload|]. split.
  - pose proof (C9_parent_lookup Example.world "exp.conf" None _ _ "tasks" Hload eq_refl) as X.
    destruct X as (subs & Hget & Hsubs & _).
    etransitivity; [exact Hget|]. rewrite Hsubs. vm_compute. reflexivity.
  - vm_compute. reflexivity.
Defined.

(** ** The store *)

Lemma alloc_spec (σ : gmap loc cell) c l σ' :
  alloc σ c = (l, σ') →
  σ !! l = None ∧ σ' !! l = Some c
  ∧ ∀ l' c', σ !! l' = Some c' → σ' !! l' = Some c'.
Proof.
  unfold alloc. intros [= <- <-].
  assert (Hfresh : σ !! fresh (dom σ) = None) by apply not_elem_of_dom, is_fresh.
  split_and!; [done|apply lookup_insert_eq|].
  intros l' c' H. rewrite lookup_insert_ne; [done|]. intros <-. congruence.
Qed.

Lemma copy_sections_spec σ d0 ps dict_ σ' :
  Serial.copy_sections σ d0 ps = (dict_, σ') →
  NoDup (Dict.keys ps) → (∀ s, s ∈ Dict.keys ps → s ∉ Dict.keys d0) →
  ∃ refs, dict_ = (d0 ++ refs)%list
    ∧ Forall2 (copy_of σ') ps refs
    ∧ ∀ l c, σ !! l = Some c → σ' !! l = Some c.
Proof.
  revert σ d0. unfold Dict.keys at 1 2.
  induction ps as [|[s opts] ps IH]; intros σ d0 H Hnd Hfr.
  - injection H as <- <-. exists []. by rewrite app_nil_r.
  - cbn [Serial.copy_sections] in H. simpl in Hnd, Hfr.
    apply NoDup_cons in Hnd as [Hs Hnd].
    unfold Serial.copy_section in H.
    destruct (alloc σ _) as [l σ1] eqn:Ea.
    apply alloc_spec in Ea as (Hnew & Hl & Hmono).
    rewrite dict_set_fresh in H by (apply Hfr; left).
    apply IH in H as (refs & -> & Hall & Hmono'); [|done|].
    + exists ((s, HRef l) :: refs). split; [by rewrite <- app_assoc|].
      split; [|by auto]. constructor; [|done].
      split; [done|]. exists l. split; [done|]. by apply Hmono'.
    + intros s' Hs'. unfold Dict.keys. rewrite map_app. simpl.
      intros Hin. apply elem_of_app in Hin as [Hin|Hin].
      * by apply (Hfr s'); [right|].
      * apply list_elem_of_singleton in Hin as ->. done.
Qed.

Lemma traverse_lookup_name (attrs refs : cell) :
  NoDup (Dict.keys attrs) → (∀ e, e ∈ refs → e ∈ attrs) →
  traverse (Serial.lookup_name attrs) (map VStr (Dict.keys refs)) = Return refs.
Proof.
  intros Hnd. induction refs as [|[s x] refs IH]; simpl; intros Hin; [done|].
  rewrite (dict_elem_get attrs s x) by (auto; apply Hin; left). simpl.
  rewrite IH by (intros; apply Hin; by right). done.
Qed.

Lemma copy_of_keys σ ps refs :
  Forall2 (copy_of σ) ps refs → Dict.keys refs = Dict.keys ps.
Proof.
  unfold Dict.keys. induction 1 as [|so sx ps refs [Hk _] _ IH]; simpl; [done|].
  by rewrite Hk, IH.
Qed.

Lemma read_boxed (opts : Dict.t value) :
  mapM (fun kv : string * hval =>
          match snd kv with
          | HVal v => Some (fst kv, v)
          | HRef _ => None
          end) (boxed opts) = Some opts.
Proof.
  apply mapM_Some. unfold boxed.
  induction opts as [|[k v] opts IH]; simpl; constructor; done.
Qed.

Lemma read_copies σ ps refs :
  Forall2 (copy_of σ) ps refs →
  mapM (fun sx => opts ← Serial.read_section σ (snd sx); Some (fst sx, opts)) refs = Some ps.
Proof.
  intros H. apply mapM_Some. induction H as [|[s opts] [s' x] ps refs Hc _ IH]; constructor; [|done].
  destruct Hc as [Hs (l & Hx & Hl)]. simpl in *. subst.
  simpl. rewrite Hl. simpl.
  fold (boxed opts). by rewrite read_boxed.
Qed.

Lemma copy_of_mono σ σ' ps refs :
  (∀ l c, σ !! l = Some c → σ' !! l = Some c) →
  Forall2 (copy_of σ) ps refs → Forall2 (copy_of σ') ps refs.
Proof.
  intros Hmono H. eapply Forall2_impl; [done|].
  intros so sx [Hs (l & Hx & Hl)]. split; [done|]. exists l. auto.
Qed.

Lemma good_name_not_reserved s : good_name s → s ≠ "filename" ∧ s ≠ "sections".
Proof.
  intros [->|[->|[H _]]]; [done..|]. split; intros ->; vm_compute in H; discriminate.
Qed.

(** C8 — For every loaded configuration, serialising it with [to_dict]
    (into any store) and rebuilding an instance from that dictionary with
    [from_dict] and no overrides succeeds, and the rebuilt instance's
    sections, read out of the store, are those of the original: the same
    section names in the same order, each with the same keys and values. *)
Theorem C8_serialise_round_trip w fname ovl out self (σ : gmap loc cell) d σ1 :
  Options.__init__ w fname ovl = (out, Return self) →
  Serial.to_dict σ self = (d, σ1) →
  ∃ obj σ2,
    Serial.from_dict w σ1 d None = (σ2, Return obj)
    ∧ Serial.psections_of σ2 obj = Some (Options._psections self).
Proof.
  intros Hload Hto.
  destruct (loaded_names _ _ _ _ _ Hload) as (Hnd & _ & Hgood).
  destruct (loaded_inv _ _ _ _ _ Hload) as (_ & ovs & _ & _ & _ & _ & Hwf & _ & Hps).
  apply parsed_sections_spec in Hps as [Hkeys _]; [|done].
  unfold Serial.to_dict in Hto.
  destruct (Serial.copy_sections σ _ _) as [dict_ σ'] eqn:Ecopy.
  apply copy_sections_spec in Ecopy as (refs & -> & Hcopies & _); [|done|].
  2:{ intros s Hs. apply Hgood, good_name_not_reserved in Hs as [? ?].
      unfold Dict.keys. simpl. rewrite !not_elem_of_cons. split_and!; try done.
      apply not_elem_of_nil. }
  apply alloc_spec in Hto as (_ & Hd & Hmono1).
  pose proof (copy_of_keys _ _ _ Hcopies) as Hrk.
  set (dict_ := (_ ++ refs)%list) in *.
  assert (Hdnd : NoDup (Dict.keys dict_)).
  { unfold dict_, Dict.keys. simpl. fold (Dict.keys refs). rewrite Hrk.
    assert (Hres : ∀ s, s ∈ Dict.keys (Options._psections self) →
                        s ≠ "filename" ∧ s ≠ "sections")
      by (intros s Hs; by apply good_name_not_reserved, Hgood).
    apply NoDup_cons. split.
    - rewrite not_elem_of_cons. split; [done|]. intros Hin. by apply Hres in Hin as [? _].
    - apply NoDup_cons. split; [|done]. intros Hin. by apply Hres in Hin as [_ ?]. }
  unfold Serial.from_dict. rewrite Hd. cbn zeta.
  fold (Dict.of_items dict_). rewrite (dict_of_items_id dict_ Hdnd).
  cbn [mbind option_bind].
  assert (Hsec : Dict.get dict_ "sections"
                 = Some (HVal (VList (map VStr (ConfigParser.sections (Options._parser self))))))
    by reflexivity.
  rewrite Hsec. cbn [Serial.iterate].
  change (Return ?x ≫= ?f) with (f x). cbn beta.
  rewrite <- Hkeys, <- Hrk.
  rewrite traverse_lookup_name; [|done|].
  2:{ intros e He. unfold dict_. apply elem_of_app. by right. }
  change (Return ?x ≫= ?f) with (f x). cbn beta.
  assert (Hrnd : NoDup (Dict.keys refs)) by (by rewrite Hrk).
  rewrite (dict_of_items_id refs Hrnd). cbn [mbind outcome_bind].
  destruct (alloc σ1 refs) as [lps σ2] eqn:E2. cbv beta iota.
  match goal with
  | |- context [alloc σ2 ?c] => destruct (alloc σ2 c) as [lobj σ3] eqn:E3
  end.
  apply alloc_spec in E2 as (_ & Hlps & Hmono2).
  apply alloc_spec in E3 as (Hfresh3 & Hlobj & Hmono3).
  exists lobj, σ3. split; [done|].
  unfold Serial.psections_of. rewrite Hlobj. simpl.
  rewrite dict_get_set_eq. simpl. rewrite (Hmono3 _ _ Hlps). simpl.
  apply read_copies. eapply copy_of_mono; [|done]. auto.
Qed.

Lemma C8_serialise_round_trip_witness :
  ∃ out self d σ1 obj σ2,
    Options.__init__ Example.world "exp.conf" (Some ["train.batch_size:128"])
    = (out, Return self)
    ∧ Serial.to_dict ∅ self = (d, σ1)
    ∧ Serial.from_dict Example.world σ1 d None = (σ2, Return obj)
    ∧ Serial.psections_of σ2 obj = Some (Options._psections self).
Proof.
  eexists _, _, _, _.
  assert (Hload : Options.__init__ Example.world "exp.conf" (Some ["train.batch_size:128"])
                  = (_, Return _)) by (vm_compute; reflexivity).
  match type of Hload with
  | _ = (_, Return ?s) =>
      assert (Hto : Serial.to_dict ∅ s = (_, _)) by (vm_compute; reflexivity)
  end.
  pose proof (C8_serialise_round_trip Example.world "exp.conf" _ _ _ ∅ _ _ Hload Hto) as X.
  destruct X as (obj & σ2 & Hfrom & Hread).
  exists obj, σ2. split; [exact Hload|]. split; [exact Hto|]. split; [exact Hfrom|exact Hread].
Defined.

(** ** Overrides on a serialised configuration *)

Lemma get_ref_in (dc : cell) s l : Dict.get dc s = Some (HRef l) → l ∈ cell_refs dc.
Proof.
  intros H. apply dict_get_Some_elem in H. unfold cell_refs.
  apply list_elem_of_omap. by exists (s, HRef l).
Qed.

Lemma cell_refs_inj (dc : cell) s1 s2 l :
  NoDup (cell_refs dc) →
  Dict.get dc s1 = Some (HRef l) → Dict.get dc s2 = Some (HRef l) → s1 = s2.
Proof.
  unfold cell_refs. induction dc as [|[k x] dc IH]; simpl; [done|].
  intros Hnd.
  assert (Htail : NoDup (cell_refs dc)).
  { destruct x; simpl in Hnd; [by apply NoDup_cons in Hnd as [_ ?]|done]. }
  destruct (String.eqb_spec k s1) as [E1|H1], (String.eqb_spec k s2) as [E2|H2];
    [congruence| | |by apply IH].
  - intros [= ->] H. apply get_ref_in in H. simpl in Hnd.
    by apply NoDup_cons in Hnd as [? _].
  - intros H [= ->]. apply get_ref_in in H. simpl in Hnd.
    by apply NoDup_cons in Hnd as [? _].
Qed.

Lemma setitem_Return (σ : gmap loc cell) target k v σ' u :
  Serial.setitem σ target k v = (σ', Return u) →
  ∃ l c, target = Some (HRef l) ∧ σ !! l = Some c
         ∧ σ' = <[l := Dict.set c k (HVal v)]> σ.
Proof.
  unfold Serial.setitem. destruct target as [[l|x]|]; [|done..].
  destruct (σ !! l) as [c|] eqn:E; [|done]. intros [= <- _]. by exists l, c.
Qed.

Lemma apply_overrides_cons (σ : gmap loc cell) attrs s k v rest σ' u :
  Serial.apply_overrides σ attrs ((s, k, v) :: rest) = (σ', Return u) →
  ∃ l c, Dict.get attrs s = Some (HRef l) ∧ σ !! l = Some c
    ∧ Serial.apply_overrides (<[l := Dict.set c k (HVal v)]> σ) attrs rest = (σ', Return u).
Proof.
  simpl. destruct (Serial.setitem σ (Dict.get attrs s) k v) as [σ1 [[]|e|n]] eqn:E; [|done..].
  apply setitem_Return in E as (l & c & Ht & Hl & ->). intros H. by exists l, c.
Qed.

(** a cell that no override is aimed at is left as it was *)
Lemma apply_overrides_keep (σ : gmap loc cell) attrs todo σ' u l :
  Serial.apply_overrides σ attrs todo = (σ', Return u) →
  (∀ s k v, (s, k, v) ∈ todo → Dict.get attrs s ≠ Some (HRef l)) →
  σ' !! l = σ !! l.
Proof.
  revert σ. induction todo as [|[[s k] v] todo IH]; intros σ H Hno.
  - by injection H as <-.
  - apply apply_overrides_cons in H as (l0 & c0 & Ht & Hl0 & H).
    rewrite (IH _ H) by (intros; eapply Hno; by right).
    apply lookup_insert_ne. intros ->. by eapply Hno; [left|].
Qed.

(** a key of a cell that no override is aimed at keeps its value *)
Lemma apply_overrides_slot (σ : gmap loc cell) attrs todo σ' u l c k x :
  Serial.apply_overrides σ attrs todo = (σ', Return u) →
  σ !! l = Some c → Dict.get c k = Some x →
  (∀ s v, (s, k, v) ∈ todo → Dict.get attrs s ≠ Some (HRef l)) →
  ∃ c', σ' !! l = Some c' ∧ Dict.get c' k = Some x.
Proof.
  revert σ c. induction todo as [|[[s0 k0] v0] todo IH]; intros σ c H Hl Hk Hno.
  - injection H as <-. eauto.
  - apply apply_overrides_cons in H as (l0 & c0 & Ht & Hl0 & H).
    assert (Hno' : ∀ s v, (s, k, v) ∈ todo → Dict.get attrs s ≠ Some (HRef l))
      by (intros; eapply Hno; by right).
    destruct (decide (l0 = l)) as [->|Hne].
    + assert (k0 ≠ k) by (intros ->; by eapply Hno; [left|]).
      eapply (IH _ _ H); [apply lookup_insert_eq| |done].
      rewrite dict_get_set_ne by done. congruence.
    + eapply (IH _ _ H); [|done..]. by rewrite lookup_insert_ne.
Qed.

(** every override ends up in the cell that its section refers to *)
Lemma apply_overrides_written (σ : gmap loc cell) attrs todo σ' u :
  Serial.apply_overrides σ attrs todo = (σ', Return u) →
  NoDup (map slot_of todo) → NoDup (cell_refs attrs) →
  ∀ s k v, (s, k, v) ∈ todo →
    ∃ l c, Dict.get attrs s = Some (HRef l) ∧ σ' !! l = Some c
           ∧ Dict.get c k = Some (HVal v).
Proof.
  intros H Hnd Hinj. revert σ H.
  induction todo as [|[[s0 k0] v0] todo IH]; intros σ H s k v Hin.
  - by apply elem_of_nil in Hin.
  - simpl in Hnd. apply NoDup_cons in Hnd as [Hfirst Hnd].
    apply apply_overrides_cons in H as (l0 & c0 & Ht & Hl0 & H).
    apply elem_of_cons in Hin as [[= -> -> ->]|Hin]; [|by eapply IH].
    destruct (apply_overrides_slot _ _ _ _ _ l0 (Dict.set c0 k0 (HVal v0)) k0 (HVal v0) H)
      as (c' & Hc' & Hv).
    + apply lookup_insert_eq.
    + apply dict_get_set_eq.
    + intros s v Hin Hs. assert (s = s0) as -> by (by eapply cell_refs_inj).
      apply Hfirst. apply list_elem_of_In, in_map_iff. exists (s0, k0, v).
      split; [done|]. by apply list_elem_of_In.
    + by exists l0, c'.
Qed.

Lemma assignments_section (ovs : Dict.t (Dict.t value)) s k v :
  (s, k, v) ∈ Serial.assignments ovs → s ∈ Dict.keys ovs.
Proof.
  unfold Serial.assignments, Dict.keys. intros H.
  apply list_elem_of_In, in_flat_map in H as ([s' ov] & Hin & H).
  apply in_map_iff in H as ([k' v'] & [= <- <- <-] & _).
  apply list_elem_of_In, in_map_iff. by exists (s', ov).
Qed.

Lemma assignments_NoDup (ovs : Dict.t (Dict.t value)) :
  wf2 ovs → NoDup (map slot_of (Serial.assignments ovs)).
Proof.
  intros [Hk Hv]. unfold Dict.keys in Hk.
  induction ovs as [|[s ov] ovs IH]; simpl; [constructor|].
  apply NoDup_cons in Hk as [Hs Hk]. apply Forall_cons in Hv as [Hov Hv].
  rewrite map_app, map_map. apply NoDup_app. split_and!.
  - simpl in Hov. unfold Dict.keys in Hov. clear -Hov.
    induction ov as [|[k v] ov IH]; simpl; [constructor|].
    simpl in Hov. apply NoDup_cons in Hov as [Hk Hov].
    apply NoDup_cons. split; [|by apply IH].
    intros Hin. apply Hk. apply list_elem_of_In, in_map_iff in Hin as ([k' v'] & [= <-] & Hin).
    apply list_elem_of_In, in_map_iff. by exists (k', v').
  - intros [s' k'] H1 H2.
    apply list_elem_of_In, in_map_iff in H1 as ([k1 v1] & [= <- <-] & _).
    apply list_elem_of_In, in_map_iff in H2 as ([[s2 k2] v2] & [= <- <-] & H2).
    apply list_elem_of_In, assignments_section in H2. done.
  - by apply IH.
Qed.

Lemma assignments_elem (ovs : Dict.t (Dict.t value)) s k v :
  get2 ovs s k = Some v → (s, k, v) ∈ Serial.assignments ovs.
Proof.
  unfold get2. destruct (Dict.get ovs s) as [ov|] eqn:E; [|done]. simpl.
  intros Hk. apply dict_get_Some_elem in E. apply dict_get_Some_elem in Hk.
  unfold Serial.assignments. apply list_elem_of_In, in_flat_map.
  exists (s, ov). split; [by apply list_elem_of_In|].
  apply in_map_iff. exists (k, v). split; [done|]. by apply list_elem_of_In.
Qed.

(** C10 — Rebuilding an instance from a serialised dictionary with an
    override list works on the caller's own section dictionaries.  For a
    dictionary [d] whose entries refer to distinct cells: the new
    instance's attributes hold the very references that [d] holds (no copy
    is made), [d]'s own entries stay what they were, and after a successful
    [from_dict] every override [section.key] is found, with the override's
    value, in the cell that [d] itself holds for that section. *)
Theorem C10_from_dict_writes_through w (σ : gmap loc cell) d dc l ovs σ' obj :
  σ !! d = Some dc →
  NoDup (Dict.keys dc) →
  NoDup (d :: cell_refs dc) →
  Options.parse_overrides w l = Return ovs →
  Serial.from_dict w σ d (Some l) = (σ', Return obj) →
  σ' !! d = Some dc
  ∧ (∃ attrs, σ !! obj = None ∧ σ' !! obj = Some attrs
       ∧ ∀ s x, s ≠ "_psections" → Dict.get dc s = Some x → Dict.get attrs s = Some x)
  ∧ (∀ section key v, get2 ovs section key = Some v →
       ∃ lsec c, Dict.get dc section = Some (HRef lsec)
                 ∧ σ' !! lsec = Some c ∧ Dict.get c key = Some (HVal v)).
Proof.
  intros Hd Hkeys Hsep Hparse. apply NoDup_cons in Hsep as [Hself Hrefs].
  unfold Serial.from_dict. rewrite Hd, Hparse. cbn zeta.
  fold (Dict.of_items dc). rewrite (dict_of_items_id dc Hkeys).
  destruct (Serial.apply_overrides σ dc (Serial.assignments ovs)) as [σ1 r] eqn:Eapp.
  destruct r as [[]|e|n]; [|done..]. cbn [mbind outcome_bind].
  lazymatch goal with
  | |- (match ?m with _ => _ end = _) → _ => destruct m as [ps|e|n] eqn:Emade
  end; [|done..].
  destruct (alloc σ1 ps) as [lps σ2] eqn:E2. cbv beta iota.
  match goal with
  | |- context [alloc σ2 ?c] => destruct (alloc σ2 c) as [lobj σ3] eqn:E3
  end.
  intros [= <- <-].
  apply alloc_spec in E2 as (Hfresh2 & Hlps & Hmono2).
  apply alloc_spec in E3 as (Hfresh3 & Hlobj & Hmono3).
  assert (Hd1 : σ1 !! d = Some dc).
  { rewrite (apply_overrides_keep _ _ _ _ _ d Eapp); [done|].
    intros s k v _ Hs. by apply get_ref_in in Hs. }
  split_and!.
  - auto.
  - exists (Dict.set dc "_psections" (HRef lps)). split_and!; [|done|].
    + destruct (σ !! lobj) as [c|] eqn:E; [|done].
      assert (is_Some (σ1 !! lobj)) as [c1 Hc1].
      { clear -Eapp E. revert σ c Eapp E.
        induction (Serial.assignments ovs) as [|[[s k] v] todo IH]; intros σ c H E.
        - injection H as <-. eauto.
        - apply apply_overrides_cons in H as (l0 & c0 & _ & Hl0 & H).
          destruct (decide (l0 = lobj)) as [->|Hne].
          + eapply IH; [done|apply lookup_insert_eq].
          + eapply IH; [done|]. by rewrite lookup_insert_ne. }
      apply Hmono2 in Hc1. congruence.
    + intros s x Hs Hx. by rewrite dict_get_set_ne.
  - intros section key v Hov.
    destruct (apply_overrides_written _ _ _ _ _ Eapp) with (s := section) (k := key) (v := v)
      as (lsec & c & Hsec & Hc & Hv).
    + apply assignments_NoDup. by eapply parse_overrides_wf.
    + done.
    + by apply assignments_elem.
    + exists lsec, c. auto.
Qed.

Lemma C10_from_dict_writes_through_witness :
  ∃ σ' obj c attrs,
    Serial.from_dict Example.world Example.serialised 3%positive
      (Some ["train.batch_size:8"]) = (σ', Return obj)
    ∧ (Example.serialised !! 1%positive ≫= fun c0 => Dict.get c0 "batch_size")
      = Some (HVal (VInt 64))
    ∧ σ' !! 1%positive = Some c
    ∧ Dict.get c "batch_size" = Some (HVal (VInt 8))
    ∧ σ' !! obj = Some attrs
    ∧ Dict.get attrs "train" = Some (HRef 1%positive).
Proof.
  assert (Hd : Example.serialised !! 3%positive
               = Some [("filename", HVal (VStr "exp.conf"));
                       ("sections", HVal (VList [VStr "train"; VStr "model"]));
                       ("train", HRef 1%positive); ("model", HRef 2%positive)])
    by (vm_compute; reflexivity).
  assert (Hparse : Options.parse_overrides Example.world ["train.batch_size:8"]
                   = Return [("train", [("batch_size", VInt 8)])])
    by (vm_compute; reflexivity).
  assert (Hfrom : Serial.from_dict Example.world Example.serialised 3%positive
                    (Some ["train.batch_size:8"]) = (_, Return _))
    by (vm_compute; reflexivity).
  pose proof (fun H1 H2 =>
                C10_from_dict_writes_through Example.world Example.serialised 3%positive
                  _ ["train.batch_size:8"] _ _ _ Hd H1 H2 Hparse Hfrom) as X.
  specialize (X ltac:(apply (bool_decide_unpack _); vm_compute; exact I)).
  specialize (X ltac:(apply (bool_decide_unpack _); vm_compute; exact I)).
  destruct X as (_ & (attrs & _ & Hobj & Halias) & Hwritten).
  destruct (Hwritten "train" "batch_size" (VInt 8) eq_refl) as (lsec & c & Hsec & Hc & Hv).
  injection Hsec as <-.
  eexists _, _, c, attrs. split; [exact Hfrom|]. split; [vm_compute; reflexivity|].
  split; [exact Hc|]. split; [exact Hv|]. split; [exact Hobj|].
  apply Halias; [discriminate|reflexivity].
Defined.

(** ** Further properties: the file's values and the suggestions *)

Lemma read_options_seen p s seen opts p' seen' :
  ConfigParser.read_options p s seen opts = Return (p', seen') →
  ∀ o x, (o, x) ∈ opts → ConfigParser.optionxform o ∉ seen.
Proof.
  revert p seen. induction opts as [|[o0 x0] opts IH]; simpl; intros p seen H o x Hin.
  - by apply elem_of_nil in Hin.
  - case_bool_decide as Hseen; [done|].
    apply elem_of_cons in Hin as [[= -> ->]|Hin]; [done|].
    intros Hs. eapply (IH _ _ H); [done|]. by right.
Qed.

Lemma read_options_defined p s seen opts p' seen' o x :
  ConfigParser.read_options p s seen opts = Return (p', seen') →
  s ≠ ConfigParser.DEFAULTSECT → (o, x) ∈ opts →
  get2 (psections p') s (ConfigParser.optionxform o) = Some x.
Proof.
  intros H Hs. revert p seen H.
  induction opts as [|[o0 x0] opts IH]; simpl; intros p seen H Hin.
  - by apply elem_of_nil in Hin.
  - case_bool_decide as Hseen; [done|].
    apply elem_of_cons in Hin as [[= -> ->]|Hin]; [|by eapply IH].
    pose proof (read_options_seen _ _ _ _ _ _ H) as Hfresh.
    apply read_options_spec in H as (_ & _ & Hkeep). rewrite Hkeep.
    + by apply set_option_get2_eq.
    + right. intros o' x' Hin Heq. apply (Hfresh o' x' Hin). rewrite Heq. left.
Qed.

Lemma read_events_added p added seen doc p' :
  ConfigParser.read_events p added seen doc = Return p' →
  ∀ name opts, (name, opts) ∈ doc → name ≠ ConfigParser.DEFAULTSECT → name ∉ added.
Proof.
  revert p added seen. induction doc as [|[n0 opts0] doc IH]; simpl;
    intros p added seen H name opts Hin Hname.
  - by apply elem_of_nil in Hin.
  - destruct (String.eqb_spec n0 ConfigParser.DEFAULTSECT) as [->|Hn0].
    + bind_inv H. destruct a as [p1 seen1].
      apply elem_of_cons in Hin as [[= -> ->]|Hin]; [done|]. by eapply IH.
    + case_bool_decide as Hadded; [done|]. bind_inv H. destruct a as [p1 seen1].
      apply elem_of_cons in Hin as [[= -> ->]|Hin]; [done|].
      intros Hmem. eapply (IH _ _ _ H); [done..|]. by right.
Qed.

Lemma read_events_defined p added seen doc p' s opts o x :
  ConfigParser.read_events p added seen doc = Return p' →
  s ≠ ConfigParser.DEFAULTSECT → (s, opts) ∈ doc → (o, x) ∈ opts →
  get2 (psections p') s (ConfigParser.optionxform o) = Some x.
Proof.
  intros H Hs Hin Ho. revert p added seen H.
  induction doc as [|[n0 opts0] doc IH]; simpl; intros p added seen H.
  - by apply elem_of_nil in Hin.
  - destruct (String.eqb_spec n0 ConfigParser.DEFAULTSECT) as [->|Hn0].
    + bind_inv H. destruct a as [p1 seen1].
      apply elem_of_cons in Hin as [[= -> ->]|Hin]; [done|]. by eapply IH.
    + case_bool_decide as Hadded; [done|]. bind_inv H. destruct a as [p1 seen1].
      apply elem_of_cons in Hin as [[= <- <-]|Hin]; [|by eapply IH].
      pose proof (read_events_added _ _ _ _ _ H) as Hfresh.
      apply read_events_spec in H as (_ & _ & Hkeep). rewrite Hkeep.
      * by eapply read_options_defined.
      * intros (opts' & o' & x' & Hin' & _). apply (Hfresh s opts' Hin' Hs). left.
Qed.

(** X9 — The file beats the defaults: without an override, a key that the
    file's [[train]] section gives has the file's value *)
Theorem file_beats_default w fname ovl out self doc opts o x :
  Options.__init__ w fname ovl = (out, Return self) →
  file_doc w fname = Return doc →
  ("train", opts) ∈ doc → (o, x) ∈ opts →
  mentions (default [] ovl) "train" (ConfigParser.optionxform o) = false →
  ∃ v sec,
    file_value w (Options._parser self) "train" (ConfigParser.optionxform o) x = Return v
    ∧ Options.__getitem__ self "train" = Options.Section sec
    ∧ Dict.get sec (ConfigParser.optionxform o) = Some v.
Proof.
  intros H Hdoc Hin Ho Hov.
  destruct (loaded_inv _ _ _ _ _ H) as (doc' & ovs & Hdoc' & Hev & Hparse & Hwf2 & Hwf & _ & Hps).
  rewrite Hdoc in Hdoc'. injection Hdoc' as <-.
  apply parsed_sections_spec in Hps as [_ Hget]; [|done].
  destruct (Hget "train" (loaded_has_train _ _ _ _ _ H)) as (sec & Hsec & Hg).
  apply section_opts_spec in Hsec as (_ & _ & Hfilev); [|done..].
  destruct (Hfilev (ConfigParser.optionxform o) x) as (v & Hv & Hk).
  - destruct ovl as [l|]; [|by subst].
    rewrite (parse_overrides_into_other _ _ _ _ _ _ Hparse); [done|].
    intros e text He. by eapply mentions_false.
  - by eapply read_events_defined.
  - exists v, sec. split_and!; [done| |done].
    unfold Options.__getitem__, Options.getitem. by rewrite Hg.
Qed.

Lemma best_elem (result : list (spec_float * string)) p :
  Difflib.best result = Some p → p ∈ result.
Proof.
  destruct result as [|q r]; [done|]. simpl. intros [= <-].
  revert q. induction r as [|y r IH]; intros q; simpl; [left|].
  destruct (Difflib.pair_gtb y q).
  - right. apply IH.
  - specialize (IH q). apply elem_of_cons in IH as [->|IH]; [left|right; by right].
Qed.

(** a suggestion is one of the possibilities and scores at least 0.6 *)
Lemma close_match_spec w word possibilities m ms :
  (String.length word < 200)%nat →
  Difflib.get_close_matches w word possibilities = m :: ms →
  ms = [] ∧ m ∈ possibilities
  ∧ PyFloat.geb (Difflib.ratio (list_ascii_of_string m) (list_ascii_of_string word))
                Difflib.cutoff = true.
Proof.
  intros Hlen. unfold Difflib.get_close_matches.
  destruct (Nat.leb_spec 200 (String.length word)); [lia|].
  destruct (Difflib.best _) as [[sc x]|] eqn:E; [|done]. intros [= <- <-].
  split; [done|]. apply best_elem in E. unfold Difflib.scored in E.
  apply list_elem_of_In, in_flat_map in E as (y & Hy & E).
  destruct (_ && _)%bool eqn:Etest; [|done].
  destruct E as [[= <- <-]|[]]. split; [by apply list_elem_of_In|].
  by apply andb_true_iff in Etest as [_ ?].
Qed.

(** * Further properties of the code *)

(** ** Values and their coercion *)

Lemma value_nested_ind (P : value → Prop) :
  P VNone → (∀ b, P (VBool b)) → (∀ n, P (VInt n)) → (∀ x, P (VFloat x)) →
  (∀ s, P (VStr s)) → (∀ p, P (VPath p)) →
  (∀ l, Forall P l → P (VList l)) →
  (∀ l, Forall P l → P (VTuple l)) →
  (∀ l, Forall P l → P (VSet l)) →
  (∀ kv, Forall (fun e => P e.1 ∧ P e.2) kv → P (VDict kv)) →
  (∀ d, P (VObject d)) →
  ∀ v, P v.
Proof.
  intros HN HB HI HF HS HP HL HT HSet HD HO.
  fix IH 1. intros [|b|n|x|s|p|l|l|l|kv|d];
    [exact HN|apply HB|apply HI|apply HF|apply HS|apply HP| | | | |apply HO].
  - apply HL. induction l as [|x l IHl]; constructor; [apply IH|exact IHl].
  - apply HT. induction l as [|x l IHl]; constructor; [apply IH|exact IHl].
  - apply HSet. induction l as [|x l IHl]; constructor; [apply IH|exact IHl].
  - apply HD. induction kv as [|[k x] kv IHl]; constructor; [split; apply IH|exact IHl].
Qed.

(** X1 — [resolve_path] is idempotent: what it returns has no path left to
    resolve, at any depth of lists and dictionaries. *)
Theorem resolve_path_idempotent w v v' :
  resolve_path w v = Return v' → resolve_path w v' = Return v'.
Proof.
  revert v'. induction v as [| | | |s| |l IH|l IH|l IH|kv IH|d] using value_nested_ind;
    intros v' H; simpl in H; try (by injection H as <-).
  - destruct (_ || _)%bool eqn:E.
    + bind_inv H. by injection H as <-.
    + injection H as <-. simpl. by rewrite E.
  - bind_inv H. injection H as <-. apply traverse_Return in Ha. simpl.
    assert (Hl : traverse (resolve_path w) a = Return a); [|by rewrite Hl].
    apply traverse_Forall2.
    induction Ha as [|x y l l' Hxy _ IHl]; [constructor|].
    apply Forall_cons in IH as [Hx IH]. constructor; [by apply Hx|by apply IHl].
  - bind_inv H. injection H as <-. apply traverse_Return in Ha. simpl.
    assert (Hl : traverse (fun e => x ← resolve_path w (snd e); Return (fst e, x)) a = Return a);
      [|by rewrite Hl].
    apply traverse_Forall2.
    induction Ha as [|[k x] [k' y] l l' Hxy _ IHl]; [constructor|].
    apply Forall_cons in IH as [[_ Hx] IH]. constructor; [|by apply IHl].
    simpl in *. bind_inv Hxy. injection Hxy as <- <-. by rewrite (Hx _ Ha).
Qed.

Lemma resolve_path_idempotent_witness :
  ∃ v', resolve_path Example.world (VList [VStr "~/exp"; VInt 1; VStr "data"]) = Return v'
    ∧ resolve_path Example.world v' = Return v'.
Proof.
  eexists. split; [vm_compute; reflexivity|].
  apply (resolve_path_idempotent Example.world (VList [VStr "~/exp"; VInt 1; VStr "data"])).
  vm_compute; reflexivity.
Defined.

Lemma to_lower_ident c : Str.is_ident_char c = true → Str.is_ident_char (Str.to_lower c) = true.
Proof. destruct c as [[] [] [] [] [] [] [] []]; vm_compute; intros H; exact H || reflexivity. Qed.

Lemma to_upper_head c :
  (Str.is_alpha c || Ascii.eqb c "_")%bool = true →
  (Str.is_alpha (Str.to_upper c) || Ascii.eqb (Str.to_upper c) "_")%bool = true.
Proof. destruct c as [[] [] [] [] [] [] [] []]; vm_compute; intros H; exact H || reflexivity. Qed.

Lemma forallb_lower p s :
  (∀ c, p c = true → p (Str.to_lower c) = true) →
  Str.forallb p s = true → Str.forallb p (Str.lower s) = true.
Proof.
  intros Hp. unfold Str.lower. induction s as [|c s IH]; simpl; [done|].
  intros [Hc Hs]%andb_true_iff. by rewrite (Hp _ Hc), IH.
Qed.

Lemma is_identifier_capitalize s : is_identifier s = true → is_identifier (Str.capitalize s) = true.
Proof.
  destruct s as [|c s]; [done|]. simpl. intros [Hc Hs]%andb_true_iff.
  apply andb_true_iff. split; [by apply to_upper_head|].
  by apply forallb_lower; [apply to_lower_ident|].
Qed.

Lemma keyword_value_keywords s v :
  keyword_value s = Some v → s ∈ keywords.
Proof.
  unfold keyword_value, keywords.
  destruct (String.eqb_spec s "False") as [->|_]; [intros _; set_solver|].
  destruct (String.eqb_spec s "True") as [->|_]; [intros _; set_solver|].
  destruct (String.eqb_spec s "None") as [->|_]; [intros _; set_solver|done].
Qed.

Lemma keywords_start s : s ∈ keywords → Str.startswith_any (Str.capitalize s) keywords = true.
Proof.
  unfold keywords. intros H. repeat (apply elem_of_cons in H as [->|H]; [reflexivity|]).
  by apply elem_of_nil in H.
Qed.

Lemma keywords_capitalized s : s ∈ keywords → Str.capitalize s = s.
Proof.
  unfold keywords. intros H. repeat (apply elem_of_cons in H as [->|H]; [reflexivity|]).
  by apply elem_of_nil in H.
Qed.

Lemma lower_idem s : Str.lower (Str.lower s) = Str.lower s.
Proof.
  unfold Str.lower. induction s as [|c s IH]; simpl; [done|]. rewrite IH. f_equal.
  destruct c as [[] [] [] [] [] [] [] []]; reflexivity.
Qed.

Lemma capitalize_idem s : Str.capitalize (Str.capitalize s) = Str.capitalize s.
Proof.
  destruct s as [|c s]; [done|]. unfold Str.capitalize. rewrite lower_idem. f_equal.
  destruct c as [[] [] [] [] [] [] [] []]; reflexivity.
Qed.

(** X2 — A bare word (an identifier: letters, digits and underscores, not
    starting with a digit) is coerced by its capitalisation alone: to the
    constant when the capitalised word is [True], [False] or [None]; to no
    value at all, the coercion raising [NameError], when the capitalised
    word only starts with one of the three; and to the word itself as a
    string in every other case. *)
Theorem parse_value_bare_word w s :
  is_identifier s = true →
  _parse_value w (Text s)
  = match keyword_value (Str.capitalize s) with
    | Some v => Return v
    | None =>
        if Str.startswith_any (Str.capitalize s) keywords then Raise NameError
        else Return (VStr s)
    end.
Proof.
  intros Hid. unfold _parse_value. cbn [token_str token_value].
  destruct (Str.startswith_any (Str.capitalize s) keywords) eqn:Estart.
  - unfold eval_capitalized, eval_fragment.
    rewrite (is_identifier_capitalize _ Hid), Estart. cbn [andb].
    by destruct (keyword_value (Str.capitalize s)).
  - destruct (keyword_value (Str.capitalize s)) as [v|] eqn:Ecap.
    { apply keyword_value_keywords in Ecap. apply keywords_start in Ecap.
      rewrite capitalize_idem in Ecap. congruence. }
    unfold literal_eval, literal_fragment. rewrite Hid.
    destruct (String.eqb_spec s "") as [->|_]; [done|].
    destruct (keyword_value s) as [v|] eqn:Eraw; [|done].
    apply keyword_value_keywords in Eraw.
    pose proof (keywords_start _ Eraw). congruence.
Qed.

Lemma parse_value_bare_word_witness :
  _parse_value Example.world (Text "adam") = Return (VStr "adam")
  ∧ _parse_value Example.world (Text "tRUE") = Return (VBool true)
  ∧ _parse_value Example.world (Text "nonempty") = Raise NameError.
Proof.
  split; [|split].
  - apply (parse_value_bare_word Example.world "adam"). reflexivity.
  - apply (parse_value_bare_word Example.world "tRUE"). reflexivity.
  - apply (parse_value_bare_word Example.world "nonempty"). reflexivity.
Defined.

(** *** Integers written in decimal *)

Lemma digits_value_acc d (acc : positive) :
  PyFloat.digits_value (Zpos acc) (NilEmpty.string_of_uint d)
  = Some (Zpos (Pos.of_uint_acc d acc)).
Proof.
  revert acc. induction d; intros acc; simpl; try done.
  all: rewrite <- IHd; f_equal; lia.
Qed.

Lemma digits_value_uint d :
  PyFloat.digits_value 0 (NilEmpty.string_of_uint d) = Some (Z.of_N (Pos.of_uint d)).
Proof.
  induction d; simpl; try done; apply digits_value_acc.
Qed.

Lemma uint_no_leading_zero p d : Pos.to_uint p ≠ D0 d.
Proof.
  intros E.
  pose proof (DecimalPos.Unsigned.to_of (Pos.to_uint p)) as H.
  rewrite DecimalPos.Unsigned.of_to in H. simpl in H.
  rewrite E in H. unfold unorm in H.
  destruct (nzhead (D0 d)) as [|u|u|u|u|u|u|u|u|u|u] eqn:En; try discriminate H.
  - apply (DecimalPos.Unsigned.to_uint_nonzero p). by rewrite E, H.
  - by apply (DecimalFacts.nzhead_nonzero (D0 d) u).
Qed.

Lemma number_no_keyword c r :
  (Str.is_digit c || Ascii.eqb c "-")%bool = true →
  Str.startswith_any (Str.capitalize (String c r)) keywords = false
  ∧ is_identifier (String c r) = false.
Proof.
  destruct c as [[] [] [] [] [] [] [] []]; try discriminate; intros _; split; reflexivity.
Qed.

Lemma uint_string_plain d :
  let s := NilEmpty.string_of_uint d in
  Str.lower s = s ∧ Str.count "e" s = 0%nat ∧ Str.count "." s = 0%nat.
Proof.
  unfold Str.lower. induction d; simpl; try done.
  all: destruct IHd as (-> & -> & ->); done.
Qed.

Lemma unsigned_number_pos p :
  ∃ c r, NilEmpty.string_of_uint (Pos.to_uint p) = String c r
    ∧ Str.is_digit c = true
    ∧ unsigned_number (String c r) = Some (VInt (Zpos p)).
Proof.
  pose proof (digits_value_uint (Pos.to_uint p)) as Hv.
  rewrite DecimalPos.Unsigned.of_to in Hv.
  pose proof (uint_no_leading_zero p) as Hz.
  pose proof (DecimalPos.Unsigned.to_uint_nonnil p) as Hn.
  destruct (Pos.to_uint p) as [|d|d|d|d|d|d|d|d|d|d]; [done|by destruct (Hz d)|..].
  all: eexists _, _; split; [reflexivity|]; split; [reflexivity|].
  all: unfold unsigned_number.
  all: match goal with
       | |- context [PyFloat.int_literal ?s] =>
           assert (Hi : PyFloat.int_literal s = Some (Zpos p)) by exact Hv
       end.
  all: by rewrite Hi.
Qed.

(** X3 — An integer printed in decimal is read back as that integer: for every
    [n] whose text has at most 4300 characters, [_parse_value(str(n))] is
    [n], negative numbers included. *)
Theorem parse_value_int_round_trip w n :
  (String.length (py_str (SInt n)) ≤ 4300)%nat →
  _parse_value w (Text (py_str (SInt n))) = Return (VInt n).
Proof.
  intros Hlen. destruct n as [|p|p]; [reflexivity|..].
  - unfold py_str in *. cbn [Z.to_int NilZero.string_of_int] in *.
    unfold NilZero.string_of_uint in *.
    destruct (unsigned_number_pos p) as (c & r & E & Hc & Hnum).
    destruct (Pos.to_uint p) eqn:Eu; [done|..]; rewrite E in *.
    all: destruct (number_no_keyword c r) as [Hk Hi];
      [by rewrite Hc|].
    all: unfold _parse_value, literal_eval, literal_fragment; cbn [token_str token_value].
    all: rewrite Hk, Hi; cbn [String.eqb].
    all: destruct (Nat.ltb_spec 4300 (String.length (String c r))); [lia|].
    all: by rewrite Hnum.
  - unfold py_str in *. cbn [Z.to_int NilZero.string_of_int] in *.
    unfold NilZero.string_of_uint in *.
    destruct (unsigned_number_pos p) as (c & r & E & Hc & Hnum).
    pose proof (uint_string_plain (Pos.to_uint p)) as (Hlow & He & Hdot).
    assert (Hs : (match Pos.to_uint p with
                  | Nil => "0" | _ => NilEmpty.string_of_uint (Pos.to_uint p) end)
                 = String c r) by (by destruct (Pos.to_uint p)).
    rewrite Hs in *. rewrite E in Hlow, He, Hdot. clear Hs E.
    destruct (number_no_keyword "-" (String c r)) as [Hk Hi]; [reflexivity|].
    unfold _parse_value, literal_eval, literal_fragment; cbn [token_str token_value].
    rewrite Hk, Hi; cbn [String.eqb].
    destruct (Nat.ltb_spec 4300 (String.length (String "-" (String c r)))); [lia|].
    assert (Hun : unsigned_number (String "-" (String c r)) = None).
    { unfold unsigned_number, PyFloat.float_literal.
      assert (Hl : Str.lower (String "-" (String c r)) = String "-" (String c r)).
      { unfold Str.lower in *. simpl. simpl in Hlow. by rewrite Hlow. }
      rewrite Hl.
      rewrite (split_none "e") by (simpl in *; exact He).
      rewrite (split_none ".") by (simpl in *; exact Hdot).
      reflexivity. }
    rewrite Hun, Hnum. reflexivity.
Qed.

Lemma parse_value_int_round_trip_witness :
  _parse_value Example.world (Text "-1000000") = Return (VInt (-1000000)).
Proof.
  apply (parse_value_int_round_trip Example.world (-1000000)). vm_compute. lia.
Defined.

(** ** Environment variables in the configuration text *)

Lemma prefix_cons a p b s :
  String.prefix (String a p) (String b s) = (Ascii.eqb a b && String.prefix p s)%bool.
Proof.
  simpl. destruct (ascii_dec a b) as [->|Hne].
  - by rewrite Ascii.eqb_refl.
  - by destruct (Ascii.eqb_spec a b).
Qed.

Lemma prefix_app p s : String.prefix p (p ++ s) = true.
Proof.
  induction p as [|a p IH]; [by destruct s|].
  rewrite str_app_cons, prefix_cons, Ascii.eqb_refl. exact IH.
Qed.

Lemma contains_dollar k s : Str.count "$" s = 0%nat → Str.contains (String "$" k) s = false.
Proof.
  induction s as [|c s IH]; [done|]. cbn [Str.count Str.contains].
  rewrite prefix_cons, (Ascii.eqb_sym "$" c).
  destruct (Ascii.eqb c "$"); [done|]. exact IH.
Qed.

Lemma replace_absent old new s :
  Str.contains old s = false → Str.replace_from old new 0 s = s.
Proof.
  induction s as [|c s IH]; [done|]. cbn [Str.contains Str.replace_from].
  intros [-> Hs]%orb_false_iff. by rewrite IH.
Qed.

Lemma replace_skip old new pre s :
  Str.replace_from old new (String.length pre) (pre ++ s) = Str.replace_from old new 0 s.
Proof.
  induction pre as [|c pre IH]; [done|]. exact IH.
Qed.

Lemma replace_clean k new a s :
  Str.count "$" a = 0%nat →
  Str.replace_from (String "$" k) new 0 (a ++ s) = a ++ Str.replace_from (String "$" k) new 0 s.
Proof.
  induction a as [|c a IH]; [done|]. cbn [Str.count]. rewrite !str_app_cons.
  cbn [Str.replace_from]. rewrite prefix_cons, (Ascii.eqb_sym "$" c).
  destruct (Ascii.eqb c "$"); [done|]. intros H. cbn [andb]. by rewrite IH.
Qed.

Lemma replace_hit k new s :
  Str.replace_from (String "$" k) new 0 (String "$" (k ++ s))
  = new ++ Str.replace_from (String "$" k) new 0 s.
Proof.
  cbn [Str.replace_from]. rewrite prefix_cons, Ascii.eqb_refl, prefix_app. cbn [andb].
  cbn [String.length Nat.pred]. by rewrite replace_skip.
Qed.

Lemma replace_miss x k x' k' new s :
  x ≠ x' → Str.count "$" (String x k) = 0%nat →
  Str.replace_from (String "$" (String x' k')) new 0 (String "$" (String x k ++ s))
  = String "$" (String x k ++ Str.replace_from (String "$" (String x' k')) new 0 s).
Proof.
  intros Hne Hk. cbn [Str.replace_from]. rewrite str_app_cons, !prefix_cons, Ascii.eqb_refl.
  destruct (Ascii.eqb_spec x' x) as [->|_]; [done|]. cbn [andb].
  by rewrite <- str_app_cons, replace_clean.
Qed.

Lemma expand_env_vars_rounds w data :
  expand_env_vars w data = fold_left (expand_var w) env_keys data.
Proof. reflexivity. Qed.

Lemma expand_var_eq w data key :
  expand_var w data key
  = match environ w key with
    | Some val => Str.replace_from (String "$" key) val 0 data
    | None => data
    end.
Proof.
  unfold expand_var. cbv zeta. change ("$" ++ key) with (String "$" key).
  destruct (Str.contains _ data) eqn:E; [done|].
  destruct (environ w key); [|done]. by rewrite replace_absent.
Qed.

Lemma expand_var_clean w a s key :
  Str.count "$" a = 0%nat → expand_var w (a ++ s) key = a ++ expand_var w s key.
Proof.
  intros Ha. rewrite !expand_var_eq. destruct (environ w key); [|done].
  by apply replace_clean.
Qed.

Lemma expand_var_hit w s key :
  expand_var w (String "$" (key ++ s)) key
  = default (String "$" key) (environ w key) ++ expand_var w s key.
Proof.
  rewrite !expand_var_eq. destruct (environ w key); [|done]. apply replace_hit.
Qed.

Lemma expand_var_miss w x k x' k' s :
  x ≠ x' → Str.count "$" (String x k) = 0%nat →
  expand_var w (String "$" (String x k ++ s)) (String x' k')
  = String "$" (String x k ++ expand_var w s (String x' k')).
Proof.
  intros Hne Hk. rewrite !expand_var_eq. destruct (environ w _); [|done].
  by apply replace_miss.
Qed.

(** X6 — A text without [$] is left as it is, whatever the environment. *)
Theorem expand_env_vars_plain w data :
  Str.count "$" data = 0%nat → expand_env_vars w data = data.
Proof.
  intros H. rewrite expand_env_vars_rounds. unfold env_keys. cbn [fold_left].
  assert (Hk : ∀ key, expand_var w data key = data).
  { intros key. unfold expand_var. cbv zeta. change ("$" ++ key) with (String "$" key).
    by rewrite contains_dollar. }
  by rewrite !Hk.
Qed.

Lemma expand_env_vars_plain_witness :
  expand_env_vars Example.world Example.conf = Example.conf.
Proof. apply expand_env_vars_plain. reflexivity. Defined.

(** X7 — The first variable of a text: where a text holds [$HOME], [$USER],
    [$LOCAL] or [$SCRATCH] after a part without [$], that part stays, the
    variable is replaced by its value in the environment (it stays as
    written when the environment does not set it), and the rest of the text
    is expanded on its own.  The value is taken as it is: it is required to
    hold no [$], since a later round would expand a variable inside it. *)
Theorem expand_env_vars_step w a key b :
  key ∈ env_keys →
  Str.count "$" a = 0%nat →
  (∀ v, environ w key = Some v → Str.count "$" v = 0%nat) →
  expand_env_vars w (a ++ "$" ++ key ++ b)
  = a ++ default ("$" ++ key) (environ w key) ++ expand_env_vars w b.
Proof.
  intros Hkey Ha Hv. rewrite !expand_env_vars_rounds.
  change ("$" ++ key ++ b) with (String "$" (key ++ b)).
  change ("$" ++ key) with (String "$" key).
  unfold env_keys in *. cbn [fold_left].
  repeat (apply elem_of_cons in Hkey as [->|Hkey]); [..|by apply elem_of_nil in Hkey].
  all: match goal with
       | |- context [environ ?w' ?k] => destruct (environ w' k) as [v|] eqn:E
       end; cbn [default].
  all: try (specialize (Hv v eq_refl)).
  all: repeat first
    [ rewrite (expand_var_clean _ a) by exact Ha
    | rewrite (expand_var_clean _ v) by exact Hv
    | rewrite expand_var_hit, E; cbn [default]
    | rewrite (str_app_cons "$"%char)
    | rewrite expand_var_miss by (done || reflexivity) ].
  all: reflexivity.
Qed.

Lemma expand_env_vars_step_witness :
  expand_env_vars Example.world "save_path = $HOME/exp/$USER"
  = "save_path = /home/user/exp/$USER".
Proof.
  apply (expand_env_vars_step Example.world "save_path = " "HOME" "/exp/$USER").
  - left.
  - reflexivity.
  - intros v [= <-]. reflexivity.
Defined.

(** ** The file's values *)

Lemma file_beats_default_witness :
  ∃ out self sec,
    Options.__init__ Example.world "exp.conf" None = (out, Return self)
    ∧ Options.__getitem__ self "train" = Options.Section sec
    ∧ Dict.get sec "batch_size" = Some (VInt 64).
Proof.
  eexists _, _.
  assert (Hin : ("train", [("batch_size", "64"); ("lr", "0.001")])
                ∈ [("train", [("batch_size", "64"); ("lr", "0.001")]);
                   ("model", [("enc_dim", "256")]);
                   ("tasks.a", [("direction", "en")]);
                   ("tasks.b", [("direction", "de")])]) by left.
  assert (Ho : ("batch_size", "64") ∈ [("batch_size", "64"); ("lr", "0.001")]) by left.
  assert (Hdoc : file_doc Example.world "exp.conf" = Return _) by (vm_compute; reflexivity).
  assert (Hload : Options.__init__ Example.world "exp.conf" None = (_, Return _))
    by (vm_compute; reflexivity).
  pose proof (file_beats_default Example.world "exp.conf" None _ _ _ _ "batch_size" "64"
                Hload Hdoc Hin Ho eq_refl) as X.
  destruct X as (v & sec & Hv & Hsec & Hget).
  exists sec. split; [exact Hload|]. split; [exact Hsec|].
  vm_compute in Hv. injection Hv as <-. exact Hget.
Defined.

(** ** The suggestions of the diagnostics *)

(** X14 — The suggestion of a diagnostic is a real option: for an unknown key
    of fewer than 200 characters, the diagnostic either ends after the key,
    or goes on with [Did you mean] and a key of the defaults table whose
    similarity ratio with the unknown key is at least 0.6. *)
Theorem suggestion_is_known_key w fname key :
  (String.length key < 200)%nat →
  ∃ hint,
    Options.diagnostic w fname key = fname ++ ":train: Unknown option '" ++ key ++ "'." ++ hint
    ∧ (hint = ""
       ∨ ∃ m, m ∈ Dict.keys TRAIN_DEFAULTS
           ∧ PyFloat.geb (Difflib.ratio (list_ascii_of_string m) (list_ascii_of_string key))
                         Difflib.cutoff = true
           ∧ hint = "  Did you mean '" ++ m ++ "' ?").
Proof.
  intros Hlen. unfold Options.diagnostic.
  destruct (Difflib.get_close_matches w key (Dict.keys TRAIN_DEFAULTS)) as [|m ms] eqn:E.
  - exists "". split; [by rewrite !str_app_nil_r|by left].
  - apply close_match_spec in E as (_ & Hm & Hr); [|done].
    eexists. split; [by rewrite !str_app_assoc|]. right. by exists m.
Qed.

Lemma suggestion_is_known_key_witness :
  ∃ hint,
    Options.diagnostic Example.world "typo.conf" "lr_decya"
    = "typo.conf" ++ ":train: Unknown option '" ++ "lr_decya" ++ "'." ++ hint
    ∧ (hint = ""
       ∨ ∃ m, m ∈ Dict.keys TRAIN_DEFAULTS
           ∧ PyFloat.geb (Difflib.ratio (list_ascii_of_string m) (list_ascii_of_string "lr_decya"))
                         Difflib.cutoff = true
           ∧ hint = "  Did you mean '" ++ m ++ "' ?").
Proof.
  apply (suggestion_is_known_key Example.world "typo.conf" "lr_decya"). vm_compute. lia.
Defined.

(** ** Overrides and the sections of the file *)

Lemma traverse_ext {A B} (f g : A → outcome B) l :
  (∀ x, x ∈ l → f x = g x) → traverse f l = traverse g l.
Proof.
  induction l as [|x l IH]; intros H; simpl; [done|].
  rewrite (H x) by left. rewrite IH; [done|]. intros y Hy. apply H. by right.
Qed.

Lemma set2_get_ne ovs s k (v : value) s' :
  s ≠ s' → Dict.get (Options.set2 ovs s k v) s' = Dict.get ovs s'.
Proof. intros H. unfold Options.set2. by apply dict_get_set_ne. Qed.

Lemma set2_get_eq ovs1 ovs2 s k (v : value) s' :
  Dict.get ovs1 s' = Dict.get ovs2 s' →
  Dict.get (Options.set2 ovs1 s k v) s' = Dict.get (Options.set2 ovs2 s k v) s'.
Proof.
  intros H. unfold Options.set2. destruct (String.eqb_spec s s') as [->|Hne].
  - by rewrite !dict_get_set_eq, H.
  - by rewrite !dict_get_set_ne.
Qed.

(** two runs over the same entries from stores that agree on a set of
    sections end alike, and agree on those sections *)
Lemma parse_overrides_into_agree w (keep : string → Prop) acc1 acc2 l ovs1 :
  (∀ s, keep s → Dict.get acc1 s = Dict.get acc2 s) →
  Options.parse_overrides_into w acc1 l = Return ovs1 →
  ∃ ovs2, Options.parse_overrides_into w acc2 l = Return ovs2
    ∧ ∀ s, keep s → Dict.get ovs1 s = Dict.get ovs2 s.
Proof.
  revert acc1 acc2. induction l as [|e l IH]; intros acc1 acc2 Hagree H; simpl in *.
  - injection H as <-. eauto.
  - bind_inv H. destruct a as [[s k] text]. rewrite Ha. simpl.
    bind_inv H. rewrite Ha0. simpl. bind_inv H. rewrite Ha1. simpl.
    apply (IH _ _ (fun s' Hs' => set2_get_eq _ _ s k a0 s' (Hagree s' Hs')) H).
Qed.

Lemma parse_overrides_into_drop w (keep : string → Prop) acc1 acc2 before e after ovs1 s k text :
  (∀ s', keep s' → Dict.get acc1 s' = Dict.get acc2 s') →
  Options.split_override e = Return (s, k, text) → ¬ keep s →
  Options.parse_overrides_into w acc1 (before ++ e :: after) = Return ovs1 →
  ∃ ovs2, Options.parse_overrides_into w acc2 (before ++ after) = Return ovs2
    ∧ ∀ s', keep s' → Dict.get ovs1 s' = Dict.get ovs2 s'.
Proof.
  intros Hagree He Hs. revert acc1 acc2 Hagree.
  induction before as [|e0 before IH]; intros acc1 acc2 Hagree H; simpl in *.
  - rewrite He in H. simpl in H. bind_inv H. bind_inv H.
    eapply parse_overrides_into_agree; [|exact H].
    intros s' Hs'. rewrite set2_get_ne; [by apply Hagree|]. by intros ->.
  - bind_inv H. destruct a as [[s0 k0] text0]. rewrite Ha. simpl.
    bind_inv H. rewrite Ha0. simpl. bind_inv H. rewrite Ha1. simpl.
    apply (IH _ _ (fun s' Hs' => set2_get_eq _ _ s0 k0 a0 s' (Hagree s' Hs')) H).
Qed.

Lemma parsed_sections_agree w p ovs1 ovs2 :
  (∀ s, s ∈ ConfigParser.sections p → Dict.get ovs1 s = Dict.get ovs2 s) →
  Options.parsed_sections w p ovs1 = Options.parsed_sections w p ovs2.
Proof.
  intros H. unfold Options.parsed_sections.
  rewrite (traverse_ext _ (fun section => opts ← Options.section_opts w p ovs2 section;
                                          Return (section, opts))); [done|].
  intros s Hs. unfold Options.section_opts. by rewrite (H s Hs).
Qed.

Lemma sanity_check_same w self self' :
  Options._psections self' = Options._psections self →
  Options.filename self' = Options.filename self →
  Options.sanity_check w self' = Options.sanity_check w self.
Proof.
  intros Hps Hf. unfold Options.sanity_check, Options.invalid_keys, Options.__getitem__.
  by rewrite Hps, Hf.
Qed.

Lemma read_config_parts w fname ovl p ovs :
  Options.read_config w fname ovl = Return (p, ovs)
  ↔ ∃ text,
      read_text w fname = Return text
      ∧ ConfigParser.read_string w defaults_parser (expand_env_vars w (Str.strip text)) = Return p
      ∧ match ovl with
        | Some l => Options.parse_overrides w l
        | None => Return []
        end = Return ovs.
Proof.
  unfold Options.read_config. rewrite read_dict_defaults. split.
  - intros H. bind_inv H. cbn [mbind outcome_bind] in H. bind_inv H. bind_inv H.
    injection H as <- <-. eexists. split; [done|]. split; done.
  - intros (text & -> & Hp & Hov). cbn [mbind outcome_bind]. rewrite Hp.
    cbn [mbind outcome_bind]. by rewrite Hov.
Qed.

Lemma construct_intro w fname ovl p ovs ps :
  Options.read_config w fname ovl = Return (p, ovs) →
  Options.check_sections (ConfigParser.sections p) = Return tt →
  Options.parsed_sections w p ovs = Return ps →
  Options.construct w fname ovl
  = Return {| Options.filename := fname; Options._parser := p;
              Options.overrides := ovs; Options._psections := ps |}.
Proof.
  intros H1 H2 H3. unfold Options.construct. rewrite H1. cbn [mbind outcome_bind].
  rewrite H2. cbn [mbind outcome_bind]. by rewrite H3.
Qed.

(** X10 — [__init__] ignores an override whose section the file does not have:
    with or without the entry, the load prints the same, ends the same way,
    and stores the same sections (only the record of the parsed overrides
    differs). *)
Theorem override_of_missing_section_ignored w fname before e after out self s k text :
  Options.__init__ w fname (Some (before ++ e :: after)%list) = (out, Return self) →
  Options.split_override e = Return (s, k, text) →
  s ∉ ConfigParser.sections (Options._parser self) →
  ∃ self',
    Options.__init__ w fname (Some (before ++ after)%list) = (out, Return self')
    ∧ Options._psections self' = Options._psections self
    ∧ Options._parser self' = Options._parser self.
Proof.
  intros H He Hs. pose proof (init_Return _ _ _ _ _ H) as Hc.
  destruct (construct_inv _ _ _ _ Hc) as (p & ovs & Hrc & Hck & Hps & Hp & Hf).
  rewrite Hp in Hs.
  apply read_config_parts in Hrc as (text0 & Htext & Hread & Hov).
  destruct (parse_overrides_into_drop w (fun s' => s' ∈ ConfigParser.sections p)
              [] [] before e after ovs s k text (fun _ _ => eq_refl) He Hs Hov)
    as (ovs' & Hparse' & Hagree).
  assert (Hc' : Options.construct w fname (Some (before ++ after)%list)
                = Return {| Options.filename := fname; Options._parser := p;
                            Options.overrides := ovs';
                            Options._psections := Options._psections self |}).
  { apply construct_intro; [|done|].
    - apply read_config_parts. by exists text0.
    - by rewrite <- (parsed_sections_agree w p ovs ovs' Hagree). }
  exists {| Options.filename := fname; Options._parser := p;
            Options.overrides := ovs'; Options._psections := Options._psections self |}.
  split; [|split; [reflexivity|by symmetry]].
  unfold Options.__init__ in *. rewrite Hc'. rewrite Hc in H. cbv beta iota.
  rewrite (sanity_check_same w self _) by (by cbn).
  destruct (Options.sanity_check w self) as [o r]. injection H as <- Hr.
  by destruct r as [[]|?|?].
Qed.

Lemma override_of_missing_section_ignored_witness :
  ∃ out self self',
    Options.__init__ Example.world "exp.conf" (Some ["modle.enc_dim:512"; "train.seed:7"])
    = (out, Return self)
    ∧ Options.__init__ Example.world "exp.conf" (Some ["train.seed:7"]) = (out, Return self')
    ∧ Options._psections self' = Options._psections self.
Proof.
  eexists _, _.
  assert (He : Options.split_override "modle.enc_dim:512" = Return ("modle", "enc_dim", "512"))
    by (vm_compute; reflexivity).
  assert (Hs : "modle" ∉ ["train"; "model"; "tasks.a"; "tasks.b"]).
  { intros Hin. repeat (apply elem_of_cons in Hin as [Hin|Hin]; [discriminate Hin|]).
    apply elem_of_nil in Hin. destruct Hin. }
  assert (Hload : Options.__init__ Example.world "exp.conf"
                    (Some ["modle.enc_dim:512"; "train.seed:7"]) = (_, Return _))
    by (vm_compute; reflexivity).
  pose proof (override_of_missing_section_ignored Example.world "exp.conf" []
                "modle.enc_dim:512" ["train.seed:7"] _ _ "modle" "enc_dim" "512"
                Hload He Hs) as X.
  destruct X as (self' & Hload' & Hps & _).
  exists self'. split; [exact Hload|]. split; [exact Hload'|exact Hps].
Defined.

(** ** The case of option names *)

Lemma dict_keys_set_sub {V} (d : Dict.t V) k v k' :
  k' ∈ Dict.keys (Dict.set d k v) → k' = k ∨ k' ∈ Dict.keys d.
Proof.
  rewrite dict_keys_set. destruct (Dict.mem d k); [by right|].
  intros [H|H]%elem_of_app; [by right|]. left. by apply list_elem_of_singleton in H.
Qed.

Lemma dict_keys_update_inv {V} (d e : Dict.t V) k :
  k ∈ Dict.keys (Dict.update d e) → k ∈ Dict.keys d ∨ k ∈ Dict.keys e.
Proof.
  unfold Dict.update. revert d. induction e as [|[k0 v0] e IH]; simpl; intros d H; [by left|].
  apply IH in H as [H|H].
  - apply dict_keys_set_sub in H as [->|H]; [right; left|by left].
  - right. by right.
Qed.

Lemma dict_keys_Forall_set {V} (P : string → Prop) (d : Dict.t V) k v :
  Forall P (Dict.keys d) → P k → Forall P (Dict.keys (Dict.set d k v)).
Proof.
  intros Hd Hk. apply Forall_forall. intros k' [->|H]%dict_keys_set_sub; [done|].
  by eapply Forall_forall in Hd.
Qed.

Lemma set_option_lower p s o x :
  lower_case_keys p → lower_case_keys (ConfigParser.set_option p s (ConfigParser.optionxform o) x).
Proof.
  intros [Hd Hs]. unfold ConfigParser.set_option, ConfigParser.optionxform.
  destruct (String.eqb s ConfigParser.DEFAULTSECT); split; simpl; try done.
  - apply dict_keys_Forall_set; [done|apply lower_idem].
  - apply (dict_Forall_set (fun o => Forall (fun k => Str.lower k = k) (Dict.keys o))); [done|].
    apply dict_keys_Forall_set; [|apply lower_idem].
    destruct (Dict.get (psections p) s) as [own|] eqn:E; [|constructor].
    by eapply (dict_Forall_get (fun o => Forall (fun k => Str.lower k = k) (Dict.keys o))).
Qed.

Lemma add_section_lower p s :
  lower_case_keys p → lower_case_keys (ConfigParser.add_section_if_new p s).
Proof.
  intros [Hd Hs]. unfold ConfigParser.add_section_if_new.
  destruct (_ || _)%bool; [done|]. split; simpl; [done|].
  apply (dict_Forall_set (fun o => Forall (fun k => Str.lower k = k) (Dict.keys o))); [done|].
  constructor.
Qed.

Lemma read_options_lower p s seen opts p' seen' :
  ConfigParser.read_options p s seen opts = Return (p', seen') →
  lower_case_keys p → lower_case_keys p'.
Proof.
  revert p seen. induction opts as [|[o x] opts IH]; simpl; intros p seen H Hp.
  - by injection H as <- <-.
  - case_bool_decide; [done|]. eapply IH; [exact H|]. by apply set_option_lower.
Qed.

Lemma read_events_lower p added seen doc p' :
  ConfigParser.read_events p added seen doc = Return p' →
  lower_case_keys p → lower_case_keys p'.
Proof.
  revert p added seen. induction doc as [|[name opts] doc IH]; simpl; intros p added seen H Hp.
  - by injection H as <-.
  - destruct (String.eqb name ConfigParser.DEFAULTSECT).
    + bind_inv H. destruct a as [p1 seen1]. eapply IH; [exact H|].
      by eapply read_options_lower.
    + case_bool_decide; [done|]. bind_inv H. destruct a as [p1 seen1].
      eapply IH; [exact H|]. eapply read_options_lower; [exact Ha|].
      by apply add_section_lower.
Qed.

Lemma dict_keys_map {A B} (f : A → B) (d : Dict.t A) :
  Dict.keys (map (fun kv => (fst kv, f (snd kv))) d) = Dict.keys d.
Proof. unfold Dict.keys. rewrite map_map. by apply map_ext. Qed.

Lemma defaults_parser_lower : lower_case_keys defaults_parser.
Proof.
  split; [constructor|]. constructor; [|constructor]. cbn [snd].
  rewrite dict_keys_map. repeat constructor.
Qed.

(** X11 — Option names are case-insensitive in the file and case-sensitive in
    the overrides: every key of every section of a loaded configuration is
    in lower case, unless an entry of the override list names that section
    and key. *)
Theorem stored_keys_lower_case w fname ovl out self s opts k :
  Options.__init__ w fname ovl = (out, Return self) →
  Dict.get (Options._psections self) s = Some opts →
  k ∈ Dict.keys opts →
  Str.lower k = k ∨ mentions (default [] ovl) s k = true.
Proof.
  intros H Hs Hk.
  destruct (loaded_inv _ _ _ _ _ H) as (doc & ovs & _ & Hev & Hparse & Hwf2 & Hwf & _ & Hps).
  pose proof (read_events_lower _ _ _ _ _ Hev defaults_parser_lower) as [Hld Hls].
  pose proof Hps as Hps'. apply parsed_sections_spec in Hps' as [Hkeys Hget]; [|done].
  assert (Hsec : s ∈ ConfigParser.sections (Options._parser self)).
  { rewrite <- Hkeys. by eapply dict_get_Some_keys. }
  destruct (Hget s Hsec) as (opts' & Hopts & Hg). rewrite Hs in Hg. injection Hg as <-.
  destruct (mentions (default [] ovl) s k) eqn:Em; [by right|left].
  assert (Hno : get2 ovs s k = None).
  { destruct ovl as [l|]; [|by subst].
    rewrite (parse_overrides_into_other _ _ _ _ _ _ Hparse); [done|].
    intros e text He. by eapply mentions_false. }
  unfold Options.section_opts, ConfigParser.items in Hopts.
  destruct (Dict.get (psections (Options._parser self)) s) as [own|] eqn:Eown; [|done].
  bind_inv Hopts. bind_inv Hopts. injection Hopts as <-.
  assert (Hvals : k ∈ Dict.keys a0).
  { unfold get2 in Hno. destruct (Dict.get ovs s) as [ov|]; simpl in Hno.
    - apply dict_keys_update_inv in Hk as [Hk|Hk].
      + pose proof (dict_NoDup_of_items a0). unfold Dict.of_items in Hk.
        apply dict_keys_update_inv in Hk as [Hk|Hk]; [by apply elem_of_nil in Hk|done].
      + apply dict_get_None in Hno. done.
    - unfold Dict.of_items in Hk.
      apply dict_keys_update_inv in Hk as [Hk|Hk]; [by apply elem_of_nil in Hk|done]. }
  assert (Hf1 : ∀ (e : string * string) y,
             (ConfigParser.before_get w (Options._parser self) s e.1 e.2
              ≫= λ val, Return (e.1, val)) = Return y → y.1 = e.1).
  { intros e y Hy. bind_inv Hy. by injection Hy as <-. }
  assert (Hf2 : ∀ (e : string * string) y,
             (_parse_value w (Text e.2) ≫= λ v, resolve_path w v ≫= λ v', Return (e.1, v'))
             = Return y → y.1 = e.1).
  { intros e y Hy. bind_inv Hy. bind_inv Hy. by injection Hy as <-. }
  rewrite (traverse_keys _ _ _ Hf2 Ha0), (traverse_keys _ _ _ Hf1 Ha) in Hvals.
  apply dict_keys_update_inv in Hvals as [Hd|Ho].
  - by eapply Forall_forall in Hld.
  - assert (Hown : Forall (fun k => Str.lower k = k) (Dict.keys own))
      by (by eapply (dict_Forall_get (fun o => Forall (fun k => Str.lower k = k) (Dict.keys o)))).
    by eapply Forall_forall in Hown.
Qed.

Lemma stored_keys_lower_case_witness :
  ∃ out self,
    Options.__init__ Example.world "exp.conf" (Some ["model.Enc_Dim:512"]) = (out, Return self)
    ∧ Dict.get (Options._psections self) "model"
      = Some [("enc_dim", VInt 256); ("Enc_Dim", VInt 512)]
    ∧ (Str.lower "Enc_Dim" = "Enc_Dim"
       ∨ mentions ["model.Enc_Dim:512"] "model" "Enc_Dim" = true).
Proof.
  eexists _, _.
  assert (Hk : "Enc_Dim" ∈ Dict.keys [("enc_dim", VInt 256); ("Enc_Dim", VInt 512)])
    by (right; left).
  assert (Hload : Options.__init__ Example.world "exp.conf" (Some ["model.Enc_Dim:512"])
                  = (_, Return _)) by (vm_compute; reflexivity).
  split; [exact Hload|]. split; [vm_compute; reflexivity|].
  refine (stored_keys_lower_case Example.world "exp.conf" (Some ["model.Enc_Dim:512"])
            _ _ "model" _ "Enc_Dim" Hload _ Hk).
  vm_compute; reflexivity.
Defined.

(** ** Repeated sections and options *)

Lemma read_options_NoDup p s seen opts p' seen' :
  ConfigParser.read_options p s seen opts = Return (p', seen') →
  NoDup (map (fun ox => ConfigParser.optionxform (fst ox)) opts).
Proof.
  revert p seen. induction opts as [|[o x] opts IH]; simpl; intros p seen H; [constructor|].
  case_bool_decide as Hseen; [done|]. constructor; [|by eapply IH].
  intros Hin. apply list_elem_of_In, in_map_iff in Hin as ([o' x'] & Ho & Hin).
  apply list_elem_of_In in Hin.
  apply (read_options_seen _ _ _ _ _ _ H o' x' Hin). simpl in Ho. rewrite Ho. left.
Qed.

Lemma read_events_NoDup p added seen doc p' :
  ConfigParser.read_events p added seen doc = Return p' →
  repeats_nothing doc.
Proof.
  unfold repeats_nothing. revert p added seen. induction doc as [|[n0 opts0] doc IH]; simpl; intros p added seen H.
  - split; [constructor|]. intros name opts Hin. by apply elem_of_nil in Hin.
  - destruct (String.eqb_spec n0 ConfigParser.DEFAULTSECT) as [->|Hn0].
    + bind_inv H. destruct a as [p1 seen1]. destruct (IH _ _ _ H) as [Hnames Hopts].
      split.
      * rewrite filter_cons_False by (by intros ?). done.
      * intros name opts [[= -> ->]|Hin]%elem_of_cons; [|by eapply Hopts].
        by eapply read_options_NoDup.
    + case_bool_decide as Hadded; [done|]. bind_inv H. destruct a as [p1 seen1].
      destruct (IH _ _ _ H) as [Hnames Hopts]. split.
      * rewrite filter_cons_True by done. constructor; [|done].
        intros Hin. apply list_elem_of_filter in Hin as [_ Hin].
        apply list_elem_of_In, in_map_iff in Hin as ([n opts] & Hn & Hin). simpl in Hn. subst n.
        apply list_elem_of_In in Hin.
        apply (read_events_added _ _ _ _ _ H n0 opts Hin Hn0). left.
      * intros name opts [[= -> ->]|Hin]%elem_of_cons; [|by eapply Hopts].
        by eapply read_options_NoDup.
Qed.

Lemma read_options_outcome p s seen opts :
  is_Return (ConfigParser.read_options p s seen opts) = true
  ∨ ConfigParser.read_options p s seen opts = Raise (ParserError "DuplicateOptionError").
Proof.
  revert p seen. induction opts as [|[o x] opts IH]; simpl; intros p seen; [by left|].
  case_bool_decide; [by right|]. apply IH.
Qed.

Lemma read_events_outcome p added seen doc :
  is_Return (ConfigParser.read_events p added seen doc) = true
  ∨ ConfigParser.read_events p added seen doc = Raise (ParserError "DuplicateSectionError")
  ∨ ConfigParser.read_events p added seen doc = Raise (ParserError "DuplicateOptionError").
Proof.
  revert p added seen. induction doc as [|[n0 opts0] doc IH]; simpl; intros p added seen;
    [by left|].
  destruct (String.eqb n0 ConfigParser.DEFAULTSECT).
  - destruct (read_options_outcome p n0 seen opts0) as [Hr| ->]; [|by right; right].
    destruct (ConfigParser.read_options p n0 seen opts0) as [[p1 seen1]| |]; [|done..].
    apply IH.
  - case_bool_decide; [by right; left|].
    destruct (read_options_outcome (ConfigParser.add_section_if_new p n0) n0 [] opts0)
      as [Hr| ->]; [|by right; right].
    destruct (ConfigParser.read_options _ n0 [] opts0) as [[p1 seen1]| |]; [|done..].
    apply IH.
Qed.

(** X12 — A file that repeats a section header (other than [[DEFAULT]]) or, in
    one section, an option name (names compared in lower case) cannot be
    loaded: [__init__] prints nothing and ends with [DuplicateSectionError]
    or [DuplicateOptionError], whatever the overrides are.  The defaults
    read beforehand do not count as a first occurrence. *)
Theorem repeated_entry_ends_load w fname ovl doc :
  file_doc w fname = Return doc →
  ¬ repeats_nothing doc →
  Options.__init__ w fname ovl = ([], Raise (ParserError "DuplicateSectionError"))
  ∨ Options.__init__ w fname ovl = ([], Raise (ParserError "DuplicateOptionError")).
Proof.
  intros Hdoc Hrep. unfold file_doc in Hdoc. bind_inv Hdoc.
  assert (Hc : ∀ e, ConfigParser.read_events defaults_parser [] [] doc = Raise e →
               Options.__init__ w fname ovl = ([], Raise e)).
  { intros e He. unfold Options.__init__, Options.construct, Options.read_config.
    rewrite Ha, read_dict_defaults. cbn [mbind outcome_bind].
    unfold ConfigParser.read_string. rewrite Hdoc. cbn [mbind outcome_bind].
    by rewrite He. }
  destruct (read_events_outcome defaults_parser [] [] doc) as [Hr|[He|He]].
  - destruct (ConfigParser.read_events defaults_parser [] [] doc) as [p| |] eqn:E; [|done..].
    destruct Hrep. by eapply read_events_NoDup.
  - left. by apply Hc.
  - right. by apply Hc.
Qed.

Lemma repeated_entry_ends_load_witness :
  Options.__init__ Cases.world "twice.conf" None
  = ([], Raise (ParserError "DuplicateSectionError"))
  ∨ Options.__init__ Cases.world "twice.conf" None
    = ([], Raise (ParserError "DuplicateOptionError")).
Proof.
  assert (Hin : ("train", [("seed", "1"); ("Seed", "2")])
                ∈ [("train", [("seed", "1"); ("Seed", "2")]); ("model", [])]) by left.
  assert (Hrep : ¬ repeats_nothing [("train", [("seed", "1"); ("Seed", "2")]); ("model", [])]).
  { intros [_ H]. specialize (H _ _ Hin). apply NoDup_cons in H as [Hn _].
    apply Hn. left. }
  assert (Hdoc : file_doc Cases.world "twice.conf"
                 = Return [("train", [("seed", "1"); ("Seed", "2")]); ("model", [])])
    by (vm_compute; reflexivity).
  exact (repeated_entry_ends_load Cases.world "twice.conf" None _ Hdoc Hrep).
Defined.

(** ** The [[DEFAULT]] section *)

Lemma dict_keys_set_mono {V} (d : Dict.t V) k v k' :
  k' ∈ Dict.keys d → k' ∈ Dict.keys (Dict.set d k v).
Proof.
  intros H. rewrite dict_keys_set. destruct (Dict.mem d k); [done|].
  apply elem_of_app. by left.
Qed.

Lemma dict_keys_set_new {V} (d : Dict.t V) k v : k ∈ Dict.keys (Dict.set d k v).
Proof. eapply dict_get_Some_keys, dict_get_set_eq. Qed.

Lemma set_option_defaults_mono p s k x k' :
  k' ∈ Dict.keys (defaults p) → k' ∈ Dict.keys (defaults (ConfigParser.set_option p s k x)).
Proof.
  unfold ConfigParser.set_option. destruct (String.eqb s ConfigParser.DEFAULTSECT); [|done].
  apply dict_keys_set_mono.
Qed.

Lemma read_options_defaults_mono p s seen opts p' seen' k :
  ConfigParser.read_options p s seen opts = Return (p', seen') →
  k ∈ Dict.keys (defaults p) → k ∈ Dict.keys (defaults p').
Proof.
  revert p seen. induction opts as [|[o x] opts IH]; simpl; intros p seen H Hk.
  - by injection H as <- <-.
  - case_bool_decide; [done|]. eapply IH; [exact H|]. by apply set_option_defaults_mono.
Qed.

Lemma read_options_defaults_defined p seen opts p' seen' o x :
  ConfigParser.read_options p ConfigParser.DEFAULTSECT seen opts = Return (p', seen') →
  (o, x) ∈ opts → ConfigParser.optionxform o ∈ Dict.keys (defaults p').
Proof.
  revert p seen. induction opts as [|[o0 x0] opts IH]; simpl; intros p seen H Hin.
  - by apply elem_of_nil in Hin.
  - case_bool_decide; [done|].
    apply elem_of_cons in Hin as [[= -> ->]|Hin]; [|by eapply IH].
    eapply read_options_defaults_mono; [exact H|].
    unfold ConfigParser.set_option. cbn [String.eqb Ascii.eqb Bool.eqb defaults].
    apply dict_keys_set_new.
Qed.

Lemma add_section_defaults p s : defaults (ConfigParser.add_section_if_new p s) = defaults p.
Proof. unfold ConfigParser.add_section_if_new. by destruct (_ || _)%bool. Qed.

Lemma read_events_defaults_mono p added seen doc p' k :
  ConfigParser.read_events p added seen doc = Return p' →
  k ∈ Dict.keys (defaults p) → k ∈ Dict.keys (defaults p').
Proof.
  revert p added seen. induction doc as [|[n0 opts0] doc IH]; simpl; intros p added seen H Hk.
  - by injection H as <-.
  - destruct (String.eqb n0 ConfigParser.DEFAULTSECT).
    + bind_inv H. destruct a as [p1 seen1]. eapply IH; [exact H|].
      by eapply read_options_defaults_mono.
    + case_bool_decide; [done|]. bind_inv H. destruct a as [p1 seen1].
      eapply IH; [exact H|]. eapply read_options_defaults_mono; [exact Ha|].
      by rewrite add_section_defaults.
Qed.

Lemma read_events_defaults_defined p added seen doc p' opts o x :
  ConfigParser.read_events p added seen doc = Return p' →
  (ConfigParser.DEFAULTSECT, opts) ∈ doc → (o, x) ∈ opts →
  ConfigParser.optionxform o ∈ Dict.keys (defaults p').
Proof.
  revert p added seen. induction doc as [|[n0 opts0] doc IH]; simpl; intros p added seen H Hin Ho.
  - by apply elem_of_nil in Hin.
  - destruct (String.eqb_spec n0 ConfigParser.DEFAULTSECT) as [->|Hn0].
    + bind_inv H. destruct a as [p1 seen1].
      apply elem_of_cons in Hin as [[= ->]|Hin]; [|by eapply IH].
      eapply read_events_defaults_mono; [exact H|]. by eapply read_options_defaults_defined.
    + case_bool_decide; [done|]. bind_inv H. destruct a as [p1 seen1].
      apply elem_of_cons in Hin as [[= <- _]|Hin]; [done|]. by eapply IH.
Qed.

Lemma section_opts_keys w p ovs s opts k :
  Options.section_opts w p ovs s = Return opts → wf_parser p →
  (k ∈ Dict.keys (defaults p)
   ∨ ∃ own, Dict.get (psections p) s = Some own ∧ k ∈ Dict.keys own) →
  k ∈ Dict.keys opts.
Proof.
  unfold Options.section_opts, ConfigParser.items. intros H (Hd & Hpk & Hpv) Hk.
  destruct (Dict.get (psections p) s) as [own|] eqn:Eown; [|done].
  bind_inv H. bind_inv H. injection H as <-.
  assert (Hf1 : ∀ (e : string * string) y,
             (ConfigParser.before_get w p s e.1 e.2 ≫= λ val, Return (e.1, val)) = Return y
             → y.1 = e.1).
  { intros e y Hy. bind_inv Hy. by injection Hy as <-. }
  assert (Hf2 : ∀ (e : string * string) y,
             (_parse_value w (Text e.2) ≫= λ v, resolve_path w v ≫= λ v', Return (e.1, v'))
             = Return y → y.1 = e.1).
  { intros e y Hy. bind_inv Hy. bind_inv Hy. by injection Hy as <-. }
  assert (Hown : NoDup (Dict.keys own))
    by (by eapply (dict_Forall_get (fun o => NoDup (Dict.keys o)))).
  assert (Hka : Dict.keys a0 = Dict.keys (Dict.update (defaults p) own))
    by (by rewrite (traverse_keys _ _ _ Hf2 Ha0), (traverse_keys _ _ _ Hf1 Ha)).
  assert (Hitems : k ∈ Dict.keys (Dict.of_items a0)).
  { rewrite dict_of_items_id by (rewrite Hka; by apply dict_NoDup_update).
    rewrite Hka. destruct Hk as [Hk|(own' & [= <-] & Hk)].
    - by apply dict_keys_update_sub.
    - destruct (Dict.get own k) as [v|] eqn:E; [|by apply dict_get_None in E].
      apply (dict_get_Some_keys _ _ v). rewrite dict_get_update by done. by rewrite E. }
  destruct (Dict.get ovs s); [by apply dict_keys_update_sub|done].
Qed.

(** X13 — The options of a [[DEFAULT]] section are options of every section,
    [train] included, where the check of the keys meets them: a file whose
    [[DEFAULT]] section gives an option that the defaults table does not
    have cannot be loaded, whatever else it holds and whatever the
    overrides. *)
Theorem default_section_option_must_be_known w fname ovl doc opts o x :
  file_doc w fname = Return doc →
  (ConfigParser.DEFAULTSECT, opts) ∈ doc → (o, x) ∈ opts →
  Dict.mem TRAIN_DEFAULTS (ConfigParser.optionxform o) = false →
  is_Return (Options.__init__ w fname ovl).2 = false.
Proof.
  intros Hdoc Hin Ho Hunknown.
  destruct (Options.__init__ w fname ovl) as [out [self| |]] eqn:H; [exfalso|done..].
  destruct (loaded_inv _ _ _ _ _ H) as (doc' & ovs & Hdoc' & Hev & Hparse & Hwf2 & Hwf & _ & Hps).
  rewrite Hdoc in Hdoc'. injection Hdoc' as <-.
  pose proof (read_events_defaults_defined _ _ _ _ _ _ _ _ Hev Hin Ho) as Hdef.
  pose proof (loaded_has_train _ _ _ _ _ H) as Htrain.
  pose proof (init_Return _ _ _ _ _ H) as Hc.
  destruct (init_after_construct _ _ _ _ Hc) as (topts & Hget & Hnd & Hinit).
  rewrite Hinit in H. clear Hinit.
  assert (Hk : ConfigParser.optionxform o ∈ Dict.keys topts).
  { apply parsed_sections_spec in Hps as [_ Hsec]; [|done].
    destruct (Hsec "train" Htrain) as (topts' & Hopts & Hg).
    unfold Options.__getitem__, Options.getitem in Hget. rewrite Hg in Hget.
    injection Hget as <-. eapply section_opts_keys; [exact Hopts|done|by left]. }
  assert (Hu : ConfigParser.optionxform o ∈ unknown_keys topts).
  { unfold unknown_keys. apply list_elem_of_filter. split; [|done]. by rewrite Hunknown. }
  pose proof (set_iter_unknown w topts Hnd) as Hperm.
  rewrite <- Hperm in Hu.
  destruct (set_iter w (unknown_keys topts)); [by apply elem_of_nil in Hu|].
  by injection H.
Qed.

Lemma default_section_option_must_be_known_witness :
  is_Return (Options.__init__ Cases.world "default.conf" None).2 = false.
Proof.
  assert (Hin : ("DEFAULT", [("root", "data")])
                ∈ [("DEFAULT", [("root", "data")]); ("train", []); ("model", [])]) by left.
  assert (Ho : ("root", "data") ∈ [("root", "data")]) by left.
  assert (Hdoc : file_doc Cases.world "default.conf"
                 = Return [("DEFAULT", [("root", "data")]); ("train", []); ("model", [])])
    by (vm_compute; reflexivity).
  exact (default_section_option_must_be_known Cases.world "default.conf" None _ _ _ _
           Hdoc Hin Ho eq_refl).
Defined.

(** * The selector of dataset classes *)

Lemma dataset_table_injective k1 k2 cls :
  Dict.get Datasets.table k1 = Some cls → Dict.get Datasets.table k2 = Some cls → k1 = k2.
Proof.
  intros H1%dict_get_Some_elem H2%dict_get_Some_elem. unfold Datasets.table in *.
  repeat (apply elem_of_cons in H1 as [H1|H1]; [injection H1 as -> ->|]);
    [..|by apply elem_of_nil in H1].
  all: repeat (apply elem_of_cons in H2 as [H2|H2];
               [first [discriminate H2|by injection H2 as ->]|]).
  all: by apply elem_of_nil in H2.
Qed.

(** X17 — [get_dataset] reads its argument without regard to case: it hands out
    a class exactly for the thirteen names of its table and raises
    [KeyError] for any other name; no class has two names, so another
    argument selects the same class exactly when it is the same name up to
    case. *)
Theorem get_dataset_selects s :
  match Datasets.get_dataset s with
  | Return cls =>
      Str.lower s ∈ Dict.keys Datasets.table
      ∧ ∀ t, Datasets.get_dataset t = Return cls ↔ Str.lower t = Str.lower s
  | Raise e => e = KeyError ∧ Str.lower s ∉ Dict.keys Datasets.table
  | Exit _ => False
  end.
Proof.
  unfold Datasets.get_dataset.
  destruct (Dict.get Datasets.table (Str.lower s)) as [cls|] eqn:E.
  - split; [by eapply dict_get_Some_keys|]. intros t. split.
    + destruct (Dict.get Datasets.table (Str.lower t)) as [cls'|] eqn:Et; [|done].
      intros [= ->]. by eapply dataset_table_injective.
    + intros ->. by rewrite E.
  - split; [done|]. by apply dict_get_None.
Qed.

(** * The captions of a COCO-style file *)

Tactic Notation "unbind" hyp(H) "as" ident(a) ident(Ha) :=
  apply bind_Return in H as (a & Ha & H).

Lemma coco_len_elements x n l :
  COCO.len x = Return n → COCO.elements x = Return l → n = length l.
Proof.
  destruct x as [| | | |s|l0|d]; simpl; try done.
  - intros [= <-] [= <-]. rewrite length_map. clear.
    induction s as [|c s IH]; simpl; [done|]. by rewrite IH.
  - by intros [= <-] [= <-].
  - intros [= <-] [= <-]. unfold Dict.keys. by rewrite !length_map.
Qed.

Lemma coco_subscript_str s key : COCO.subscript (JStr s) key = Raise TypeError.
Proof. done. Qed.

(** what the loop does to its state *)
Lemma coco_load_spec env bos eos elems st st' :
  COCO.load env bos eos elems st = Return st' →
  ∃ encs,
    Forall2 (annotation env bos eos) elems encs
    ∧ COCO.st_lengths st' = (COCO.st_lengths st ++ map length encs)%list
    ∧ (NoDup (Dict.keys (COCO.st_data st)) → NoDup (Dict.keys (COCO.st_data st')))
    ∧ (length (COCO.st_data st') ≤ length (COCO.st_data st) + length elems)%nat
    ∧ (∀ key enc, Dict.get (COCO.st_data st') key = Some enc →
         Dict.get (COCO.st_data st) key = Some enc ∨ enc ∈ encs).
Proof.
  revert st. induction elems as [|elem elems IH]; intros st H; simpl in H.
  - injection H as <-. exists []. rewrite app_nil_r.
    split_and!; [constructor|done|done|simpl; lia|by left].
  - unbind H as image_id Hid. unbind H as caption Hcap. unbind H as kt Hkt.
    destruct kt as [key id_text]. unbind H as enc0 Henc.
    apply IH in H as (encs & Hall & Hlen & Hnd & Hsize & Hget). cbn in *.
    exists (enc0 :: encs). split_and!.
    + constructor; [|done]. by exists image_id, caption, (key, id_text).
    + rewrite Hlen. by rewrite <- app_assoc.
    + intros Hd. by apply Hnd, dict_NoDup_set.
    + etrans; [exact Hsize|]. pose proof (dict_keys_set (COCO.st_data st)
        (COCO.cap_key id_text (COCO.counter (COCO.st_ids st) key + 1)) enc0) as Hk.
      apply (f_equal length) in Hk. unfold Dict.keys in Hk. rewrite length_map in Hk.
      rewrite Hk. destruct (Dict.mem _ _); rewrite ?length_app, !length_map; simpl; lia.
    + intros k enc Hk. destruct (Hget k enc Hk) as [Hold|Hin]; [|right; by right].
      destruct (String.eqb_spec (COCO.cap_key id_text (COCO.counter (COCO.st_ids st) key + 1)) k)
        as [<-|Hne].
      * rewrite dict_get_set_eq in Hold. injection Hold as <-. right. left.
      * rewrite dict_get_set_ne in Hold by done. by left.
Qed.

Lemma coco_sorted_Permutation l : COCO.sorted l ≡ₚ l.
Proof. apply merge_sort_Permutation. Qed.

(** X18 — What a file must hold for [COCOJSONDataset] to be built, and the
    sizes of what is built.  When the constructor returns: the file exists;
    its JSON text is a dictionary with the entries [annotations] and
    [images] (the second one is only looked up); the annotations are a
    list (or an empty dictionary or string: anything whose elements, if
    any, are dictionaries), each a dictionary with a hashable [image_id]
    and a [caption] that the vocabulary encodes.  [len(dataset)] is the
    number of annotations; [lengths] holds the length of each encoded
    caption in the order of the file; there are at most that many keys,
    none twice, and each has a caption in [data]. *)
Theorem coco_init_contract env fname bos eos ds :
  COCO.__init__ env fname bos eos = Return ds →
  COCO.path_exists env fname = true
  ∧ ∃ d annotations images elems encs,
      COCO.json_load env fname = Return (JObj d)
      ∧ Dict.get d "annotations" = Some annotations
      ∧ Dict.get d "images" = Some images
      ∧ COCO.elements annotations = Return elems
      ∧ Forall2 (annotation env bos eos) elems encs
      ∧ COCO.__len__ ds = length elems
      ∧ COCO.lengths ds = map length encs
      ∧ (length (COCO.keys ds) ≤ COCO.__len__ ds)%nat
      ∧ NoDup (COCO.keys ds)
      ∧ ∀ key, key ∈ COCO.keys ds →
          ∃ enc, Dict.get (COCO.data ds) key = Some enc ∧ enc ∈ encs.
Proof.
  unfold COCO.__init__. destruct (COCO.path_exists env fname); [|done]. cbn [negb].
  intros H. split; [done|]. unbind H as jdata Hload. unbind H as anns Hanns.
  unbind H as imgs Himgs. unbind H as n Hn. unbind H as elems Helems.
  unbind H as st Hst. injection H as <-. cbn.
  destruct jdata as [| | | | | |d]; try done. exists d, anns, imgs, elems.
  pose proof (coco_len_elements _ _ _ Hn Helems) as ->.
  destruct (coco_load_spec _ _ _ _ _ _ Hst) as (encs & Hall & Hlen & Hnd & Hsize & Hget).
  cbn in *. exists encs.
  assert (Hk : NoDup (Dict.keys (COCO.st_data st))) by (apply Hnd; constructor).
  split_and!; try done.
  - by destruct (Dict.get d "annotations"); [injection Hanns as ->|].
  - by destruct (Dict.get d "images"); [injection Himgs as ->|].
  - rewrite (Permutation_length (coco_sorted_Permutation _)). unfold Dict.keys.
    rewrite length_map. lia.
  - by rewrite coco_sorted_Permutation.
  - intros key Hkey. rewrite coco_sorted_Permutation in Hkey.
    destruct (Dict.get (COCO.st_data st) key) as [enc|] eqn:E; [|by apply dict_get_None in E].
    exists enc. split; [done|]. by destruct (Hget _ _ E).
Qed.

Lemma coco_init_contract_witness :
  ∃ ds,
    COCO.__init__ Cases.coco_env "caps.json" true true = Return ds
    ∧ COCO.path_exists Cases.coco_env "caps.json" = true
    ∧ NoDup (COCO.keys ds)
    ∧ (length (COCO.keys ds) ≤ COCO.__len__ ds)%nat.
Proof.
  eexists.
  assert (Hinit : COCO.__init__ Cases.coco_env "caps.json" true true = Return _)
    by (vm_compute; reflexivity).
  split; [exact Hinit|].
  destruct (coco_init_contract _ _ _ _ _ Hinit)
    as (Hex & d & anns & imgs & elems & encs & _ & _ & _ & _ & _ & _ & _ & Hle & Hnd & _).
  split; [exact Hex|]. split; [exact Hnd|exact Hle].
Defined.

(** ** Integer image ids *)

Lemma str_int_inj n m : COCO.str_int n = COCO.str_int m → n = m.
Proof.
  unfold COCO.str_int. intros H. apply DecimalZ.to_int_inj.
  assert (Hn : ∀ z, Z.to_int z ≠ Pos Nil ∧ Z.to_int z ≠ Neg Nil).
  { intros [|p|p]; simpl; split; try done; intros [= E];
      by apply (DecimalPos.Unsigned.to_uint_nonnil p). }
  pose proof (NilZero.isi _ (proj1 (Hn n)) (proj2 (Hn n))) as H1.
  pose proof (NilZero.isi _ (proj1 (Hn m)) (proj2 (Hn m))) as H2.
  rewrite H in H1. rewrite H1 in H2. by injection H2.
Qed.

Lemma uint_string_no_at d : Str.count "@" (NilEmpty.string_of_uint d) = 0%nat.
Proof. induction d; simpl; done. Qed.

Lemma str_int_no_at n : Str.count "@" (COCO.str_int n) = 0%nat.
Proof.
  unfold COCO.str_int. destruct n as [|p|p]; [done|..]; simpl.
  - unfold NilZero.string_of_uint. destruct (Pos.to_uint p) eqn:E; try done;
      rewrite <- E; apply uint_string_no_at.
  - unfold NilZero.string_of_uint. destruct (Pos.to_uint p) eqn:E; try done;
      rewrite <- E; apply uint_string_no_at.
Qed.

Lemma before_sep_inj a a' b b' :
  Str.count "@" a = 0%nat → Str.count "@" a' = 0%nat →
  a ++ String "@" (String "@" b) = a' ++ String "@" (String "@" b') → a = a' ∧ b = b'.
Proof.
  revert a'. induction a as [|c a IH]; intros [|c' a'];
    rewrite ?str_app_nil_l, ?str_app_cons; cbn [Str.count].
  - intros _ _ H. by injection H as ->.
  - destruct (Ascii.eqb_spec c' "@") as [->|Hne]; [done|]. intros _ _ H.
    injection H as H _. by subst c'.
  - destruct (Ascii.eqb_spec c "@") as [->|Hne]; [done|]. intros _ _ H.
    injection H as H _. by subst c.
  - destruct (Ascii.eqb_spec c "@") as [->|Hne]; [done|].
    destruct (Ascii.eqb_spec c' "@") as [->|Hne']; [done|].
    intros Ha Ha' H. injection H as -> H. by destruct (IH _ Ha Ha' H) as [-> ->].
Qed.

Lemma cap_key_inj i n j m :
  COCO.cap_key (COCO.str_int i) n = COCO.cap_key (COCO.str_int j) m → i = j ∧ n = m.
Proof.
  unfold COCO.cap_key. intros H.
  change (?a ++ "@@" ++ ?b) with (a ++ String "@" (String "@" b)) in H.
  apply before_sep_inj in H as [Hi Hn]; [|apply str_int_no_at..].
  split; by apply str_int_inj.
Qed.

Lemma before_first_eq sep s :
  COCO.before_first sep s
  = if String.prefix sep s then EmptyString
    else match s with
         | EmptyString => EmptyString
         | String c r => String c (COCO.before_first sep r)
         end.
Proof. by destruct s. Qed.

Lemma before_first_cap_key a b :
  Str.count "@" a = 0%nat → COCO.before_first "@@" (a ++ "@@" ++ b) = a.
Proof.
  induction a as [|c a IH].
  - intros _. rewrite str_app_nil_l, before_first_eq. by rewrite prefix_app.
  - cbn [Str.count]. rewrite str_app_cons.
    destruct (Ascii.eqb_spec c "@") as [->|Hne]; [done|]. intros Ha.
    rewrite before_first_eq, prefix_cons.
    destruct (Ascii.eqb_spec "@" c) as [<-|_]; [done|]. cbn [andb]. by rewrite IH.
Qed.

Lemma occurrences_snoc i seen j :
  occurrences i (seen ++ [j]) = occurrences i seen + (if decide (j = i) then 1 else 0).
Proof.
  unfold occurrences. rewrite filter_app, length_app, Nat2Z.inj_add. f_equal.
  rewrite filter_cons. destruct (decide (j = i)); done.
Qed.

Lemma occurrences_app_le i seen more : occurrences i seen ≤ occurrences i (seen ++ more).
Proof. unfold occurrences. rewrite filter_app, length_app. lia. Qed.

Lemma numbered_from_keys seen ias key :
  key ∈ map fst (numbered_from seen ias) →
  ∃ i m, key = COCO.cap_key (COCO.str_int i) m
    ∧ occurrences i seen < m ≤ occurrences i (seen ++ map fst ias).
Proof.
  revert seen. induction ias as [|[i enc] ias IH]; intros seen; simpl.
  - intros H. by apply elem_of_nil in H.
  - intros [->|H]%elem_of_cons.
    + exists i, (occurrences i seen + 1). split; [done|].
      pose proof (occurrences_app_le i (seen ++ [i]) (map fst ias)) as Hle.
      rewrite <- app_assoc in Hle. simpl in Hle.
      rewrite occurrences_snoc in Hle. destruct (decide (i = i)); [lia|done].
    + apply IH in H as (j & m & -> & Hlo & Hhi). exists j, m. split; [done|].
      rewrite <- app_assoc in Hhi. simpl in Hhi. split; [|done].
      pose proof (occurrences_app_le j seen [i]). lia.
Qed.

Lemma numbered_from_NoDup seen ias : NoDup (map fst (numbered_from seen ias)).
Proof.
  revert seen. induction ias as [|[i enc] ias IH]; intros seen; simpl; constructor; [|apply IH].
  intros H. apply numbered_from_keys in H as (j & m & Hkey & Hlo & _).
  apply cap_key_inj in Hkey as [<- <-]. rewrite occurrences_snoc in Hlo.
  destruct (decide (i = i)); [lia|done].
Qed.

Lemma numbered_from_app seen a b :
  numbered_from seen (a ++ b)
  = (numbered_from seen a ++ numbered_from (seen ++ map fst a) b)%list.
Proof.
  revert seen. induction a as [|[i enc] a IH]; intros seen; simpl.
  - by rewrite app_nil_r.
  - f_equal. rewrite IH. by rewrite <- app_assoc.
Qed.

Lemma numbered_from_view seen ias :
  map (fun ke => (COCO.before_first "@@" ke.1, ke.2)) (numbered_from seen ias)
  = map (fun ie => (COCO.str_int ie.1, ie.2)) ias.
Proof.
  revert seen. induction ias as [|[i enc] ias IH]; intros seen; simpl; [done|].
  rewrite IH. f_equal. f_equal. apply before_first_cap_key, str_int_no_at.
Qed.

Lemma counter_set ids k n k' :
  COCO.counter (COCO.set_counter ids k n) k'
  = if decide (k = k') then n else COCO.counter ids k'.
Proof.
  induction ids as [|[k0 m] ids IH]; simpl.
  - destruct (decide (k = k')); done.
  - destruct (decide (k0 = k)) as [->|Hne]; simpl.
    + destruct (decide (k = k')); done.
    + destruct (decide (k0 = k')) as [->|Hne'].
      * destruct (decide (k = k')); [by subst|done].
      * exact IH.
Qed.

Lemma coco_load_numbered env bos eos elems ias st st' pre :
  COCO.load env bos eos elems st = Return st' →
  Forall2 (int_annotation env bos eos) elems ias →
  COCO.st_data st = numbered pre →
  (∀ i, COCO.counter (COCO.st_ids st) (COCO.KNum i) = occurrences i (map fst pre)) →
  COCO.st_data st' = numbered (pre ++ ias).
Proof.
  intros H Hall. revert st pre H.
  induction Hall as [|elem [i enc] elems ias (d & c & -> & Hid & Hc & Henc) _ IH];
    intros st pre H Hdata Hids; simpl in H.
  - injection H as <-. by rewrite app_nil_r.
  - rewrite Hid, Hc in H. cbn in H. simpl in Henc. rewrite Henc in H. cbn in H.
    replace (pre ++ (i, enc) :: ias)%list with ((pre ++ [(i, enc)]) ++ ias)%list
      by (by rewrite <- app_assoc).
    apply (IH _ _ H); cbn.
    + rewrite Hdata, Hids. unfold numbered. rewrite numbered_from_app. simpl.
      apply dict_set_fresh. intros Hin.
      pose proof (numbered_from_NoDup [] (pre ++ [(i, enc)])) as Hnd.
      rewrite numbered_from_app, map_app in Hnd. simpl in Hnd.
      apply NoDup_app in Hnd as (_ & Hdisj & _). apply (Hdisj _ Hin). left.
    + intros j. rewrite counter_set, map_app. cbn [map fst].
      rewrite occurrences_snoc, Hids.
      destruct (decide (COCO.KNum i = COCO.KNum j)) as [[= ->]|Hne].
      * by destruct (decide (j = j)).
      * destruct (decide (i = j)) as [->|]; [done|]. rewrite Hids. lia.
Qed.

Lemma coco_init_parts env fname bos eos ds elems :
  COCO.__init__ env fname bos eos = Return ds →
  annotations_of env fname = Return elems →
  ∃ st,
    COCO.load env bos eos elems
      {| COCO.st_data := []; COCO.st_lengths := []; COCO.st_ids := [] |} = Return st
    ∧ COCO.data ds = COCO.st_data st
    ∧ COCO.lengths ds = COCO.st_lengths st
    ∧ COCO.__len__ ds = length elems
    ∧ COCO.keys ds = COCO.sorted (Dict.keys (COCO.st_data st)).
Proof.
  unfold COCO.__init__, annotations_of. destruct (COCO.path_exists env fname); [|done].
  cbn [negb]. intros H Hanns. unbind H as jdata Hload. unbind H as anns Ha.
  unbind H as imgs Himgs. unbind H as n Hn. unbind H as elems' Helems.
  unbind H as st Hst. injection H as <-. cbn.
  rewrite Hload in Hanns. cbn in Hanns. rewrite Ha in Hanns. cbn in Hanns.
  rewrite Helems in Hanns. injection Hanns as ->.
  exists st. split_and!; try done. by eapply coco_len_elements.
Qed.

Lemma coco_data_numbered env fname bos eos ds elems ias :
  COCO.__init__ env fname bos eos = Return ds →
  annotations_of env fname = Return elems →
  Forall2 (int_annotation env bos eos) elems ias →
  COCO.data ds = numbered ias
  ∧ COCO.keys ds = COCO.sorted (map fst (numbered ias))
  ∧ COCO.__len__ ds = length ias.
Proof.
  intros H Hanns Hall.
  destruct (coco_init_parts _ _ _ _ _ _ H Hanns) as (st & Hst & Hdata & _ & Hlen & Hkeys).
  pose proof (coco_load_numbered _ _ _ _ _ _ _ [] Hst Hall eq_refl (fun _ => eq_refl)) as Hnum.
  rewrite app_nil_l in Hnum. rewrite Hdata, Hkeys, Hlen, Hnum.
  split_and!; [done|done|]. by apply Forall2_length in Hall.
Qed.

Lemma numbered_from_length seen ias : length (numbered_from seen ias) = length ias.
Proof.
  revert seen. induction ias as [|[i enc] ias IH]; intros seen; simpl; [done|]. by rewrite IH.
Qed.

(** X19 — With integer image ids no caption is lost: the [k]-th caption of the
    image [id], counting from 1 in the order of the file, is stored under
    the key [id@@k]; [data] holds these entries in the order of the file
    and nothing else; there are as many keys as annotations, the keys being
    those of [data] rearranged. *)
Theorem coco_captions_numbered env fname bos eos ds elems ias :
  COCO.__init__ env fname bos eos = Return ds →
  annotations_of env fname = Return elems →
  Forall2 (int_annotation env bos eos) elems ias →
  COCO.data ds = numbered ias
  ∧ COCO.keys ds ≡ₚ map fst (numbered ias)
  ∧ NoDup (COCO.keys ds)
  ∧ length (COCO.keys ds) = COCO.__len__ ds.
Proof.
  intros H Hanns Hall.
  destruct (coco_data_numbered _ _ _ _ _ _ _ H Hanns Hall) as (Hdata & Hkeys & Hlen).
  pose proof (coco_sorted_Permutation (map fst (numbered ias))) as Hperm.
  rewrite Hkeys, Hlen. split_and!; [done|done|..].
  - rewrite Hperm. apply numbered_from_NoDup.
  - rewrite (Permutation_length Hperm), length_map. apply numbered_from_length.
Qed.

Lemma coco_captions_numbered_witness :
  ∃ ds,
    COCO.__init__ Cases.coco_env "caps.json" true true = Return ds
    ∧ COCO.data ds = numbered [(9, [1; 97; 32; 99; 97; 116; 2]);
                               (10, [1; 100; 111; 103; 115; 2]);
                               (9, [1; 99; 97; 116; 2])]
    ∧ length (COCO.keys ds) = COCO.__len__ ds.
Proof.
  eexists.
  assert (Hinit : COCO.__init__ Cases.coco_env "caps.json" true true = Return _)
    by (vm_compute; reflexivity).
  assert (Hanns : annotations_of Cases.coco_env "caps.json" = Return _)
    by (vm_compute; reflexivity).
  split; [exact Hinit|].
  assert (Hall : Forall2 (int_annotation Cases.coco_env true true)
            [JObj [("image_id", JInt 9); ("id", JInt 1); ("caption", JStr "a cat")];
             JObj [("image_id", JInt 10); ("id", JInt 2); ("caption", JStr "dogs")];
             JObj [("image_id", JInt 9); ("id", JInt 3); ("caption", JStr "cat")]]
            [(9, [1; 97; 32; 99; 97; 116; 2]);
             (10, [1; 100; 111; 103; 115; 2]);
             (9, [1; 99; 97; 116; 2])]).
  { repeat constructor; eexists _, _; repeat split; reflexivity. }
  destruct (coco_captions_numbered _ _ _ _ _ _ _ Hinit Hanns Hall) as (Hdata & _ & _ & Hlen).
  split; [exact Hdata|exact Hlen].
Defined.

(** ** Indexing a dataset *)

Lemma coco_index_nat {A} (l : list A) (idx : nat) x :
  l !! idx = Some x → COCO.index l (Z.of_nat idx) = Return x.
Proof.
  intros H. unfold COCO.index. destruct (Z.ltb_spec (Z.of_nat idx) 0); [lia|].
  cbv zeta. destruct (Z.ltb_spec (Z.of_nat idx) 0); [lia|]. by rewrite Nat2Z.id, H.
Qed.

(** X20 — With integer image ids the samples of a dataset are the annotations
    of its file, rearranged: going through the indices from 0, [self[idx]]
    and [sample_to_dict(idx, cap)] give, index by index, the encoded caption
    and the image id (as text, not as the integer of the file) of one and
    the same annotation, every annotation turning up exactly once. *)
Theorem coco_samples_are_annotations {A} env fname bos eos ds elems ias (cap : A) :
  COCO.__init__ env fname bos eos = Return ds →
  annotations_of env fname = Return elems →
  Forall2 (int_annotation env bos eos) elems ias →
  ∃ order,
    order ≡ₚ map (fun ie => (COCO.str_int ie.1, ie.2)) ias
    ∧ length order = COCO.__len__ ds
    ∧ ∀ idx id enc, order !! idx = Some (id, enc) →
        COCO.__getitem__ ds (Z.of_nat idx) = Return enc
        ∧ COCO.sample_to_dict ds (Z.of_nat idx) cap = Return (id, cap).
Proof.
  intros H Hanns Hall.
  destruct (coco_data_numbered _ _ _ _ _ _ _ H Hanns Hall) as (Hdata & Hsorted & Hlen).
  pose proof (coco_sorted_Permutation (map fst (numbered ias))) as Hperm.
  rewrite <- Hsorted in Hperm.
  apply Permutation_map_inv in Hperm as (ord & Hkeys & Hord).
  exists (map (fun ke => (COCO.before_first "@@" ke.1, ke.2)) ord). split_and!.
  - rewrite <- Hord. unfold numbered. by rewrite numbered_from_view.
  - rewrite length_map, Hlen, <- (numbered_from_length [] ias). fold (numbered ias).
    by rewrite (Permutation_length Hord).
  - intros idx id enc Hidx. rewrite list_lookup_fmap in Hidx.
    destruct (ord !! idx) as [[key enc']|] eqn:E; [|done]. injection Hidx as <- <-.
    assert (Hk : COCO.keys ds !! idx = Some key).
    { rewrite Hkeys, list_lookup_fmap. by rewrite E. }
    unfold COCO.__getitem__, COCO.sample_to_dict.
    rewrite (coco_index_nat _ _ _ Hk). cbn [mbind outcome_bind]. split; [|done].
    rewrite Hdata, (dict_elem_get _ key enc'); [done|apply numbered_from_NoDup|].
    rewrite Hord. by eapply list_elem_of_lookup_2.
Qed.

Lemma coco_samples_are_annotations_witness :
  ∃ ds order,
    COCO.__init__ Cases.coco_env "caps.json" true true = Return ds
    ∧ order ≡ₚ [("9", [1; 97; 32; 99; 97; 116; 2]);
                 ("10", [1; 100; 111; 103; 115; 2]);
                 ("9", [1; 99; 97; 116; 2])]
    ∧ ∀ idx id enc, order !! idx = Some (id, enc) →
        COCO.__getitem__ ds (Z.of_nat idx) = Return enc
        ∧ COCO.sample_to_dict ds (Z.of_nat idx) "a caption" = Return (id, "a caption").
Proof.
  eexists.
  assert (Hinit : COCO.__init__ Cases.coco_env "caps.json" true true = Return _)
    by (vm_compute; reflexivity).
  assert (Hanns : annotations_of Cases.coco_env "caps.json" = Return _)
    by (vm_compute; reflexivity).
  assert (Hall : Forall2 (int_annotation Cases.coco_env true true)
            [JObj [("image_id", JInt 9); ("id", JInt 1); ("caption", JStr "a cat")];
             JObj [("image_id", JInt 10); ("id", JInt 2); ("caption", JStr "dogs")];
             JObj [("image_id", JInt 9); ("id", JInt 3); ("caption", JStr "cat")]]
            [(9, [1; 97; 32; 99; 97; 116; 2]);
             (10, [1; 100; 111; 103; 115; 2]);
             (9, [1; 99; 97; 116; 2])]).
  { repeat constructor; eexists _, _; repeat split; reflexivity. }
  destruct (coco_samples_are_annotations _ _ _ _ _ _ _ "a caption" Hinit Hanns Hall)
    as (order & Hperm & _ & Hidx).
  exists order. split; [exact Hinit|]. split; [exact Hperm|exact Hidx].
Defined.

Lemma coco_index_spec {A} (l : list A) (idx : Z) :
  let n := Z.of_nat (length l) in
  (- n ≤ idx < n → ∃ x, l !! Z.to_nat (idx `mod` n) = Some x ∧ COCO.index l idx = Return x)
  ∧ (¬ (- n ≤ idx < n) → COCO.index l idx = Raise (OtherError "IndexError")).
Proof.
  intros n. unfold COCO.index. fold n. split.
  - intros Hr.
    assert (Hi : (if idx <? 0 then idx + n else idx) = idx `mod` n).
    { destruct (Z.ltb_spec idx 0).
      - rewrite <- (Z.mod_small (idx + n) n) by lia.
        rewrite <- (Z_mod_plus_full idx 1 n). f_equal. lia.
      - by rewrite Z.mod_small by lia. }
    rewrite Hi. pose proof (Z.mod_pos_bound idx n ltac:(lia)) as Hb.
    destruct (Z.ltb_spec (idx `mod` n) 0); [lia|].
    destruct (l !! Z.to_nat (idx `mod` n)) as [x|] eqn:E; [by exists x|].
    apply lookup_ge_None in E. lia.
  - intros Hr. destruct (Z.ltb_spec idx 0).
    + destruct (Z.ltb_spec (idx + n) 0); [done|].
      exfalso. apply Hr. lia.
    + destruct (Z.ltb_spec idx 0); [lia|].
      destruct (l !! Z.to_nat idx) as [x|] eqn:E; [|done].
      apply lookup_lt_Some in E. exfalso. apply Hr. lia.
Qed.

Lemma coco_keys_have_data env fname bos eos ds key :
  COCO.__init__ env fname bos eos = Return ds →
  key ∈ COCO.keys ds → is_Some (Dict.get (COCO.data ds) key).
Proof.
  unfold COCO.__init__. destruct (COCO.path_exists env fname); [|done]. cbn [negb].
  intros H. unbind H as jdata Hload. unbind H as anns Hanns.
  unbind H as imgs Himgs. unbind H as n Hn. unbind H as elems Helems.
  unbind H as st Hst. injection H as <-. cbn.
  rewrite coco_sorted_Permutation. intros Hkey.
  destruct (Dict.get (COCO.st_data st) key) as [enc|] eqn:E; [by eexists|].
  by apply dict_get_None in E.
Qed.

(** X21 — The indices of a dataset are those of its list of keys: with [n]
    keys, [self[idx]] returns a caption of [data] for [-n <= idx < n], a
    negative index counting from the end ([self[idx]] is the caption under
    the key at [idx mod n]), and raises [IndexError] for any other integer;
    it never raises [KeyError]. *)
Theorem coco_getitem_range env fname bos eos ds idx :
  COCO.__init__ env fname bos eos = Return ds →
  let n := Z.of_nat (length (COCO.keys ds)) in
  (- n ≤ idx < n →
     ∃ key enc, COCO.keys ds !! Z.to_nat (idx `mod` n) = Some key
       ∧ Dict.get (COCO.data ds) key = Some enc
       ∧ COCO.__getitem__ ds idx = Return enc)
  ∧ (¬ (- n ≤ idx < n) → COCO.__getitem__ ds idx = Raise (OtherError "IndexError")).
Proof.
  intros H n.
  destruct (coco_index_spec (COCO.keys ds) idx) as [Hin Hout]. fold n in Hin, Hout.
  unfold COCO.__getitem__. split.
  - intros Hr. destruct (Hin Hr) as (key & Hk & ->). cbn [mbind outcome_bind].
    destruct (coco_keys_have_data _ _ _ _ _ key H) as (enc & Henc);
      [by eapply list_elem_of_lookup_2|].
    exists key, enc. by rewrite Henc.
  - intros Hr. by rewrite (Hout Hr).
Qed.

Lemma coco_getitem_range_witness :
  ∃ ds key enc,
    COCO.__init__ Cases.coco_env "caps.json" true true = Return ds
    ∧ COCO.keys ds !! Z.to_nat ((-1) `mod` Z.of_nat (length (COCO.keys ds))) = Some key
    ∧ Dict.get (COCO.data ds) key = Some enc
    ∧ COCO.__getitem__ ds (-1) = Return enc.
Proof.
  eexists.
  assert (Hinit : COCO.__init__ Cases.coco_env "caps.json" true true = Return _)
    by (vm_compute; reflexivity).
  destruct (coco_getitem_range _ _ _ _ _ (-1) Hinit) as [Hin _].
  destruct Hin as (key & enc & Hk & Hd & Hg); [vm_compute; split; [discriminate|reflexivity]|].
  exists key, enc. split; [exact Hinit|]. split; [exact Hk|]. split; [exact Hd|exact Hg].
Defined.

(** * Printing a configuration *)

Lemma traverse_app {A B} (f : A → outcome B) l1 l2 :
  traverse f (l1 ++ l2) = (a ← traverse f l1; b ← traverse f l2; Return (a ++ b)%list).
Proof.
  induction l1 as [|x l1 IH]; simpl.
  - by destruct (traverse f l2).
  - destruct (f x); simpl; [|done..]. rewrite IH.
    destruct (traverse f l1); simpl; [|done..]. by destruct (traverse f l2).
Qed.

(** a traversal whose steps return or raise [TypeError] returns when all
    steps return, and raises [TypeError] otherwise *)
Lemma traverse_all_or_TypeError {A B} (f : A → outcome B) (ok : A → bool) l :
  (∀ x, x ∈ l → if ok x then is_Return (f x) = true else f x = Raise TypeError) →
  if forallb ok l then is_Return (traverse f l) = true else traverse f l = Raise TypeError.
Proof.
  induction l as [|x l IH]; intros H; simpl; [done|].
  pose proof (H x ltac:(left)) as Hx.
  destruct (ok x); simpl.
  - destruct (f x) as [y| |]; [|done..]. simpl.
    specialize (IH (fun y Hy => H y ltac:(by right))).
    destruct (forallb ok l).
    + by destruct (traverse f l).
    + by rewrite IH.
  - by rewrite Hx.
Qed.

Lemma format_right_spec pr width v :
  is_object v = false →
  if formattable v then is_Return (Repr.format_right pr width v) = true
  else Repr.format_right pr width v = Raise TypeError.
Proof. by destruct v. Qed.

Lemma forallb_flat_map {A B} (p : B → bool) (f : A → list B) l :
  forallb p (flat_map f l) = forallb (fun x => forallb p (f x)) l.
Proof. induction l as [|x l IH]; simpl; [done|]. by rewrite forallb_app, IH. Qed.

Lemma forallb_elem {A} (p : A → bool) l x : forallb p l = true → x ∈ l → p x = true.
Proof. rewrite forallb_forall. intros H Hx. by apply H, list_elem_of_In. Qed.

Lemma bind_all_or_TypeError {A B} (m : outcome A) (g : A → B) (ok : bool) :
  (if ok then is_Return m = true else m = Raise TypeError) →
  if ok then is_Return (x ← m; Return (g x)) = true
  else (x ← m; Return (g x)) = Raise TypeError.
Proof. destruct ok; [by destruct m|by intros ->]. Qed.

Lemma option_lines_spec pr key v :
  forallb (fun x => negb (is_object x)) (aligned v) = true →
  if forallb formattable (aligned v) then is_Return (Repr.option_lines pr key v) = true
  else Repr.option_lines pr key v = Raise TypeError.
Proof.
  intros Hobj.
  destruct v as [| | | | | |l|l|l|kv|d]; try done; unfold Repr.option_lines; cbn [aligned] in *.
  - apply bind_all_or_TypeError, traverse_all_or_TypeError. intros x Hx.
    apply bind_all_or_TypeError, format_right_spec, negb_true_iff.
    by eapply (forallb_elem _ _ _ Hobj).
  - assert (Hfa : forallb formattable (map fst kv) = forallb (fun e => formattable (fst e)) kv).
    { clear. induction kv as [|e kv IH]; simpl; [done|]. by rewrite IH. }
    rewrite Hfa.
    apply bind_all_or_TypeError,
      (traverse_all_or_TypeError _ (fun e : value * value => formattable (fst e))).
    intros x Hx. apply bind_all_or_TypeError, format_right_spec, negb_true_iff.
    eapply (forallb_elem _ _ _ Hobj). apply list_elem_of_In, in_map. by apply list_elem_of_In.
Qed.

Lemma section_block_spec pr section opts :
  forallb (fun x => negb (is_object x)) (flat_map (fun kv => aligned (snd kv)) opts) = true →
  if forallb formattable (flat_map (fun kv => aligned (snd kv)) opts)
  then is_Return (Repr.section_block pr section opts) = true
  else Repr.section_block pr section opts = Raise TypeError.
Proof.
  intros Hobj. rewrite forallb_flat_map in Hobj. rewrite (forallb_flat_map formattable).
  unfold Repr.section_block.
  apply bind_all_or_TypeError,
    (traverse_all_or_TypeError _ (fun kv : string * value => forallb formattable (aligned (snd kv)))).
  intros kv Hkv. apply option_lines_spec. by apply (forallb_elem _ _ _ Hobj).
Qed.

(** X15 — Printing a configuration aligns the elements of the options that are
    lists and the keys of the options that are dictionaries, and only
    strings and numbers can be aligned.  For a configuration in which none
    of these values is an object of another class: [repr] returns a text,
    which ends with a rule of 70 dashes, when all of them are strings,
    integers, floats or booleans, and raises [TypeError] when one of them is
    anything else ([None], a path, a list, a tuple, a set, a dictionary). *)
Theorem repr_aligns_or_raises pr self :
  forallb (fun x => negb (is_object x)) (aligned_values (Options._psections self)) = true →
  if forallb formattable (aligned_values (Options._psections self))
  then ∃ body, Repr.__repr__ pr self
               = Return (body ++ Repr.repeat_char "-" 70 ++ Repr.newline)
  else Repr.__repr__ pr self = Raise TypeError.
Proof.
  unfold aligned_values. intros Hobj. rewrite forallb_flat_map in Hobj.
  rewrite (forallb_flat_map formattable). unfold Repr.__repr__.
  pose proof (traverse_all_or_TypeError
                (fun so : string * Dict.t value => Repr.section_block pr (fst so) (snd so))
                (fun so => forallb formattable (flat_map (fun kv => aligned (snd kv)) (snd so)))
                (Options._psections self)) as H.
  cbv beta in H.
  assert (Hstep : ∀ so, so ∈ Options._psections self →
            if forallb formattable (flat_map (fun kv => aligned (snd kv)) (snd so))
            then is_Return (Repr.section_block pr (fst so) (snd so)) = true
            else Repr.section_block pr (fst so) (snd so) = Raise TypeError).
  { intros so Hso. apply section_block_spec. by apply (forallb_elem _ _ _ Hobj). }
  specialize (H Hstep). clear Hobj Hstep.
  destruct (forallb _ (Options._psections self)).
  - destruct (traverse _ (Options._psections self)) as [blocks| |]; [|done..]. by eexists.
  - by rewrite H.
Qed.

Lemma repr_aligns_or_raises_witness :
  ∃ out self,
    Options.__init__ Cases.world "paths.conf" None = (out, Return self)
    ∧ Dict.get (Options._psections self) "model"
      = Some [("feats", VList [VPath "/data/a"; VPath "/data/b"])]
    ∧ Repr.__repr__ Cases.printer self = Raise TypeError.
Proof.
  eexists _, _.
  assert (Hload : Options.__init__ Cases.world "paths.conf" None = (_, Return _))
    by (vm_compute; reflexivity).
  split; [exact Hload|]. split; [vm_compute; reflexivity|].
  match goal with
  | |- Repr.__repr__ _ ?self = _ =>
      assert (Hobj : forallb (fun x => negb (is_object x))
                       (aligned_values (Options._psections self)) = true)
        by (vm_compute; reflexivity);
      pose proof (repr_aligns_or_raises Cases.printer self Hobj) as X
  end.
  lazymatch type of X with
  | (if ?c then _ else _) =>
      let c' := eval vm_compute in c in change c with c' in X
  end.
  exact X.
Defined.

(** * Instances made by [from_dict] *)

Lemma dict_get_update_inv {V} (d e : Dict.t V) k x :
  Dict.get (Dict.update d e) k = Some x → Dict.get d k = Some x ∨ (k, x) ∈ e.
Proof.
  unfold Dict.update. revert d. induction e as [|[k0 v0] e IH]; simpl; intros d H; [by left|].
  apply IH in H as [H|H]; [|right; by right].
  destruct (String.eqb_spec k0 k) as [->|Hne].
  - rewrite dict_get_set_eq in H. injection H as ->. right. left.
  - rewrite dict_get_set_ne in H by done. by left.
Qed.

Lemma lookup_name_elem attrs names entries k x :
  traverse (Serial.lookup_name attrs) names = Return entries →
  (k, x) ∈ entries → Dict.get attrs k = Some x.
Proof.
  intros H%traverse_Return Hin.
  induction H as [|name [k' x'] names entries Hname _ IH]; [by apply elem_of_nil in Hin|].
  apply elem_of_cons in Hin as [[= <- <-]|Hin]; [|by apply IH].
  unfold Serial.lookup_name in Hname. destruct name; try done.
  destruct (Dict.get attrs s) eqn:E; [|done]. by injection Hname as <- <-.
Qed.

(** what [from_dict] leaves in the store for the new instance *)
Lemma from_dict_instance w (σ : gmap loc cell) d dc ovl σ' obj :
  σ !! d = Some dc →
  Serial.from_dict w σ d ovl = (σ', Return obj) →
  ∃ lps ps,
    σ' !! obj = Some (Dict.set (Dict.update [] dc) "_psections" (HRef lps))
    ∧ σ' !! lps = Some ps
    ∧ ∀ k x, Dict.get ps k = Some x → Dict.get (Dict.update [] dc) k = Some x.
Proof.
  intros Hd. unfold Serial.from_dict. rewrite Hd. cbv zeta.
  match goal with
  | |- context [let '(σ1, r) := ?m in _] => destruct m as [σ1 r] eqn:Eov
  end.
  destruct r as [[]|e|n]; cbn [mbind outcome_bind]; [|done..].
  lazymatch goal with
  | |- (match ?m with _ => _ end = _) → _ => destruct m as [ps|e|n] eqn:Emade
  end; [|done..].
  destruct (alloc σ1 ps) as [lps σ2] eqn:E2. cbv beta iota.
  match goal with
  | |- context [alloc σ2 ?c] => destruct (alloc σ2 c) as [lobj σ3] eqn:E3
  end.
  intros [= <- <-].
  apply alloc_spec in E2 as (Hfresh2 & Hlps & Hmono2).
  apply alloc_spec in E3 as (Hfresh3 & Hlobj & Hmono3).
  exists lps, ps. split_and!; [done|by apply Hmono3|].
  intros k x Hk. apply bind_Return in Emade as (names & _ & Emade).
  apply bind_Return in Emade as (entries & Hentries & [= <-]).
  unfold Dict.of_items in Hk. apply dict_get_update_inv in Hk as [Hk|Hk]; [done|].
  by eapply lookup_name_elem.
Qed.

(** X16 — An instance rebuilt by [from_dict] cannot be serialised again.  It
    has no attribute [_parser] (the serialised dictionary has no such
    entry), so [self._parser] in the first statement of [to_dict] is
    answered by [__getattr__] with a dictionary, the one that holds the
    sections below the name [_parser], and calling [sections] on a
    dictionary raises [AttributeError], with or without overrides. *)
Theorem rebuilt_instance_is_not_serialisable w other (σ : gmap loc cell) d dc ovl σ' obj :
  σ !! d = Some dc →
  "_parser" ∉ Dict.keys dc →
  Serial.from_dict w σ d ovl = (σ', Return obj) →
  (∃ subs, Instance.getattr σ' obj "_parser" = Return (Instance.Built subs))
  ∧ Instance.to_dict_head other σ' obj = Raise AttributeError.
Proof.
  intros Hd Hno H.
  destruct (from_dict_instance _ _ _ _ _ _ _ Hd H) as (lps & ps & Hobj & Hps & Hsub).
  assert (Hattrs : Dict.get (Dict.update [] dc) "_parser" = None).
  { destruct (Dict.get (Dict.update [] dc) "_parser") as [x|] eqn:E; [|done].
    apply dict_get_update_inv in E as [E|E]; [done|].
    destruct Hno. apply list_elem_of_In, in_map_iff. exists ("_parser", x).
    split; [done|]. by apply list_elem_of_In. }
  assert (Hsec : Dict.get ps "_parser" = None).
  { destruct (Dict.get ps "_parser") as [x|] eqn:E; [|done].
    apply Hsub in E. congruence. }
  assert (Hparser : ∃ subs, Instance.getattr σ' obj "_parser" = Return (Instance.Built subs)).
  { unfold Instance.getattr. rewrite Hobj.
    rewrite dict_get_set_ne by done. rewrite Hattrs, dict_get_set_eq, Hps.
    unfold Instance.__getitem__. rewrite Hsec. by eexists. }
  split; [done|]. destruct Hparser as (subs & Hparser).
  unfold Instance.to_dict_head. rewrite Hparser.
  assert (Hfile : is_Return (Instance.getattr σ' obj "filename") = true).
  { unfold Instance.getattr. rewrite Hobj.
    destruct (Dict.get _ "filename"); [done|]. by rewrite dict_get_set_eq, Hps. }
  by destruct (Instance.getattr σ' obj "filename").
Qed.

Lemma rebuilt_instance_is_not_serialisable_witness :
  ∃ σ' obj,
    Serial.from_dict Example.world Example.serialised 3%positive None = (σ', Return obj)
    ∧ Instance.to_dict_head (fun _ => Raise AttributeError) σ' obj = Raise AttributeError.
Proof.
  eexists _, _.
  assert (Hd : Example.serialised !! 3%positive
               = Some [("filename", HVal (VStr "exp.conf"));
                       ("sections", HVal (VList [VStr "train"; VStr "model"]));
                       ("train", HRef 1); ("model", HRef 2)]) by (vm_compute; reflexivity).
  assert (Hno : "_parser" ∉ ["filename"; "sections"; "train"; "model"]).
  { intros Hin. repeat (apply elem_of_cons in Hin as [Hin|Hin]; [discriminate Hin|]).
    apply elem_of_nil in Hin. destruct Hin. }
  assert (Hfrom : Serial.from_dict Example.world Example.serialised 3%positive None
                  = (_, Return _)) by (vm_compute; reflexivity).
  split; [exact Hfrom|].
  exact (proj2 (rebuilt_instance_is_not_serialisable Example.world _ _ _ _ _ _ _ Hd Hno Hfrom)).
Defined.

(** ** Quoted values *)

Lemma substring_app_head body rest :
  String.substring 0 (String.length body) (body ++ rest) = body.
Proof.
  induction body as [|c body IH].
  - rewrite str_app_nil_l. by destruct rest.
  - rewrite str_app_cons. cbn [String.length String.substring]. by rewrite IH.
Qed.

Lemma length_app_one body (q : ascii) :
  String.length (body ++ String q "") = S (String.length body).
Proof.
  induction body as [|c body IH]; [done|]. rewrite str_app_cons. cbn [String.length].
  by rewrite IH.
Qed.

Lemma quoted_spec q body :
  (Ascii.eqb q "'" || Nat.eqb (Str.code q) 34)%bool = true →
  Str.forallb (plain_char q) body = true →
  quoted (String q (body ++ String q "")) = Some body.
Proof.
  intros Hq Hbody. unfold quoted. rewrite Hq, length_app_one. cbn [Nat.pred].
  by rewrite substring_app_head, String.eqb_refl, Hbody.
Qed.

Lemma split_head c q x :
  Ascii.eqb q c = false → ∃ h t, Str.split c (String q x) = String q h :: t.
Proof. intros H. simpl. rewrite H. destruct (Str.split c x); eauto. Qed.

Lemma quote_char q :
  (Ascii.eqb q "'" || Nat.eqb (Str.code q) 34)%bool = true →
  Str.is_digit q = false ∧ Ascii.eqb q "e" = false ∧ Ascii.eqb q "." = false
  ∧ Ascii.eqb q "0" = false ∧ Ascii.eqb q "-" = false ∧ Ascii.eqb q "+" = false
  ∧ Str.to_lower q = q ∧ Str.to_upper q = q
  ∧ (Str.is_alpha q || Ascii.eqb q "_")%bool = false.
Proof. destruct q as [[] [] [] [] [] [] [] []]; try discriminate; intros _; repeat split. Qed.

Lemma quote_cases q :
  (Ascii.eqb q "'" || Nat.eqb (Str.code q) 34)%bool = true →
  q = "'"%char ∨ q = ascii_of_nat 34.
Proof.
  destruct q as [[] [] [] [] [] [] [] []]; try discriminate; intros _;
    first [by left|by right].
Qed.

Lemma digits_value_non_digit acc q r :
  Str.is_digit q = false → PyFloat.digits_value acc (String q r) = None.
Proof. intros H. simpl. by rewrite H. Qed.

Lemma unsigned_number_quote q r :
  (Ascii.eqb q "'" || Nat.eqb (Str.code q) 34)%bool = true →
  unsigned_number (String q r) = None.
Proof.
  intros Hq. destruct (quote_char q Hq) as (Hd & He & Hdot & H0 & _ & _ & Hlow & _).
  unfold unsigned_number.
  assert (Hint : PyFloat.int_literal (String q r) = None).
  { unfold PyFloat.int_literal, PyFloat.digit_part.
    rewrite (digits_value_non_digit _ _ _ Hd).
    by destruct (quote_cases q Hq) as [-> | ->]. }
  rewrite Hint. unfold PyFloat.float_literal.
  assert (Hl : Str.lower (String q r) = String q (Str.lower r)).
  { unfold Str.lower. simpl. by rewrite Hlow. }
  rewrite Hl. destruct (split_head "e" q (Str.lower r) He) as (h & t & ->).
  destruct (split_head "." q h Hdot) as (i & t' & Hsplit).
  destruct t as [|ex [|? ?]]; [| |done].
  - rewrite Hsplit. destruct t' as [|f [|? ?]]; [done| |done].
    destruct (String.eqb (String q i) "" && String.eqb f "")%bool; [done|].
    unfold PyFloat.digit_run. by rewrite (digits_value_non_digit _ _ _ Hd).
  - destruct (PyFloat.signed_digit_part ex); [|done]. cbn [mbind option_bind].
    rewrite Hsplit. destruct t' as [|f [|? ?]]; [| |done].
    + unfold PyFloat.digit_part. by rewrite (digits_value_non_digit _ _ _ Hd).
    + destruct (String.eqb (String q i) "" && String.eqb f "")%bool; [done|].
      unfold PyFloat.digit_run. by rewrite (digits_value_non_digit _ _ _ Hd).
Qed.

Lemma literal_eval_quoted w q body :
  (Ascii.eqb q "'" || Nat.eqb (Str.code q) 34)%bool = true →
  Str.forallb (plain_char q) body = true →
  (String.length body + 2 ≤ 4300)%nat →
  Str.startswith_any (Str.capitalize (String q (body ++ String q ""))) keywords = false
  ∧ literal_eval w (Text (String q (body ++ String q ""))) = Some (VStr body).
Proof.
  intros Hq Hbody Hlen.
  destruct (quote_char q Hq) as (_ & _ & _ & _ & Hminus & Hplus & _ & Hup & Halpha).
  split.
  { unfold Str.capitalize. rewrite Hup.
    by destruct (quote_cases q Hq) as [-> | ->]. }
  unfold literal_eval, literal_fragment.
  cbn [String.eqb is_identifier]. rewrite Halpha. cbn [andb].
  destruct (Nat.ltb_spec 4300 (String.length (String q (body ++ String q "")))) as [Hlt|_].
  { cbn [String.length] in Hlt. rewrite length_app_one in Hlt. lia. }
  rewrite (unsigned_number_quote _ _ Hq), (quoted_spec _ _ Hq Hbody).
  by destruct (quote_cases q Hq) as [-> | ->].
Qed.

(** X4 — A value in plain quotes is the text between them: for a text of
    printable characters without backslash and without the quote itself,
    put between two single or two double quotes (at most 4300 characters in
    all), [_parse_value] gives the text as a string, the quotes gone; a
    keyword or a number between the quotes stays a string. *)
Theorem parse_value_quoted w q body :
  (Ascii.eqb q "'" || Nat.eqb (Str.code q) 34)%bool = true →
  Str.forallb (plain_char q) body = true →
  (String.length body + 2 ≤ 4300)%nat →
  _parse_value w (Text (String q (body ++ String q ""))) = Return (VStr body).
Proof.
  intros Hq Hbody Hlen.
  destruct (literal_eval_quoted w q body Hq Hbody Hlen) as [Hk Hlit].
  unfold _parse_value. cbn [token_str token_value]. by rewrite Hk, Hlit.
Qed.

Lemma parse_value_quoted_witness :
  _parse_value Example.world (Text "'True'") = Return (VStr "True").
Proof.
  apply (parse_value_quoted Example.world "'" "True"); [reflexivity|reflexivity|].
  vm_compute. lia.
Defined.

(** X5 — A path in quotes is resolved in the file, not in an override.  The
    file's values are coerced first and resolved afterwards, an override's
    text is resolved first and coerced afterwards: a quoted text that starts
    like a path ([~], [/], [../], [./]) becomes the resolved path as a value
    of the file, and stays the text between the quotes, a string, as the
    value of an override. *)
Theorem quoted_path_in_override_stays_text w p0 section key q body p :
  (Ascii.eqb q "'" || Nat.eqb (Str.code q) 34)%bool = true →
  Str.forallb (plain_char q) body = true →
  (String.length body + 2 ≤ 4300)%nat →
  Str.startswith_any body path_prefixes = true →
  Str.count "$" body = 0%nat →
  fs_resolve w body = Return p →
  coerce_override w (String q (body ++ String q "")) = Return (VStr body)
  ∧ file_value w p0 section key (String q (body ++ String q "")) = Return (VPath p).
Proof.
  intros Hq Hbody Hlen Hpath Hdollar Hres.
  destruct (literal_eval_quoted w q body Hq Hbody Hlen) as [Hk Hlit].
  assert (Hparse : _parse_value w (Text (String q (body ++ String q ""))) = Return (VStr body)).
  { unfold _parse_value. cbn [token_str token_value]. by rewrite Hk, Hlit. }
  split.
  - unfold coerce_override, resolve_token.
    assert (Hno : Str.startswith_any (String q (body ++ String q "")) path_prefixes = false).
    { by destruct (quote_cases q Hq) as [-> | ->]. }
    rewrite Hno. cbn [mbind outcome_bind]. exact Hparse.
  - unfold file_value, ConfigParser.before_get.
    assert (Hd : Str.contains "$" (String q (body ++ String q "")) = false).
    { apply contains_dollar. cbn [Str.count]. rewrite count_app, Hdollar. cbn [Str.count].
      by destruct (quote_cases q Hq) as [-> | ->]. }
    rewrite Hd. cbn [mbind outcome_bind]. rewrite Hparse. cbn [mbind outcome_bind].
    cbn [resolve_path]. by rewrite Hpath, Hres.
Qed.

Lemma quoted_path_in_override_stays_text_witness :
  coerce_override Example.world "'~/exp'" = Return (VStr "~/exp")
  ∧ file_value Example.world ConfigParser.empty "train" "save_path" "'~/exp'"
    = Return (VPath "/home/user/exp").
Proof.
  apply (quoted_path_in_override_stays_text Example.world ConfigParser.empty
           "train" "save_path" "'" "~/exp" "/home/user/exp");
    try reflexivity.
  vm_compute. lia.
Defined.

(** ** The parsed overrides *)

Lemma mentions_last l s k :
  mentions l s k = true →
  ∃ before e after text,
    l = (before ++ e :: after)%list
    ∧ Options.split_override e = Return (s, k, text)
    ∧ ∀ e' text', e' ∈ after → Options.split_override e' ≠ Return (s, k, text').
Proof.
  induction l as [|x r IH]; [done|]. intros H.
  destruct (mentions r s k) eqn:Er.
  - destruct (IH eq_refl) as (before & e & after & text & -> & He & Hlast).
    by exists (x :: before), e, after, text.
  - unfold mentions in H. simpl in H. fold (mentions r s k) in H. rewrite Er in H.
    rewrite orb_false_r in H.
    destruct (Options.split_override x) as [[[s' k'] text]| |] eqn:Ex; [|done..].
    apply andb_true_iff in H as [Hs Hk].
    apply String.eqb_eq in Hs as ->. apply String.eqb_eq in Hk as ->.
    exists [], x, r, text. split_and!; [done..|].
    intros e' text' Hin. by eapply mentions_false.
Qed.

(** X8 — What [parse_overrides] hands back: a dictionary of dictionaries (no
    section twice, no key twice in a section) that has an entry for a
    section and a key exactly when some entry of the list names them, its
    value being the coerced text of the last such entry. *)
Theorem parse_overrides_entries w l ovs s k :
  Options.parse_overrides w l = Return ovs →
  wf2 ovs
  ∧ (mentions l s k = false → get2 ovs s k = None)
  ∧ (mentions l s k = true →
       ∃ before e after text v,
         l = (before ++ e :: after)%list
         ∧ Options.split_override e = Return (s, k, text)
         ∧ mentions after s k = false
         ∧ coerce_override w text = Return v
         ∧ get2 ovs s k = Some v).
Proof.
  intros H. split; [by eapply parse_overrides_wf|]. split.
  - intros Hm. rewrite (parse_overrides_into_other _ _ _ _ s k H); [done|].
    intros e text He. by eapply mentions_false.
  - intros Hm. destruct (mentions_last _ _ _ Hm) as (before & e & after & text & -> & He & Hlast).
    destruct (parse_overrides_into_last _ _ _ _ _ _ _ _ _ H He Hlast) as (v & Hv & Hg).
    exists before, e, after, text, v. split_and!; try done.
    destruct (mentions after s k) eqn:Ea; [|done].
    destruct (mentions_last _ _ _ Ea) as (b' & e' & a' & text' & -> & He' & _).
    destruct (Hlast e' text'); [|done]. apply elem_of_app. right. left.
Qed.

Lemma parse_overrides_entries_witness :
  ∃ ovs,
    Options.parse_overrides Example.world ["train.lr:0.5"; "model.dim:3"; "train.lr:0.1"]
    = Return ovs
    ∧ wf2 ovs
    ∧ get2 ovs "train" "seed" = None.
Proof.
  eexists.
  assert (H : Options.parse_overrides Example.world
                ["train.lr:0.5"; "model.dim:3"; "train.lr:0.1"] = Return _)
    by (vm_compute; reflexivity).
  split; [exact H|].
  destruct (parse_overrides_entries _ _ _ "train" "seed" H) as (Hwf & Hnone & _).
  split; [exact Hwf|exact (Hnone eq_refl)].
Defined.
